(** * Readest VieNeu-TTS audio cache and book pre-cache pipeline

    A shallow embedding of the content-addressed audio cache
    (the [/api/tts/vieneu] route and its [check] and [stats] siblings) and
    of the client-side [PreCacheService], together with the properties the
    design document states about them.

    Layout of the development:
    - JavaScript strings, whitespace, [trim] and [replace(/\s+/g, ' ')];
    - the MD5 digest behind [crypto.createHash('md5')];
    - POSIX [path.join] and an idealised file-system tree with the
      [fs/promises] operations the routes use;
    - the three routes and the pre-cache service, function by function;
    - the statements and their proofs. *)

From stdpp Require Import gmap list strings.
From Stdlib Require Import Ascii NArith ZArith Floats.
From Equations Require Import Equations.

Local Open Scope Z_scope.

(** ** JavaScript strings

    A JavaScript string is a sequence of UTF-16 code units.  Literals of the
    source are ASCII and are written [js "..."]. *)

Abbreviation jsstring := (list N).

Definition js (s : string) : jsstring :=
  (fun a => N_of_ascii a) <$> String.list_ascii_of_string s.
Arguments js s%_string.

(** [WhiteSpace] and [LineTerminator] of ECMAScript: the code units matched
    by the regular expression class [\s] and stripped by [String.prototype.trim]. *)
Definition is_ws (c : N) : bool :=
  ((9 <=? c) && (c <=? 13) || (c =? 32) || (c =? 160) || (c =? 0x1680)
   || (0x2000 <=? c) && (c <=? 0x200A) || (c =? 0x2028) || (c =? 0x2029)
   || (c =? 0x202F) || (c =? 0x205F) || (c =? 0x3000) || (c =? 0xFEFF))%N.

Fixpoint trimStart (s : jsstring) : jsstring :=
  match s with
  | [] => []
  | c :: s' => if is_ws c then trimStart s' else s
  end.

Fixpoint trimEnd (s : jsstring) : jsstring :=
  match s with
  | [] => []
  | c :: s' =>
      match trimEnd s' with
      | [] => if is_ws c then [] else [c]
      | t => c :: t
      end
  end.

(** [s.trim()] *)
Definition trim (s : jsstring) : jsstring := trimEnd (trimStart s).

(** [s.replace(/\s+/g, ' ')]: every maximal run of white space becomes one
    space.  [in_run] records that the previous code unit was white space. *)
Fixpoint replace_ws_runs (in_run : bool) (s : jsstring) : jsstring :=
  match s with
  | [] => []
  | c :: s' =>
      if is_ws c
      then (if in_run then replace_ws_runs true s' else 32%N :: replace_ws_runs true s')
      else c :: replace_ws_runs false s'
  end.

(** [s.endsWith(suffix)] *)
Definition endsWith (s suffix : jsstring) : bool :=
  bool_decide (drop (length s - length suffix)%nat s = suffix).

(** [s.split(sep)] for a one-unit separator: never empty, [""] splits to [[""]]. *)
Fixpoint split_on (sep : N) (s : jsstring) : list jsstring :=
  match s with
  | [] => [[]]
  | c :: s' =>
      if (c =? sep)%N then [] :: split_on sep s'
      else match split_on sep s' with
           | h :: t => (c :: h) :: t
           | [] => [[c]]
           end
  end.

(** [s.replace(pat, '')] for a string pattern: the first occurrence only. *)
Fixpoint remove_first (pat s : jsstring) : jsstring :=
  match s with
  | [] => []
  | c :: s' =>
      if bool_decide (take (length pat) s = pat) then drop (length pat) s
      else c :: remove_first pat s'
  end.

(** [s.substring(0, n)] *)
Definition substring0 (n : nat) (s : jsstring) : jsstring := take n s.

(** ** MD5 ([crypto.createHash('md5').update(s).digest('hex')])

    [update] encodes its string argument as UTF-8; an unpaired surrogate is
    encoded as U+FFFD. *)
Module MD5.

Fixpoint code_points (s : jsstring) : list N :=
  match s with
  | [] => []
  | u :: rest =>
      if ((0xD800 <=? u) && (u <? 0xDC00))%N then
        match rest with
        | lo :: rest' =>
            if ((0xDC00 <=? lo) && (lo <? 0xE000))%N
            then (0x10000 + (u - 0xD800) * 0x400 + (lo - 0xDC00))%N :: code_points rest'
            else 0xFFFD%N :: code_points rest
        | [] => [0xFFFD%N]
        end
      else if ((0xDC00 <=? u) && (u <? 0xE000))%N then 0xFFFD%N :: code_points rest
      else u :: code_points rest
  end.

Definition utf8_of_code_point (c : N) : list Z :=
  let c := Z.of_N c in
  if c <? 0x80 then [c]
  else if c <? 0x800 then [Z.lor 0xC0 (Z.shiftr c 6); Z.lor 0x80 (Z.land c 0x3F)]
  else if c <? 0x10000 then
    [Z.lor 0xE0 (Z.shiftr c 12); Z.lor 0x80 (Z.land (Z.shiftr c 6) 0x3F);
     Z.lor 0x80 (Z.land c 0x3F)]
  else
    [Z.lor 0xF0 (Z.land (Z.shiftr c 18) 0x07); Z.lor 0x80 (Z.land (Z.shiftr c 12) 0x3F);
     Z.lor 0x80 (Z.land (Z.shiftr c 6) 0x3F); Z.lor 0x80 (Z.land c 0x3F)].

Definition utf8 (s : jsstring) : list Z := code_points s ≫= utf8_of_code_point.

Definition mask32 (x : Z) : Z := Z.land x 0xFFFFFFFF.

Definition rotl (x c : Z) : Z :=
  mask32 (Z.lor (Z.shiftl x c) (Z.shiftr x (32 - c))).

Definition K : list Z :=
  [ 0xd76aa478; 0xe8c7b756; 0x242070db; 0xc1bdceee; 0xf57c0faf; 0x4787c62a;
    0xa8304613; 0xfd469501; 0x698098d8; 0x8b44f7af; 0xffff5bb1; 0x895cd7be;
    0x6b901122; 0xfd987193; 0xa679438e; 0x49b40821; 0xf61e2562; 0xc040b340;
    0x265e5a51; 0xe9b6c7aa; 0xd62f105d; 0x02441453; 0xd8a1e681; 0xe7d3fbc8;
    0x21e1cde6; 0xc33707d6; 0xf4d50d87; 0x455a14ed; 0xa9e3e905; 0xfcefa3f8;
    0x676f02d9; 0x8d2a4c8a; 0xfffa3942; 0x8771f681; 0x6d9d6122; 0xfde5380c;
    0xa4beea44; 0x4bdecfa9; 0xf6bb4b60; 0xbebfbc70; 0x289b7ec6; 0xeaa127fa;
    0xd4ef3085; 0x04881d05; 0xd9d4d039; 0xe6db99e5; 0x1fa27cf8; 0xc4ac5665;
    0xf4292244; 0x432aff97; 0xab9423a7; 0xfc93a039; 0x655b59c3; 0x8f0ccc92;
    0xffeff47d; 0x85845dd1; 0x6fa87e4f; 0xfe2ce6e0; 0xa3014314; 0x4e0811a1;
    0xf7537e82; 0xbd3af235; 0x2ad7d2bb; 0xeb86d391 ].

Definition shifts : list Z :=
  [ 7; 12; 17; 22; 7; 12; 17; 22; 7; 12; 17; 22; 7; 12; 17; 22;
    5; 9; 14; 20; 5; 9; 14; 20; 5; 9; 14; 20; 5; 9; 14; 20;
    4; 11; 16; 23; 4; 11; 16; 23; 4; 11; 16; 23; 4; 11; 16; 23;
    6; 10; 15; 21; 6; 10; 15; 21; 6; 10; 15; 21; 6; 10; 15; 21 ].

Definition state : Type := Z * Z * Z * Z.

Definition init : state := (0x67452301, 0xefcdab89, 0x98badcfe, 0x10325476).

Definition round (M : list Z) (st : state) (i : nat) : state :=
  let '(a, b, c, d) := st in
  let '(f, g) :=
    if (i <? 16)%nat then (Z.lor (Z.land b c) (Z.land (Z.lnot b) d), i)
    else if (i <? 32)%nat then (Z.lor (Z.land d b) (Z.land (Z.lnot d) c), (5 * i + 1) mod 16)%nat
    else if (i <? 48)%nat then (Z.lxor (Z.lxor b c) d, (3 * i + 5) mod 16)%nat
    else (Z.lxor c (Z.lor b (Z.lnot d)), (7 * i) mod 16)%nat in
  let f := mask32 (mask32 f + a + K !!! i + M !!! g) in
  (d, mask32 (b + rotl f (shifts !!! i)), b, c).

Definition word_le (bs : list Z) : Z :=
  foldr (fun b acc => b + 256 * acc) 0 bs.

Fixpoint words (n : nat) (bs : list Z) : list Z :=
  match n with
  | O => []
  | S n' => word_le (take 4 bs) :: words n' (drop 4 bs)
  end.

Definition block (st : state) (bs : list Z) : state :=
  let '(a0, b0, c0, d0) := st in
  let '(a, b, c, d) := foldl (round (words 16 bs)) st (seq 0 64) in
  (mask32 (a0 + a), mask32 (b0 + b), mask32 (c0 + c), mask32 (d0 + d)).

Fixpoint blocks (n : nat) (st : state) (bs : list Z) : state :=
  match n with
  | O => st
  | S n' => blocks n' (block st (take 64 bs)) (drop 64 bs)
  end.

Definition bytes_le (n : nat) (x : Z) : list Z :=
  (fun i => Z.land (Z.shiftr x (8 * Z.of_nat i)) 0xFF) <$> seq 0 n.

Definition pad (msg : list Z) : list Z :=
  let len := length msg in
  let zeros := ((119 - len mod 64) mod 64)%nat in
  msg ++ [0x80] ++ replicate zeros 0 ++ bytes_le 8 (8 * Z.of_nat len).

Definition hex_digit (x : Z) : N :=
  if x <? 10 then Z.to_N (48 + x) else Z.to_N (87 + x).

Definition hex_byte (b : Z) : jsstring :=
  [hex_digit (Z.shiftr b 4); hex_digit (Z.land b 0xF)].

Definition digest (msg : list Z) : list Z :=
  let padded := pad msg in
  let '(a, b, c, d) := blocks (length padded / 64) init padded in
  bytes_le 4 a ++ bytes_le 4 b ++ bytes_le 4 c ++ bytes_le 4 d.

(** [createHash('md5').update(s).digest('hex')] *)
Definition hex (s : jsstring) : jsstring := digest (utf8 s) ≫= hex_byte.

End MD5.


(** ** Exceptions, the console and the effect monad

  An [async] function of the routes is a state transformer over the world
  (the file system and the server console) that either returns a value or
  throws; the effects made before a throw stay. *)

Abbreviation path := (list jsstring).
Abbreviation Buffer := (list Z).

Inductive errno := ENOENT | ENOTDIR | EISDIR | EEXIST.

Inductive exn :=
| FsError (code : errno)
| SyntaxError
| TypeError.

Inductive outcome (A : Type) :=
| Return (a : A)
| Throw (e : exn).
Arguments Return {A} a.
Arguments Throw {A} e.

(** The lines written by [console.log], [console.warn] and [console.error]. *)
Inductive console_msg :=
| ErrCreateCacheDir (err : exn)
| LogMigrating (key8 : jsstring)
| LogMigrated (key8 : jsstring)
| ErrMigrate (cacheKey : jsstring) (err : exn)
| WarnUpdateMetadata (err : exn)
| ErrDelete (audioFile : jsstring) (err : exn)
| ErrClearCache (err : exn)
| ErrCacheCheck (err : exn).

Module Fs.

Inductive node :=
| File (data : Buffer)
| Dir.

(** The tree maps the absolute, normalised path of every entry but the
    root to its node; the root is always a directory. *)
Abbreviation tree := (gmap path node).

Definition node_at (t : tree) (p : path) : option node :=
  match p with
  | [] => Some Dir
  | _ => t !! p
  end.

Definition parent (p : path) : path := removelast p.

Definition is_child_of (dir q : path) : option jsstring :=
  if bool_decide (q ≠ [] ∧ parent q = dir) then last q else None.

Definition children (t : tree) (dir : path) : list jsstring :=
  omap (is_child_of dir) (map_to_list t).*1.

(** [mkdir(p, {recursive: true})], component by component from the root:
    an existing directory is kept, a missing one is created, a file in
    the way is an error. *)
Fixpoint mkdir_from (done rest : path) (t : tree) : outcome unit * tree :=
  match rest with
  | [] => (Return (), t)
  | seg :: rest' =>
      let p := done ++ [seg] in
      match t !! p with
      | Some Dir => mkdir_from p rest' t
      | Some (File _) =>
          (Throw (FsError (match rest' with [] => EEXIST | _ => ENOTDIR end)), t)
      | None => mkdir_from p rest' (<[p := Dir]> t)
      end
  end.

End Fs.

Record world := World {
fs : gmap path Fs.node;
console : list console_msg
}.

Definition io (A : Type) : Type := world -> outcome A * world.

#[global] Instance io_ret : MRet io := fun A a w => (Return a, w).

#[global] Instance io_bind : MBind io := fun A B k m w =>
match m w with
| (Return a, w') => k a w'
| (Throw e, w') => (Throw e, w')
end.

Definition throw {A} (e : exn) : io A := fun w => (Throw e, w).

(** [try { body } catch (err) { handler }] *)
Definition try_catch {A} (body : io A) (handler : exn -> io A) : io A := fun w =>
match body w with
| (Return a, w') => (Return a, w')
| (Throw e, w') => handler e w'
end.

Definition write_console (m : console_msg) : io unit := fun w =>
(Return (), World (fs w) (console w ++ [m])).

(** The operations of [fs/promises] the routes use. *)
Definition access (p : path) : io unit := fun w =>
match Fs.node_at (fs w) p with
| Some _ => (Return (), w)
| None => (Throw (FsError ENOENT), w)
end.

Definition readFile (p : path) : io Buffer := fun w =>
match Fs.node_at (fs w) p with
| Some (Fs.File data) => (Return data, w)
| Some Fs.Dir => (Throw (FsError EISDIR), w)
| None => (Throw (FsError ENOENT), w)
end.

Definition writeFile (p : path) (data : Buffer) : io unit := fun w =>
match Fs.node_at (fs w) p with
| Some Fs.Dir => (Throw (FsError EISDIR), w)
| _ =>
    match Fs.node_at (fs w) (Fs.parent p) with
    | Some Fs.Dir => (Return (), World (<[p := Fs.File data]> (fs w)) (console w))
    | Some (Fs.File _) => (Throw (FsError ENOTDIR), w)
    | None => (Throw (FsError ENOENT), w)
    end
end.

Definition unlink (p : path) : io unit := fun w =>
match Fs.node_at (fs w) p with
| Some (Fs.File _) => (Return (), World (delete p (fs w)) (console w))
| Some Fs.Dir => (Throw (FsError EISDIR), w)
| None => (Throw (FsError ENOENT), w)
end.

Definition mkdir_recursive (p : path) : io unit := fun w =>
let '(r, t) := Fs.mkdir_from [] p (fs w) in (r, World t (console w)).

Definition readdir (p : path) : io (list jsstring) := fun w =>
match Fs.node_at (fs w) p with
| Some Fs.Dir => (Return (Fs.children (fs w) p), w)
| Some (Fs.File _) => (Throw (FsError ENOTDIR), w)
| None => (Throw (FsError ENOENT), w)
end.

(** [stat(p)]: of the result only [isDirectory()] is kept (the byte sizes the
  routes add up for their reports are not modelled). *)
Definition stat (p : path) : io bool := fun w =>
match Fs.node_at (fs w) p with
| Some (Fs.File _) => (Return false, w)
| Some Fs.Dir => (Return true, w)
| None => (Throw (FsError ENOENT), w)
end.

(** [for (const x of xs) { acc = body(x, acc) }] *)
Fixpoint for_of {A S} (xs : list A) (body : A -> S -> io S) (acc : S) : io S :=
match xs with
| [] => mret acc
| x :: xs' => acc' ← body x acc; for_of xs' body acc'
end.

(** ** [path.join] (POSIX)

  [CACHE_DIR] is kept as the list of components of its absolute form;
  [path.join(CACHE_DIR, a, b, ...)] splits the further arguments at ['/']
  and normalises: empty and ["."] components vanish, [".."] removes the
  component before it (and nothing at the root). *)
Definition push_component (stack : path) (seg : jsstring) : path :=
if bool_decide (seg = [] ∨ seg = js ".") then stack
else if bool_decide (seg = js "..") then removelast stack
else stack ++ [seg].

Definition path_join (base : path) (args : list jsstring) : path :=
foldl push_component base (args ≫= split_on 47%N).

(** The cache directory ([process.env.TTS_CACHE_DIR], or [tts-cache] under the
  working directory), resolved. *)
Class CacheDir := CACHE_DIR : path.

(** ** JSON values and the parts of the JavaScript runtime left abstract *)
#[local] Unset Elimination Schemes.
Inductive json :=
| JNull
| JBool (b : bool)
| JNum (x : float)
| JStr (s : jsstring)
| JArr (items : list json)
| JObj (fields : list (jsstring * json)).
#[local] Set Elimination Schemes.

Class JsRuntime := {
(** [JSON.parse]; [None] when it throws a [SyntaxError] *)
JSON_parse : jsstring -> option json;
(** [JSON.stringify(v, null, 2)] *)
JSON_stringify : json -> jsstring;
(** the decoder behind [readFile(p, 'utf-8')] *)
utf8_decode : Buffer -> jsstring;
(** [ToNumber] on strings, arrays and objects *)
ToNumber : json -> float
}.

(** A string operand of [!x], [x && ...] or [x || ...]: [undefined] and the
  empty string are falsy. *)
Definition truthy (x : option jsstring) : bool :=
match x with
| Some (_ :: _) => true
| _ => false
end.

Fixpoint lookup_field (name : jsstring) (fields : list (jsstring * json)) : option json :=
match fields with
| [] => None
| (n, y) :: rest => if bool_decide (n = name) then Some y else lookup_field name rest
end.

(** [obj.name] on a parsed JSON value: a [TypeError] on [null], [undefined]
  on a primitive, an array or an object without the property. *)
Definition get_property (v : json) (name : jsstring) : io (option json) :=
match v with
| JNull => throw TypeError
| JObj fields => mret (lookup_field name fields)
| _ => mret None
end.

Fixpoint set_field (name : jsstring) (x : json) (fields : list (jsstring * json))
: list (jsstring * json) :=
match fields with
| [] => [(name, x)]
| (n, y) :: rest =>
    if bool_decide (n = name) then (n, x) :: rest else (n, y) :: set_field name x rest
end.

(** [obj.name = x] in strict-mode code: a [TypeError] on [null] and on a
  primitive; on an array the new property is not an element, so it does
  not show in what [JSON.stringify] prints. *)
Definition set_property (v : json) (name : jsstring) (x : json) : io json :=
match v with
| JObj fields => mret (JObj (set_field name x fields))
| JArr items => mret (JArr items)
| _ => throw TypeError
end.

Definition to_number {runtime : JsRuntime} (v : option json) : float :=
match v with
| None => nan
| Some JNull => 0
| Some (JBool b) => if b then 1 else 0
| Some (JNum x) => x
| Some j => ToNumber j
end%float.

Definition float_of_nat (n : nat) : float :=
PrimFloat.of_uint63 (Uint63.of_Z (Z.of_nat n)).

(** [Math.round(x)]: the integer nearest to [x], a tie going up. *)
Definition Math_round (x : float) : float :=
match Prim2SF x with
| S754_finite s m e =>
    if 0 <=? e then x
    else
      let d := 2 ^ (- e) in
      let n := (2 * (if s then Z.neg m else Z.pos m) + d) / (2 * d) in
      if n =? 0 then (if s then (-0)%float else 0%float)
      else if n <? 0 then PrimFloat.opp (PrimFloat.of_uint63 (Uint63.of_Z (- n)))
      else PrimFloat.of_uint63 (Uint63.of_Z n)
| _ => x
end.

(** [readFile(p, 'utf-8')] *)
Definition readFile_utf8 {runtime : JsRuntime} (p : path) : io jsstring :=
data ← readFile p; mret (utf8_decode data).

(** [x === s] for a property value [x] and a string [s] *)
Definition strict_eq_string (x : option json) (s : jsstring) : bool :=
match x with
| Some (JStr s') => bool_decide (s' = s)
| _ => false
end.

(** ** [app/api/tts/vieneu/route.ts]: the synthesis route and the cache store *)
Module Route.
Section Route.
Context {cache_dir : CacheDir} {runtime : JsRuntime}.

(** [Partial<CacheMetadata>]: the properties [cacheAudio] reads. *)
Record PartialCacheMetadata := {
  meta_text : option jsstring;
  meta_voice : option jsstring;
  meta_bookKey : option jsstring
}.

Definition extractBookHash (bookKey : jsstring) : jsstring :=
  hd [] (split_on 45%N bookKey).

Definition generateCacheKey (text voice : jsstring) : jsstring :=
  let normalized := replace_ws_runs false (trim text) in
  let hash := MD5.hex (normalized ++ voice) in
  hash.

Definition ensureCacheDir (bookKey voice : option jsstring) : io unit :=
  try_catch
    (if truthy bookKey && truthy voice then
       let nestedDir := path_join CACHE_DIR [default [] bookKey; default [] voice] in
       mkdir_recursive nestedDir
     else
       mkdir_recursive CACHE_DIR)
    (fun err => write_console (ErrCreateCacheDir err)).

Definition getCacheFilePath (bookKey voice cacheKey : jsstring) : path :=
  path_join CACHE_DIR [bookKey; voice; cacheKey ++ js ".mp3"].

Definition getMetadataFilePath (bookKey voice cacheKey : jsstring) : path :=
  path_join CACHE_DIR [bookKey; voice; cacheKey ++ js ".meta.json"].

Definition getLegacyCacheFilePath (cacheKey : jsstring) : path :=
  path_join CACHE_DIR [cacheKey ++ js ".mp3"].

Definition getLegacyMetadataFilePath (cacheKey : jsstring) : path :=
  path_join CACHE_DIR [cacheKey ++ js ".meta.json"].

Definition migrateCacheFile (bookKey voice cacheKey : jsstring) : io unit :=
  try_catch
    (let legacyAudioPath := getLegacyCacheFilePath cacheKey in
     let legacyMetaPath := getLegacyMetadataFilePath cacheKey in
     ensureCacheDir (Some bookKey) (Some voice);;
     audioBuffer ← readFile legacyAudioPath;
     let newAudioPath := getCacheFilePath bookKey voice cacheKey in
     writeFile newAudioPath audioBuffer;;
     try_catch
       (metaBuffer ← readFile legacyMetaPath;
        let newMetaPath := getMetadataFilePath bookKey voice cacheKey in
        writeFile newMetaPath metaBuffer)
       (fun _ => mret ());;
     unlink legacyAudioPath;;
     try_catch (unlink legacyMetaPath) (fun _ => mret ());;
     write_console (LogMigrated (substring0 8 cacheKey)))
    (fun err =>
       write_console (ErrMigrate cacheKey err);;
       throw err).

Definition isCached (bookKey voice cacheKey : jsstring) : io bool :=
  let filePath := getCacheFilePath bookKey voice cacheKey in
  try_catch
    (access filePath;;
     mret true)
    (fun _ =>
       let legacyPath := getLegacyCacheFilePath cacheKey in
       try_catch
         (access legacyPath;;
          write_console (LogMigrating (substring0 8 cacheKey));;
          migrateCacheFile bookKey voice cacheKey;;
          mret true)
         (fun _ => mret false)).

Definition getCachedAudio (bookKey voice cacheKey : jsstring) : io Buffer :=
  let filePath := getCacheFilePath bookKey voice cacheKey in
  readFile filePath.

(** [created] and [lastUsed] are the two readings of the clock
    ([new Date().toISOString()]). *)
Definition cacheAudio (created lastUsed : jsstring)
    (bookKey voice cacheKey : jsstring) (audioBuffer : Buffer)
    (metadata : PartialCacheMetadata) : io unit :=
  ensureCacheDir (Some bookKey) (Some voice);;
  let filePath := getCacheFilePath bookKey voice cacheKey in
  let metaPath := getMetadataFilePath bookKey voice cacheKey in
  writeFile filePath audioBuffer;;
  let metaData := JObj (
    [ (js "text", JStr (if truthy (meta_text metadata) then default [] (meta_text metadata) else []));
      (js "voice", JStr (if truthy (meta_voice metadata) then default [] (meta_voice metadata) else []));
      (js "size", JNum (float_of_nat (length audioBuffer)));
      (js "created", JStr created);
      (js "lastUsed", JStr lastUsed);
      (js "useCount", JNum 1%float) ]
    ++ match meta_bookKey metadata with
       | Some b => [(js "bookKey", JStr b)]
       | None => []
       end) in
  writeFile metaPath (MD5.utf8 (JSON_stringify metaData)).

(** [now] is the reading of the clock. *)
Definition updateMetadata (now : jsstring) (bookKey voice cacheKey : jsstring) : io unit :=
  let metaPath := getMetadataFilePath bookKey voice cacheKey in
  try_catch
    (data ← readFile_utf8 metaPath;
     meta ← match JSON_parse data with
            | Some v => mret v
            | None => throw SyntaxError
            end;
     meta ← set_property meta (js "lastUsed") (JStr now);
     useCount ← get_property meta (js "useCount");
     meta ← set_property meta (js "useCount") (JNum (to_number useCount + 1)%float);
     writeFile metaPath (MD5.utf8 (JSON_stringify meta)))
    (fun err => write_console (WarnUpdateMetadata err)).

End Route.
End Route.

(** ** [app/api/tts/vieneu/check/route.ts]: the bulk cache check *)
Module CheckRoute.
Section CheckRoute.
Context {cache_dir : CacheDir}.

Record CheckRequest := {
  texts : option (list jsstring);   (* [None]: missing or not an array *)
  voice : option jsstring;
  bookKey : option jsstring
}.

Record CheckResult := {
  text : jsstring;
  cached : bool;
  cacheKey : jsstring
}.

Record CheckResponse := {
  results : list CheckResult;
  cachedCount : nat;
  totalCount : nat;
  cacheRate : float
}.

Inductive response :=
| Json200 (body : CheckResponse)
| Json400
| Json500 (details : exn).

Definition extractBookHash (bookKey : jsstring) : jsstring :=
  hd [] (split_on 45%N bookKey).

Definition generateCacheKey (text voice : jsstring) : jsstring :=
  let normalized := replace_ws_runs false (trim text) in
  let hash := MD5.hex (normalized ++ voice) in
  hash.

Definition getCacheFilePath (bookKey : option jsstring) (voice cacheKey : jsstring) : path :=
  if truthy bookKey then path_join CACHE_DIR [default [] bookKey; voice; cacheKey ++ js ".mp3"]
  else path_join CACHE_DIR [cacheKey ++ js ".mp3"].

Definition getLegacyCacheFilePath (cacheKey : jsstring) : path :=
  path_join CACHE_DIR [cacheKey ++ js ".mp3"].

(** The nested location first (when a book is given), then the flat one;
    nothing is moved. *)
Definition isCached (bookKey : option jsstring) (voice cacheKey : jsstring) : io bool :=
  inNested ←
    (if truthy bookKey then
       let nestedPath := getCacheFilePath bookKey voice cacheKey in
       try_catch (access nestedPath;; mret true) (fun _ => mret false)
     else mret false);
  if inNested : bool then mret true
  else
    let legacyPath := getLegacyCacheFilePath cacheKey in
    try_catch (access legacyPath;; mret true) (fun _ => mret false).

(** [Promise.all(texts.map(async (text) => ...))]: the checks only read the
    file system, so the order in which they run does not show. *)
Definition POST (body : CheckRequest) : io response :=
  try_catch
    (match texts body with
     | Some texts =>
         if truthy (voice body) then
           let voice := default [] (voice body) in
           let effectiveBookKey :=
             if truthy (bookKey body)
             then Some (extractBookHash (default [] (bookKey body))) else None in
           results ← for_of texts (fun text acc =>
             let cacheKey := generateCacheKey text voice in
             cached ← isCached effectiveBookKey voice cacheKey;
             mret (acc ++ [{| text := text; cached := cached;
                              cacheKey := substring0 12 cacheKey |}])) [];
           let cachedCount := length (List.filter cached results) in
           let totalCount := length results in
           let cacheRate :=
             if (0 <? totalCount)%nat
             then (float_of_nat cachedCount / float_of_nat totalCount)%float
             else 0%float in
           mret (Json200 {| results := results; cachedCount := cachedCount;
                            totalCount := totalCount;
                            cacheRate := (Math_round (cacheRate * 100) / 100)%float |})
         else mret Json400
     | None => mret Json400
     end)
    (fun error => write_console (ErrCacheCheck error);; mret (Json500 error)).

End CheckRoute.
End CheckRoute.

(** ** [app/api/tts/vieneu/stats/route.ts]: clearing the cache *)
Module StatsRoute.
Section StatsRoute.
Context {cache_dir : CacheDir} {runtime : JsRuntime}.

Record ClearCacheRequest := {
  bookKey : option jsstring;
  voice : option jsstring
}.

(** [deletedSizeMB], a formatted decimal, is left out. *)
Record ClearCacheResponse := {
  success : bool;
  deletedCount : nat;
  filter_bookKey : jsstring;
  filter_voice : jsstring
}.

Inductive response :=
| Json200 (body : ClearCacheResponse)
| Json500 (details : exn).

Definition getCacheFilePath (cacheKey : jsstring) : path :=
  path_join CACHE_DIR [cacheKey ++ js ".mp3"].

Definition getMetadataFilePath (cacheKey : jsstring) : path :=
  path_join CACHE_DIR [cacheKey ++ js ".meta.json"].

Definition ensureCacheDir : io unit :=
  try_catch (mkdir_recursive CACHE_DIR)
            (fun err => write_console (ErrCreateCacheDir err)).

(** The two branches that read the metadata of one audio file. *)
Definition matches_filter (bookKey voice : option jsstring) (meta : json) : io bool :=
  metaBook ← (if truthy bookKey then get_property meta (js "bookKey") else mret None);
  if truthy bookKey && strict_eq_string metaBook (default [] bookKey) then
    if negb (truthy voice) then mret true
    else
      metaVoice ← get_property meta (js "voice");
      mret (strict_eq_string metaVoice (default [] voice))
  else if truthy voice && negb (truthy bookKey) then
    metaVoice ← get_property meta (js "voice");
    mret (strict_eq_string metaVoice (default [] voice))
  else mret false.

Definition POST (body : ClearCacheRequest) : io response :=
  try_catch
    (ensureCacheDir;;
     let bookKey := bookKey body in
     let voice := voice body in
     files ← readdir CACHE_DIR;
     let audioFiles := List.filter (fun f => endsWith f (js ".mp3")) files in
     deletedCount ← for_of audioFiles (fun audioFile deletedCount =>
       let cacheKey := remove_first (js ".mp3") audioFile in
       let audioPath := path_join CACHE_DIR [audioFile] in
       let metaPath := getMetadataFilePath cacheKey in
       shouldDelete ←
         (if negb (truthy bookKey) && negb (truthy voice) then mret true
          else
            try_catch
              (metaData ← readFile_utf8 metaPath;
               meta ← match JSON_parse metaData with
                      | Some v => mret v
                      | None => throw SyntaxError
                      end;
               matches_filter bookKey voice meta)
              (fun _ => mret (negb (truthy bookKey) && negb (truthy voice))));
       if shouldDelete : bool then
         try_catch
           (stat audioPath;;
            unlink audioPath;;
            let deletedCount := S deletedCount in
            try_catch (unlink metaPath) (fun _ => mret ());;
            mret deletedCount)
           (fun err => write_console (ErrDelete audioFile err);; mret deletedCount)
       else mret deletedCount) 0%nat;
     mret (Json200 {| success := true; deletedCount := deletedCount;
                      filter_bookKey := if truthy bookKey then default [] bookKey else js "all";
                      filter_voice := if truthy voice then default [] voice else js "all" |}))
    (fun error => write_console (ErrClearCache error);; mret (Json500 error)).

End StatsRoute.
End StatsRoute.

(** ** [services/tts/PreCacheService.ts]: the pre-cache job *)
Module PreCache.

Inductive State :=
| idle | extracting | checking | synthesizing | completed | paused | failed | cancelled.

(** The texts of the status line and of the error detail. *)
Inductive Message :=
| MsgExtracting
| MsgNoText
| MsgChecking (n : nat)
| MsgAllCached
| MsgSynthesizing (n : nat)
| MsgCancelled
| MsgSynthesized (done total : nat)
| MsgPreCached (total : nat)
| MsgFailed.

Inductive ErrorDetail :=
| ErrEmptyBook
| ErrMessage (msg : jsstring).

Record PreCacheProgress := {
  state : State;
  current : nat;
  total : nat;
  percentage : float;
  message : Message;
  error : option ErrorDetail
}.

Record CheckResult := {
  text : jsstring;
  cached : bool
}.

(** What an observer of the job sees: the calls of [onProgress], the
    requests to the synthesis route leaving and settling, the half-second
    waits of a paused job and the errors written to the console. *)
Inductive event :=
| OnProgress (p : PreCacheProgress)
| SynthesizeStart (index : nat) (text : jsstring)
| SynthesizeSettle (index : nat) (ok : bool)
| ConsoleError (index : nat)
| Sleep500.

(** What the job does not decide: whether [cancel()] has been called when a
    batch is about to start, how many polls a pause lasts, which requests
    fail, and the order in which the requests of a batch settle. *)
Record Env := {
  aborted : nat -> bool;
  paused_polls : nat -> nat;
  synthesize_ok : nat -> bool;
  settle_order : list nat -> list nat
}.

(** The loop of [extractBookText] over the marks of one page. *)
Fixpoint addMarks (allTexts : list jsstring) (marks : list (option jsstring)) : list jsstring :=
  match marks with
  | [] => allTexts
  | mark :: rest =>
      let trimmedText := trim <$> mark in
      if truthy trimmedText
         && (0 <? length (default [] trimmedText))%nat
         && negb (bool_decide (default [] trimmedText ∈ allTexts))
      then addMarks (allTexts ++ [default [] trimmedText]) rest
      else addMarks allTexts rest
  end.

Definition updateProgress (state : State) (current total : nat) (message : Message)
    (error : option ErrorDetail) : event :=
  OnProgress {|
    state := state;
    current := current;
    total := total;
    percentage :=
      if (0 <? total)%nat
      then Math_round ((float_of_nat current / float_of_nat total) * 100)%float
      else 0%float;
    message := message;
    error := error |}.

Definition BATCH_SIZE : nat := 5.

(** The requests of one batch settle one at a time, in the order the
    environment picks; a fulfilled one counts and reports, a rejected one
    is logged. *)
Fixpoint settle (E : Env) (uncachedTexts : list jsstring) (totalToCache : nat)
    (order : list nat) (completed : nat) : list event * nat :=
  match order with
  | [] => ([], completed)
  | j :: rest =>
      if synthesize_ok E j then
        let completed := S completed in
        let '(tr, n) := settle E uncachedTexts totalToCache rest completed in
        (SynthesizeSettle j true
           :: updateProgress synthesizing completed totalToCache
                (MsgSynthesized completed totalToCache) None
           :: tr, n)
      else
        let '(tr, n) := settle E uncachedTexts totalToCache rest completed in
        (SynthesizeSettle j false :: ConsoleError j :: tr, n)
  end.

(** [uncachedTexts.slice(i, i + BATCH_SIZE)] *)
Definition slice (i : nat) (uncachedTexts : list jsstring) : list jsstring :=
  take BATCH_SIZE (drop i uncachedTexts).

Definition process_batch (E : Env) (uncachedTexts : list jsstring) (i completed : nat)
  : list event * nat :=
  let batch := slice i uncachedTexts in
  let indices := seq i (length batch) in
  let '(tr, n) := settle E uncachedTexts (length uncachedTexts)
                    (settle_order E indices) completed in
  (zip_with SynthesizeStart indices batch ++ tr, n).

(** [for (let i = 0; i < uncachedTexts.length; i += BATCH_SIZE)]: the result
    says whether the loop ran to its end ([true]) or returned on a
    cancellation. *)
Equations? synthesize_loop (E : Env) (uncachedTexts : list jsstring) (i completed0 : nat)
  : list event * bool by wf (length uncachedTexts - i)%nat lt :=
  synthesize_loop E uncachedTexts i completed0 with decide (i < length uncachedTexts)%nat := {
    | right _ := ([], true);
    | left _ with aborted E i := {
        | true := ([updateProgress cancelled completed0 (length uncachedTexts) MsgCancelled None],
                   false);
        | false :=
            let '(batch_events, completed') := process_batch E uncachedTexts i completed0 in
            let '(tr, finished) :=
              synthesize_loop E uncachedTexts (i + BATCH_SIZE) completed' in
            (replicate (paused_polls E i) Sleep500 ++ batch_events ++ tr, finished) } }.
Proof. unfold BATCH_SIZE. lia. Qed.

Inductive result :=
| Returned
| Rethrown (msg : jsstring).

(** [preCacheBook]: [allTexts] is what [extractBookText] gave and
    [cacheStatus] what the check route answered, [inr msg] when the call
    threw. *)
Definition preCacheBook (E : Env)
    (allTexts : list jsstring + jsstring)
    (cacheStatus : list CheckResult + jsstring) : list event * result :=
  let start := [updateProgress extracting 0 0 MsgExtracting None] in
  let fail msg :=
    ([updateProgress failed 0 0 MsgFailed (Some (ErrMessage msg))], Rethrown msg) in
  match allTexts with
  | inr msg => let '(tr, r) := fail msg in (start ++ tr, r)
  | inl allTexts =>
      if (length allTexts =? 0)%nat then
        (start ++ [updateProgress failed 0 0 MsgNoText (Some ErrEmptyBook)], Returned)
      else
        let check := [updateProgress checking 0 (length allTexts)
                        (MsgChecking (length allTexts)) None] in
        match cacheStatus with
        | inr msg => let '(tr, r) := fail msg in (start ++ check ++ tr, r)
        | inl results =>
            let uncachedTexts := text <$> List.filter (fun r => negb (cached r)) results in
            if (length uncachedTexts =? 0)%nat then
              (start ++ check
                 ++ [updateProgress completed (length allTexts) (length allTexts)
                       MsgAllCached None], Returned)
            else
              let totalToCache := length uncachedTexts in
              let '(tr, finished) := synthesize_loop E uncachedTexts 0 0 in
              (start ++ check
                 ++ [updateProgress synthesizing 0 totalToCache
                       (MsgSynthesizing totalToCache) None]
                 ++ tr
                 ++ (if finished : bool
                     then [updateProgress completed totalToCache totalToCache
                             (MsgPreCached totalToCache) None]
                     else []),
               Returned)
        end
  end.

End PreCache.


(** * Vocabulary of the statements *)

(** ** Cache keys *)

(** The text [generateCacheKey] hashes, before the voice is appended. *)
Definition normalize (text : jsstring) : jsstring :=
  replace_ws_runs false (trim text).

(** The words of a text: its maximal runs of units that are not white space.
    [cur] is the word being read, last unit first. *)
Definition flush (cur : jsstring) : list jsstring :=
  match cur with
  | [] => []
  | _ => [reverse cur]
  end.

Fixpoint words_from (cur : jsstring) (s : jsstring) : list jsstring :=
  match s with
  | [] => flush cur
  | c :: s' =>
      if is_ws c then flush cur ++ words_from [] s'
      else words_from (c :: cur) s'
  end.

Definition words (s : jsstring) : list jsstring := words_from [] s.

Fixpoint unwords (ws : list jsstring) : jsstring :=
  match ws with
  | [] => []
  | w :: rest =>
      match rest with
      | [] => w
      | _ => w ++ 32%N :: unwords rest
      end
  end.

(** One more unit of white space at the start, at the end, or next to white
    space that is already there. *)
Inductive ws_step : jsstring -> jsstring -> Prop :=
| ws_leading c t : is_ws c = true -> ws_step t (c :: t)
| ws_trailing c t : is_ws c = true -> ws_step t (t ++ [c])
| ws_run_after l d c r :
    is_ws d = true -> is_ws c = true -> ws_step (l ++ d :: r) (l ++ d :: c :: r)
| ws_run_before l c d r :
    is_ws c = true -> is_ws d = true -> ws_step (l ++ d :: r) (l ++ c :: d :: r).

(** Two texts differ only in the length of white-space runs and in leading or
    trailing white space. *)
Definition ws_variant : relation jsstring := rtsc ws_step.

Definition is_hex_digit (c : N) : Prop :=
  (48 <= c <= 57 \/ 97 <= c <= 102)%N.

(** ** The cache store *)
Section StoreVocabulary.
Context {cache_dir : CacheDir} {runtime : JsRuntime}.

(** The metadata file of an entry cannot be used: it is missing (or is a
    directory), it does not parse, or it holds [null] or a primitive. *)
Definition metadata_unreadable (w : world) (bookKey voice cacheKey : jsstring) : Prop :=
  match fs w !! Route.getMetadataFilePath bookKey voice cacheKey with
  | Some (Fs.File data) =>
      match JSON_parse (utf8_decode data) with
      | None => True
      | Some (JObj _) | Some (JArr _) => False
      | Some _ => True
      end
  | _ => True
  end.


End StoreVocabulary.

(** ** Concrete inputs *)

Definition demo_dir : CacheDir := [js "srv"; js "tts-cache"].

(** A runtime that parses the document [null] and nothing else. *)
Definition demo_runtime : JsRuntime := {|
  JSON_parse := fun s => if bool_decide (s = js "null") then Some JNull else None;
  JSON_stringify := fun _ => js "{}";
  utf8_decode := fun data => Z.to_N <$> data;
  ToNumber := fun _ => nan
|}.

Definition empty_world : world := World ∅ [].

(** A cache directory holding one entry of the flat layout, key ["k"], with
    its metadata. *)
Definition legacy_world : world :=
  World (<[ [js "srv"; js "tts-cache"; js "k.meta.json"] := Fs.File [110; 117; 108; 108] ]>
         (<[ [js "srv"; js "tts-cache"; js "k.mp3"] := Fs.File [73; 68; 51] ]>
          (<[ [js "srv"; js "tts-cache"] := Fs.Dir ]>
           (<[ [js "srv"] := Fs.Dir ]> ∅)))) [].

(** ** File-system trees *)

(** [t'] holds everything [t] holds, and the new entries are directories. *)
Definition only_adds_dirs (t t' : gmap path Fs.node) : Prop :=
  (forall p x, t !! p = Some x -> t' !! p = Some x)
  /\ (forall p x, t' !! p = Some x -> t !! p = Some x \/ x = Fs.Dir).

(** ** Effects of a computation *)

(** [m] changes the file system at the paths in [P] only. *)
Definition touches_only {A} (P : path -> Prop) (m : io A) : Prop :=
  forall w r w', m w = (r, w') -> forall p, ~ P p -> fs w' !! p = fs w !! p.

(** [m] returns in every state. *)
Definition never_throws {A} (m : io A) : Prop :=
  forall w, exists a w', m w = (Return a, w').

(** A cache key as [generateCacheKey] makes them has no ['/'] in it. *)
Definition slash_free (s : jsstring) : Prop := Forall (fun c => c ≠ 47%N) s.

(** A cache holding one entry of the nested layout, book ["B"], voice ["V"],
    key ["k"], whose metadata file is missing. *)
Definition audio_only_world : world :=
  World (<[ [js "srv"; js "tts-cache"; js "B"; js "V"; js "k.mp3"] := Fs.File [73; 68; 51] ]>
         (<[ [js "srv"; js "tts-cache"; js "B"; js "V"] := Fs.Dir ]>
          (<[ [js "srv"; js "tts-cache"; js "B"] := Fs.Dir ]>
           (<[ [js "srv"; js "tts-cache"] := Fs.Dir ]>
            (<[ [js "srv"] := Fs.Dir ]> ∅))))) [].

(** ** The pre-cache job *)

(** Every request of a batch settles, once. *)
Definition fair (E : PreCache.Env) : Prop :=
  forall l, PreCache.settle_order E l ≡ₚ l.

(** The requests among [indices] that are fulfilled. *)
Definition fulfilled (E : PreCache.Env) (indices : list nat) : nat :=
  length (filter (fun j => PreCache.synthesize_ok E j = true) indices).

Definition is_progress (e : PreCache.event) : bool :=
  match e with
  | PreCache.OnProgress _ => true
  | _ => false
  end.

(** The calls of [onProgress] in a trace. *)
Definition progress_events (tr : list PreCache.event) : list PreCache.event :=
  List.filter is_progress tr.

(** The requests a trace starts, in order. *)
Definition started (tr : list PreCache.event) : list (nat * jsstring) :=
  omap (fun e => match e with
                 | PreCache.SynthesizeStart i text => Some (i, text)
                 | _ => None
                 end) tr.

(** Requests started and not yet settled at the end of a trace. *)
Fixpoint in_flight (tr : list PreCache.event) : Z :=
  match tr with
  | [] => 0
  | PreCache.SynthesizeStart _ _ :: tr' => in_flight tr' + 1
  | PreCache.SynthesizeSettle _ _ :: tr' => in_flight tr' - 1
  | _ :: tr' => in_flight tr'
  end.

(** The percentage as the code computes it, in double precision. *)
Definition js_percentage (current total : nat) : float :=
  if (0 <? total)%nat
  then Math_round ((float_of_nat current / float_of_nat total) * 100)%float
  else 0%float.

(** The percentage as the design document writes it: [current * 100 / total]
    rounded to the nearest integer (a tie going up), 0 when [total] is 0. *)
Definition spec_percentage (current total : nat) : Z :=
  if (0 <? total)%nat
  then (2 * 100 * Z.of_nat current + Z.of_nat total) / (2 * Z.of_nat total)
  else 0.

(** An environment in which nothing is cancelled or paused, every request
    is fulfilled and the requests of a batch settle in the order they
    were made. *)
Definition calm : PreCache.Env := {|
  PreCache.aborted := fun _ => false;
  PreCache.paused_polls := fun _ => 0%nat;
  PreCache.synthesize_ok := fun _ => true;
  PreCache.settle_order := fun l => l
|}.

(** The texts of a list with their positions, counted from [i]. *)
Fixpoint numbered_from (i : nat) (l : list jsstring) : list (nat * jsstring) :=
  match l with
  | [] => []
  | text :: l' => (i, text) :: numbered_from (S i) l'
  end.

Definition is_start (e : PreCache.event) : bool :=
  match e with
  | PreCache.SynthesizeStart _ _ => true
  | _ => false
  end.

(** A call of [onProgress] carries the percentage the code computes from its
    own [current] and [total]. *)
Definition well_reported (e : PreCache.event) : Prop :=
  match e with
  | PreCache.OnProgress p =>
      PreCache.percentage p = js_percentage (PreCache.current p) (PreCache.total p)
  | _ => True
  end.

Definition seven_texts : list jsstring :=
  [js "a"; js "b"; js "c"; js "d"; js "e"; js "f"; js "g"].

(** ** Book keys and path components *)

(** No ['-'] in the string. *)
Definition dash_free (s : jsstring) : Prop := Forall (fun c => c ≠ 45%N) s.

(** A name as a directory listing gives them: not empty, without ['/'],
    and neither ["."] nor [".."]. *)
Definition plain (s : jsstring) : Prop :=
  s ≠ [] /\ slash_free s /\ s ≠ js "." /\ s ≠ js "..".

(** A tree as a file system holds it: every entry has a plain name and
    lies in a directory. *)
Definition well_formed (t : Fs.tree) : Prop :=
  forall d name, is_Some (t !! (d ++ [name])) ->
    plain name /\ Fs.node_at t d = Some Fs.Dir.

(** None of the components of [s], split at ['/'], is [".."]. *)
Definition no_dotdot (s : jsstring) : Prop := js ".." ∉ split_on 47%N s.

(** The components [path.join] keeps of its arguments. *)
Definition kept_components (args : list jsstring) : list jsstring :=
  List.filter (fun seg => negb (bool_decide (seg = [] ∨ seg = js ".")))
              (args ≫= split_on 47%N).

(** A text as [extractBookText] keeps them: trimmed and not empty. *)
Definition is_chunk (t : jsstring) : Prop := t ≠ [] /\ trim t = t.

(** A word: not empty and without white space. *)
Definition is_word (w : jsstring) : Prop :=
  w ≠ [] /\ Forall (fun c => is_ws c = false) w.

(** ** The request handlers

    A handler works on the file system and writes to the server console;
    what it throws is an [Error] with a message.  The lines of the store
    functions appear in the server log in the order they are written,
    between the lines of the handler itself. *)

(** [s.includes(pat)] *)
Fixpoint includes (pat s : jsstring) : bool :=
  match s with
  | [] => bool_decide (pat = [])
  | _ :: s' => bool_decide (take (length pat) s = pat) || includes pat s'
  end.

(** The decimal digits of a number, as a template literal prints it. *)
Fixpoint decimal_digits (fuel : nat) (n : N) (acc : jsstring) : jsstring :=
  match fuel with
  | O => acc
  | S fuel' =>
      let acc' := (48 + n mod 10)%N :: acc in
      if (n <? 10)%N then acc' else decimal_digits fuel' (n / 10)%N acc'
  end.

Definition decimal (n : nat) : jsstring := decimal_digits (S n) (N.of_nat n) [].

Inductive log_line :=
| StoreLine (m : console_msg)
| LogCacheHit (key8 bookKey voice : jsstring)
| LogCacheMiss (key8 bookKey voice : jsstring)
| LogCachedTo (filePath : path)
| ErrApi (message : jsstring)
| WarnVoiceDir (voicePath : path) (message : jsstring)
| ErrBookStatus (message : jsstring).

Record server := Server {
  srv_fs : gmap path Fs.node;
  srv_log : list log_line
}.

Definition handler (A : Type) : Type := server -> (A + jsstring) * server.

#[global] Instance handler_ret : MRet handler := fun A a s => (inl a, s).

#[global] Instance handler_bind : MBind handler := fun A B k m s =>
  match m s with
  | (inl a, s') => k a s'
  | (inr message, s') => (inr message, s')
  end.

(** [throw new Error(message)] *)
Definition raise {A} (message : jsstring) : handler A := fun s => (inr message, s).

Definition write_log (l : log_line) : handler unit := fun s =>
  (inl (), Server (srv_fs s) (srv_log s ++ [l])).

(** A store function called from a handler: its console lines go to the
    server log, and an error it throws has the message [message_of] gives
    it. *)
Definition call_store {A} (message_of : exn -> jsstring) (m : io A) : handler A := fun s =>
  let '(r, w) := m (World (srv_fs s) []) in
  (match r with
   | Return a => inl a
   | Throw e => inr (message_of e)
   end,
   Server (fs w) (srv_log s ++ (StoreLine <$> console w))).

(** [try { body } catch (error) { handler }] inside a handler. *)
Definition try_handler {A} (body : handler A) (on_error : jsstring -> handler A)
  : handler A := fun s =>
  match body s with
  | (inl a, s') => (inl a, s')
  | (inr message, s') => on_error message s'
  end.

(** [for (const x of xs) { acc = body(x, acc) }] in a handler. *)
Fixpoint for_each {A S} (xs : list A) (body : A -> S -> handler S) (acc : S) : handler S :=
  match xs with
  | [] => mret acc
  | x :: xs' => acc' ← body x acc; for_each xs' body acc'
  end.

(** What [stat] reports of an entry beyond its kind: the size of a file is
    the length of its content; the size of a directory and the times of
    modification are not in the tree. *)
Class FsStats := {
  dir_size : path -> float;
  mtimeMs : path -> float
}.

Record Stats := {
  isDirectory : bool;
  size : float;
  stats_mtimeMs : float
}.

Definition stat_full {fs_stats : FsStats} (p : path) : io Stats := fun w =>
  match Fs.node_at (fs w) p with
  | Some (Fs.File data) =>
      (Return {| isDirectory := false; size := float_of_nat (length data);
                 stats_mtimeMs := mtimeMs p |}, w)
  | Some Fs.Dir =>
      (Return {| isDirectory := true; size := dir_size p; stats_mtimeMs := mtimeMs p |}, w)
  | None => (Throw (FsError ENOENT), w)
  end.

(** [Math.max(a, b)]: [NaN] when an argument is; of the two zeros the
    positive one is the larger. *)
Definition Math_max (a b : float) : float :=
  if PrimFloat.is_nan a || PrimFloat.is_nan b then nan
  else if (a <? b)%float then b
  else if (b <? a)%float then a
  else if PrimFloat.is_zero a && PrimFloat.get_sign a then b
  else a.

(** [try { body } catch (error) { ... return response }] around a whole
    handler. *)
Definition catch_all {A} (body : handler A) (on_error : jsstring -> server -> A * server)
  : server -> A * server := fun s =>
  match body s with
  | (inl a, s') => (a, s')
  | (inr message, s') => on_error message s'
  end.

(** The server of VieNeu-TTS ([process.env.VIENEU_TTS_URL], or
    [http://localhost:7860]). *)
Class VieneuServer := VIENEU_SERVER : jsstring.

(** ** [app/api/tts/vieneu/route.ts]: [POST], synthesis with the cache *)
Module SynthesisRoute.

(** The request body as the interface [SynthesisRequest] types it; a
    property that is missing is [None]. *)
Record SynthesisRequest := {
  text : option jsstring;
  voice : option jsstring;
  bookKey : option jsstring
}.

Record Request := {
  (** what [request.json()] resolves to; or the message of the error of
      reading the body: [request.json()] rejects, or the document is
      [null] and has no properties to take *)
  json_body : SynthesisRequest + jsstring;
  (** [request.headers.get('X-VieNeu-API-Key')] *)
  api_key_header : option jsstring
}.

(** The request [synthesizeAudio] sends: a POST of the JSON document with
    [text], [voice] and [mode: 'standard']. *)
Record FetchCall := {
  url : jsstring;
  x_api_key : option jsstring;    (* the header [X-API-Key], when there is one *)
  fetch_text : jsstring;
  fetch_voice : jsstring
}.

Record Response := {
  status : nat;
  statusText : jsstring;
  (** [response.text()]; [None] when it rejects *)
  response_text : option jsstring;
  (** [response.arrayBuffer()], or the message of the error it rejects with *)
  response_arrayBuffer : Buffer + jsstring
}.

(** [response.ok] *)
Definition ok (r : Response) : bool := (200 <=? status r)%nat && (status r <=? 299)%nat.

Inductive fetch_result :=
| Rejected (message : jsstring)
| Responded (response : Response).

(** What one request does not decide: the answer of the VieNeu-TTS server,
    the readings of the clock, and the messages of the errors of the file
    system. *)
Record Outside := {
  fetch : FetchCall -> fetch_result;
  created : jsstring;
  lastUsed : jsstring;
  message_of : exn -> jsstring
}.

Inductive cache_status := HIT | MISS.

(** The responses: the audio with its headers [X-Cache-Status] and
    [X-Cache-Key] (a hit has [Cache-Control] too), or a JSON document with
    its status. *)
Inductive response :=
| Audio (cacheStatus : cache_status) (cacheKey : jsstring) (audioBuffer : Buffer)
| Json400
| Json503 (details serverUrl : jsstring)
| Json500 (details : jsstring).

(** [bookKey ? extractBookHash(bookKey) : '_default'] *)
Definition effectiveBookKey (bookKey : option jsstring) : jsstring :=
  if truthy bookKey then Route.extractBookHash (default [] bookKey) else js "_default".

Section SynthesisRoute.
Context {cache_dir : CacheDir} {runtime : JsRuntime} {vieneu : VieneuServer}.
Variable outside : Outside.

Definition synthesizeAudio (text voice : jsstring) (apiKey : option jsstring) : handler Buffer :=
  let call := {| url := VIENEU_SERVER ++ js "/api/synthesize";
                 x_api_key := if truthy apiKey then apiKey else None;
                 fetch_text := text;
                 fetch_voice := voice |} in
  match fetch outside call with
  | Rejected message => raise message
  | Responded response =>
      if negb (ok response) then
        let errorText := default (js "Unknown error") (response_text response) in
        raise (js "VieNeu-TTS synthesis failed: " ++ decimal (status response)
               ++ js " " ++ statusText response ++ js " - " ++ errorText)
      else
        match response_arrayBuffer response with
        | inl arrayBuffer => mret arrayBuffer
        | inr message => raise message
        end
  end.

(** The [catch] of [POST]: the error is logged; when its message holds
    ["fetch failed"] the answer is 503, and 500 otherwise. *)
Definition error_response (message : jsstring) : response :=
  if includes (js "fetch failed") message then
    Json503 (js "Cannot connect to " ++ VIENEU_SERVER
             ++ js ". Please ensure VieNeu-TTS server is running.") VIENEU_SERVER
  else Json500 message.

Definition on_error (message : jsstring) (s : server) : response * server :=
  (error_response message, Server (srv_fs s) (srv_log s ++ [ErrApi message])).

Definition POST (request : Request) : server -> response * server :=
  catch_all
    (body ← match json_body request with
            | inl body => mret body
            | inr message => raise message
            end;
     let apiKey := api_key_header request in
     if negb (truthy (text body)) || negb (truthy (voice body)) then mret Json400
     else
       let text := default [] (text body) in
       let voice := default [] (voice body) in
       let effectiveBookKey := effectiveBookKey (bookKey body) in
       let cacheKey := Route.generateCacheKey text voice in
       cached ← call_store (message_of outside)
                  (Route.isCached effectiveBookKey voice cacheKey);
       if cached : bool then
         write_log (LogCacheHit (substring0 8 cacheKey) effectiveBookKey voice);;
         call_store (message_of outside)
           (Route.updateMetadata (lastUsed outside) effectiveBookKey voice cacheKey);;
         audioBuffer ← call_store (message_of outside)
                         (Route.getCachedAudio effectiveBookKey voice cacheKey);
         mret (Audio HIT cacheKey audioBuffer)
       else
         write_log (LogCacheMiss (substring0 8 cacheKey) effectiveBookKey voice);;
         audioBuffer ← synthesizeAudio text voice (if truthy apiKey then apiKey else None);
         call_store (message_of outside)
           (Route.cacheAudio (created outside) (lastUsed outside)
              effectiveBookKey voice cacheKey audioBuffer
              {| Route.meta_text := Some text; Route.meta_voice := Some voice;
                 Route.meta_bookKey := Some effectiveBookKey |});;
         write_log (LogCachedTo (Route.getCacheFilePath effectiveBookKey voice cacheKey));;
         mret (Audio MISS cacheKey audioBuffer))
    on_error.

End SynthesisRoute.
End SynthesisRoute.

(** ** [app/api/tts/vieneu/book-status/route.ts]: the cache of one book *)
Module BookStatusRoute.

(** A property that the response does not have is [None]; [voice] is the
    parameter as it came, [null] when it was not given. *)
Record BookStatusResponse := {
  bookKey : jsstring;
  voice : option (option jsstring);
  cachedCount : nat;
  totalSize : float;
  lastUpdated : float;
  voices : option (list jsstring)
}.

Inductive response :=
| Json200 (body : BookStatusResponse)
| Json400
| Json500 (details : jsstring).

Definition extractBookHash (bookKey : jsstring) : jsstring :=
  hd [] (split_on 45%N bookKey).

(** The variables of the loop over the voices. *)
Record Totals := {
  acc_voices : list jsstring;
  totalCachedCount : nat;
  acc_totalSize : float;
  acc_lastUpdated : float
}.

Section BookStatusRoute.
Context {cache_dir : CacheDir} {fs_stats : FsStats}.
Variable message_of : exn -> jsstring.

(** The loop over the audio files of one voice. *)
Definition add_file (dir : path) (file : jsstring) (acc : float * float)
  : handler (float * float) :=
  let '(totalSize, lastUpdated) := acc in
  let filePath := path_join dir [file] in
  stats ← call_store message_of (stat_full filePath);
  mret ((totalSize + size stats)%float, Math_max lastUpdated (stats_mtimeMs stats)).

(** The same loop inside the [try] of the loop over the voices: what was
    added before a [stat] throws stays in the totals.  The result says
    whether the loop threw, and with which message. *)
Fixpoint add_files_until_error (dir : path) (files : list jsstring) (acc : float * float)
  : handler (float * float * option jsstring) :=
  match files with
  | [] => mret (acc, None)
  | file :: rest =>
      r ← try_handler (acc' ← add_file dir file acc; mret (inl acc'))
                      (fun message => mret (inr message));
      match r with
      | inl acc' => add_files_until_error dir rest acc'
      | inr message => mret (acc, Some message)
      end
  end.

Definition GET (bookKey voice : option jsstring) : server -> response * server :=
  catch_all
    (if negb (truthy bookKey) then mret Json400
     else
       let bookKey := default [] bookKey in
       let effectiveBookKey := extractBookHash bookKey in
       let bookCacheDir := path_join CACHE_DIR [effectiveBookKey] in
       found ← try_handler (call_store message_of (access bookCacheDir);; mret true)
                           (fun _ => mret false);
       if negb found then
         mret (Json200 {| bookKey := bookKey; voice := Some voice; cachedCount := 0;
                          totalSize := 0; lastUpdated := 0; voices := Some [] |})
       else if truthy voice then
         let voiceCacheDir := path_join bookCacheDir [default [] voice] in
         try_handler
           (call_store message_of (access voiceCacheDir);;
            files ← call_store message_of (readdir voiceCacheDir);
            let mp3Files := List.filter (fun f => endsWith f (js ".mp3")) files in
            '(totalSize, lastUpdated) ←
               for_each mp3Files (add_file voiceCacheDir) (0%float, 0%float);
            mret (Json200 {| bookKey := bookKey; voice := Some voice;
                             cachedCount := length mp3Files;
                             totalSize := totalSize; lastUpdated := lastUpdated;
                             voices := None |}))
           (fun _ =>
              mret (Json200 {| bookKey := bookKey; voice := Some voice; cachedCount := 0;
                               totalSize := 0; lastUpdated := 0; voices := None |}))
       else
         voiceDirs ← call_store message_of (readdir bookCacheDir);
         totals ← for_each voiceDirs (fun voiceDir totals =>
           let voicePath := path_join bookCacheDir [voiceDir] in
           stats ← call_store message_of (stat_full voicePath);
           if negb (isDirectory stats) then mret totals
           else
             listing ← try_handler
                         (files ← call_store message_of (readdir voicePath); mret (inl files))
                         (fun err => mret (inr err));
             match listing with
             | inr err => write_log (WarnVoiceDir voicePath err);; mret totals
             | inl files =>
                 let mp3Files := List.filter (fun f => endsWith f (js ".mp3")) files in
                 if (0 <? length mp3Files)%nat then
                   let voices := acc_voices totals ++ [voiceDir] in
                   let totalCachedCount := (totalCachedCount totals + length mp3Files)%nat in
                   '(sizes, thrown) ←
                      add_files_until_error voicePath mp3Files
                        (acc_totalSize totals, acc_lastUpdated totals);
                   match thrown with
                   | Some err => write_log (WarnVoiceDir voicePath err)
                   | None => mret ()
                   end;;
                   mret {| acc_voices := voices; totalCachedCount := totalCachedCount;
                           acc_totalSize := fst sizes; acc_lastUpdated := snd sizes |}
                 else mret totals
             end)
           {| acc_voices := []; totalCachedCount := 0;
              acc_totalSize := 0; acc_lastUpdated := 0 |};
         mret (Json200 {| bookKey := bookKey; voice := None;
                          cachedCount := totalCachedCount totals;
                          totalSize := acc_totalSize totals;
                          lastUpdated := acc_lastUpdated totals;
                          voices := Some (acc_voices totals) |}))
    (fun message s =>
       (Json500 message, Server (srv_fs s) (srv_log s ++ [ErrBookStatus message]))).

End BookStatusRoute.
End BookStatusRoute.

(** [h] leaves the file system as it is. *)
Definition reads_only {A} (h : handler A) : Prop :=
  forall s, srv_fs (snd (h s)) = srv_fs s.

(** The [cachedCount] of a response, [0] for a response without. *)
Definition reported_count (r : BookStatusRoute.response) : nat :=
  match r with
  | BookStatusRoute.Json200 body => BookStatusRoute.cachedCount body
  | _ => 0
  end.

Definition is_mp3 (f : jsstring) : bool := endsWith f (js ".mp3").

Definition is_meta_json (f : jsstring) : bool := endsWith f (js ".meta.json").

Definition is_regular_file (t : Fs.tree) (p : path) : bool :=
  match t !! p with
  | Some (Fs.File _) => true
  | _ => false
  end.

(** ** More concrete inputs *)

(** A runtime that reads every document as the object [{useCount: 1}]. *)
Definition counting_runtime : JsRuntime := {|
  JSON_parse := fun _ => Some (JObj [(js "useCount", JNum 1%float)]);
  JSON_stringify := fun _ => js "{}";
  utf8_decode := fun data => Z.to_N <$> data;
  ToNumber := fun _ => nan
|}.

(** A cache holding one entry of the nested layout, book ["B"], voice ["V"],
    key ["k"], with its metadata file. *)
Definition entry_world : world :=
  World (<[ [js "srv"; js "tts-cache"; js "B"; js "V"; js "k.meta.json"] := Fs.File [123; 125] ]>
           (fs audio_only_world)) [].

(** ** The bulk check *)

(** What the check route looks for: the entry under the book, when a book
    is given, or the entry of the flat layout. *)
Definition check_finds {cache_dir : CacheDir} (w : world)
    (bookKey : option jsstring) (voice cacheKey : jsstring) : Prop :=
  (truthy bookKey = true
   /\ is_Some (fs w !! CheckRoute.getCacheFilePath bookKey voice cacheKey))
  \/ is_Some (fs w !! CheckRoute.getLegacyCacheFilePath cacheKey).

(** ** The synthesis route *)

(** Two request bodies ask for the same entry: the same voice, the same
    book after [extractBookHash], and texts that differ in white space
    only. *)
Definition same_entry (body1 body2 : SynthesisRoute.SynthesisRequest) : Prop :=
  SynthesisRoute.voice body1 = SynthesisRoute.voice body2
  /\ SynthesisRoute.effectiveBookKey (SynthesisRoute.bookKey body1)
     = SynthesisRoute.effectiveBookKey (SynthesisRoute.bookKey body2)
  /\ truthy (SynthesisRoute.text body2) = true
  /\ ws_variant (default [] (SynthesisRoute.text body1)) (default [] (SynthesisRoute.text body2)).

(** The request [synthesizeAudio] sends for a text. *)
Definition synthesis_call {vieneu : VieneuServer} (request : SynthesisRoute.Request)
    (text voice : jsstring) : SynthesisRoute.FetchCall :=
  {| SynthesisRoute.url := VIENEU_SERVER ++ js "/api/synthesize";
     SynthesisRoute.x_api_key :=
       if truthy (SynthesisRoute.api_key_header request)
       then SynthesisRoute.api_key_header request else None;
     SynthesisRoute.fetch_text := text;
     SynthesisRoute.fetch_voice := voice |}.

(** The message of the error [synthesizeAudio] throws for a response that
    is not [ok]. *)
Definition synthesis_failed (response : SynthesisRoute.Response) : jsstring :=
  js "VieNeu-TTS synthesis failed: " ++ decimal (SynthesisRoute.status response)
  ++ js " " ++ SynthesisRoute.statusText response ++ js " - "
  ++ default (js "Unknown error") (SynthesisRoute.response_text response).

Definition demo_server : VieneuServer := js "http://localhost:7860".

(** A VieNeu-TTS server that answers every request with three bytes of
    audio, and one that cannot be reached. *)
Definition demo_outside : SynthesisRoute.Outside := {|
  SynthesisRoute.fetch := fun _ =>
    SynthesisRoute.Responded
      {| SynthesisRoute.status := 200; SynthesisRoute.statusText := js "OK";
         SynthesisRoute.response_text := None;
         SynthesisRoute.response_arrayBuffer := inl [73; 68; 51] |};
  SynthesisRoute.created := js "2024-01-01T00:00:00.000Z";
  SynthesisRoute.lastUsed := js "2024-01-01T00:00:00.001Z";
  SynthesisRoute.message_of := fun _ => js "ENOENT: no such file or directory"
|}.

Definition down_outside : SynthesisRoute.Outside := {|
  SynthesisRoute.fetch := fun _ => SynthesisRoute.Rejected (js "fetch failed");
  SynthesisRoute.created := js "2024-01-02T00:00:00.000Z";
  SynthesisRoute.lastUsed := js "2024-01-02T00:00:00.001Z";
  SynthesisRoute.message_of := fun _ => js "ENOENT: no such file or directory"
|}.

Definition empty_server : server := Server ∅ [].

(** A request for the text [text] in the voice ["V"], for a book or
    without one. *)
Definition demo_request (text : jsstring) (bookKey : option jsstring)
  : SynthesisRoute.Request :=
  {| SynthesisRoute.json_body :=
       inl {| SynthesisRoute.text := Some text;
              SynthesisRoute.voice := Some (js "V");
              SynthesisRoute.bookKey := bookKey |};
     SynthesisRoute.api_key_header := None |}.


(** The state of the server after the first request for ["Hello"] in the
    book ["B"], and the store after the same audio was cached without a
    book. *)
Definition server_after_hello : server :=
  snd (SynthesisRoute.POST (cache_dir := demo_dir) (runtime := demo_runtime)
         (vieneu := demo_server) demo_outside
         (demo_request (js "Hello") (Some (js "B-1"))) empty_server).

Definition world_after_default_hello : world :=
  snd (Route.cacheAudio (cache_dir := demo_dir) (runtime := demo_runtime)
         (js "2024-01-01T00:00:00.000Z") (js "2024-01-01T00:00:00.000Z")
         (js "_default") (js "V") (Route.generateCacheKey (js "Hello") (js "V")) [73; 68; 51]
         {| Route.meta_text := Some (js "Hello"); Route.meta_voice := Some (js "V");
            Route.meta_bookKey := Some (js "_default") |} empty_world).

(** A file system whose directories all have the size of one block, and
    whose entries were all changed at the same time. *)
Definition demo_stats : FsStats := {|
  dir_size := fun _ => 4096%float;
  mtimeMs := fun _ => 1704067200000%float
|}.

Definition demo_message (e : exn) : jsstring :=
  match e with
  | FsError ENOTDIR => js "ENOTDIR: not a directory"
  | _ => js "ENOENT: no such file or directory"
  end.

(** A cache directory in which a regular file has the name of the book
    ["B"]. *)
Definition book_is_a_file : server :=
  Server (<[ [js "srv"; js "tts-cache"; js "B"] := Fs.File [] ]>
          (<[ [js "srv"; js "tts-cache"] := Fs.Dir ]>
           (<[ [js "srv"] := Fs.Dir ]> ∅))) [].

(** ** The reports of a job *)




Definition cancelled_at_5 : PreCache.Env := {|
  PreCache.aborted := fun i => (5 <=? i)%nat;
  PreCache.paused_polls := fun _ => 0%nat;
  PreCache.synthesize_ok := fun _ => true;
  PreCache.settle_order := fun l => l
|}.


(** ** [store/preCacheStore.ts]: the progress of the jobs, by book *)
Module PreCacheStore.

Record BookCacheStatus := {
  bookKey : jsstring;
  cachedCount : float;
  totalCount : float;
  percentage : float;
  lastUpdated : float
}.

(** A [Map] with strings for keys: its entries in the order of insertion. *)
Definition Map (V : Type) : Type := list (jsstring * V).

(** [m.get(key)] *)
Fixpoint Map_get {V} (key : jsstring) (m : Map V) : option V :=
  match m with
  | [] => None
  | (k, v) :: rest => if bool_decide (k = key) then Some v else Map_get key rest
  end.

(** [m.set(key, value)]: a key that is there keeps its place. *)
Fixpoint Map_set {V} (key : jsstring) (value : V) (m : Map V) : Map V :=
  match m with
  | [] => [(key, value)]
  | (k, v) :: rest =>
      if bool_decide (k = key) then (k, value) :: rest else (k, v) :: Map_set key value rest
  end.

(** [m.delete(key)] *)
Fixpoint Map_delete {V} (key : jsstring) (m : Map V) : Map V :=
  match m with
  | [] => []
  | (k, v) :: rest =>
      if bool_decide (k = key) then rest else (k, v) :: Map_delete key rest
  end.

Record PreCacheState := {
  activePreCaches : Map PreCache.PreCacheProgress;
  bookCacheStatuses : Map BookCacheStatus;
  openDialogBookKey : option jsstring
}.

Definition initial : PreCacheState :=
  {| activePreCaches := []; bookCacheStatuses := []; openDialogBookKey := None |}.

Definition setPreCacheProgress (bookKey : jsstring) (progress : PreCache.PreCacheProgress)
    (state : PreCacheState) : PreCacheState :=
  let newMap := Map_set bookKey progress (activePreCaches state) in
  {| activePreCaches := newMap;
     bookCacheStatuses := bookCacheStatuses state;
     openDialogBookKey := openDialogBookKey state |}.

Definition removePreCacheProgress (bookKey : jsstring) (state : PreCacheState)
  : PreCacheState :=
  let newMap := Map_delete bookKey (activePreCaches state) in
  {| activePreCaches := newMap;
     bookCacheStatuses := bookCacheStatuses state;
     openDialogBookKey := openDialogBookKey state |}.

Definition getPreCacheProgress (bookKey : jsstring) (state : PreCacheState)
  : option PreCache.PreCacheProgress :=
  Map_get bookKey (activePreCaches state).

Definition setBookCacheStatus (bookKey : jsstring) (status : BookCacheStatus)
    (state : PreCacheState) : PreCacheState :=
  let newMap := Map_set bookKey status (bookCacheStatuses state) in
  {| activePreCaches := activePreCaches state;
     bookCacheStatuses := newMap;
     openDialogBookKey := openDialogBookKey state |}.

Definition getBookCacheStatus (bookKey : jsstring) (state : PreCacheState)
  : option BookCacheStatus :=
  Map_get bookKey (bookCacheStatuses state).

Definition setOpenDialog (bookKey : option jsstring) (state : PreCacheState)
  : PreCacheState :=
  {| activePreCaches := activePreCaches state;
     bookCacheStatuses := bookCacheStatuses state;
     openDialogBookKey := bookKey |}.

Definition isDialogOpen (bookKey : jsstring) (state : PreCacheState) : bool :=
  bool_decide (openDialogBookKey state = Some bookKey).

End PreCacheStore.

(** ** [PreCacheToast.tsx] and [PreCacheDialog.tsx]: the jobs in the store *)
Module PreCacheToast.


End PreCacheToast.

Module PreCacheDialog.


End PreCacheDialog.


(** ** [PreCacheService.extractBookText]: the texts of a book

    The view is the environment: what [view.tts.start()] and
    [parseSSMLMarks] give for the page it shows, and how its calls end.
    The result is the list of the calls made on the view, with the waits
    between them, and the texts or the message of the error thrown.  The
    lines written to the console are left out, and with them whether
    [view.goTo(currentLocation)] throws: its error is caught and logged. *)
Module Extract.

(** The page the view shows: [view.tts.start()] or the parser throws, the
    SSML is empty, or the marks have these texts ([None] for a mark
    without). *)
Inductive page :=
| StartThrows (err : jsstring)
| NoSsml
| Marks (marks : list (option jsstring)).

(** [view.next()]: it throws, it resolves to a falsy value, or the view
    shows the next page. *)
Inductive next_result :=
| NextThrows (err : jsstring)
| NextEnd
| NextPage (p : page).

Inductive view_call :=
| InitTTS
| GetCFI
| GoToStart
| Wait (ms : nat)
| TtsStart
| Next
| GoTo (cfi : jsstring).

Record View := {
  (** [view.tts] is set *)
  has_tts : bool;
  (** the error of [view.initTTS('sentence')], if it throws *)
  initTTS : option jsstring;
  (** the location [view.getCFI()] resolves to ([None] for [null]), or its
      error *)
  getCFI : option jsstring + jsstring;
  (** [view.book?.sections?.length || 0] *)
  sections : nat;
  (** the error of [view.goTo(0)], if it throws *)
  goToStart : option jsstring;
  first_page : page;
  (** the [n]-th call of [view.next()], from 1 *)
  next : nat -> next_result
}.

Definition MAX_PAGES : nat := 1000.

(** [while (pageCount < MAX_PAGES)]: [fuel] is [MAX_PAGES - pageCount]. *)
Fixpoint pages_loop (view : View) (fuel pageCount : nat) (allTexts : list jsstring)
  : list view_call * list jsstring :=
  match fuel with
  | 0%nat => ([], allTexts)
  | S fuel' =>
      let pageCount := S pageCount in
      match next view pageCount with
      | NextThrows _ => ([Next], allTexts)
      | NextEnd => ([Next], allTexts)
      | NextPage (StartThrows _) => ([Next; Wait 400; TtsStart], allTexts)
      | NextPage NoSsml =>
          let '(calls, texts) := pages_loop view fuel' pageCount allTexts in
          (Next :: Wait 400 :: TtsStart :: calls, texts)
      | NextPage (Marks marks) =>
          let '(calls, texts) :=
            pages_loop view fuel' pageCount (PreCache.addMarks allTexts marks) in
          (Next :: Wait 400 :: TtsStart :: calls, texts)
      end
  end.

Definition extractBookText (view : View) : list view_call * (list jsstring + jsstring) :=
  let failed (message : jsstring) : list jsstring + jsstring :=
    inr (js "Text extraction failed: " ++ message) in
  let init := if has_tts view then [] else [InitTTS] in
  if negb (has_tts view) && bool_decide (is_Some (initTTS view)) then
    (init, failed (js "Cannot initialize TTS for text extraction"))
  else
    let currentLocation :=
      match getCFI view with
      | inl location => location
      | inr _ => None
      end in
    if (sections view =? 0)%nat then
      (init ++ [GetCFI], failed (js "No sections found in book"))
    else
      match goToStart view with
      | Some err => (init ++ [GetCFI; GoToStart], failed err)
      | None =>
          let allTexts :=
            match first_page view with
            | Marks marks => PreCache.addMarks [] marks
            | _ => []
            end in
          let '(calls, allTexts) := pages_loop view MAX_PAGES 0 allTexts in
          (init ++ [GetCFI; GoToStart; Wait 800; TtsStart] ++ calls
             ++ (if truthy currentLocation then [GoTo (default [] currentLocation)] else []),
           inl allTexts)
      end.

End Extract.

(** The view [view] with other answers to [view.next()]. *)
Definition with_next (view : Extract.View) (next : nat -> Extract.next_result)
  : Extract.View :=
  {| Extract.has_tts := Extract.has_tts view;
     Extract.initTTS := Extract.initTTS view;
     Extract.getCFI := Extract.getCFI view;
     Extract.sections := Extract.sections view;
     Extract.goToStart := Extract.goToStart view;
     Extract.first_page := Extract.first_page view;
     Extract.next := next |}.

(** The view whose book ends at the [k]-th call of [view.next()]. *)
Definition ends_at (k : nat) (view : Extract.View) : Extract.View :=
  with_next view (fun n => if (n =? k)%nat then Extract.NextEnd else Extract.next view n).

(** A book of three pages, on the second of which [view.tts.start()]
    throws. *)
Definition torn_book : Extract.View :=
  {| Extract.has_tts := false;
     Extract.initTTS := None;
     Extract.getCFI := inl (Some (js "epubcfi(/6/4)"));
     Extract.sections := 3;
     Extract.goToStart := None;
     Extract.first_page := Extract.Marks [Some (js " One. "); Some (js "Two.")];
     Extract.next := fun n =>
       match n with
       | 1%nat => Extract.NextPage (Extract.StartThrows (js "no document"))
       | 2%nat => Extract.NextPage (Extract.Marks [Some (js "Three.")])
       | _ => Extract.NextEnd
       end |}.


(** * Statements and proofs *)

(** * Cache keys *)

Section Normalisation.

Implicit Types (s t cur : jsstring) (c d : N).

Lemma flush_nonempty cur : cur ≠ [] -> flush cur = [reverse cur].
Proof. destruct cur; [congruence | reflexivity]. Qed.

Lemma words_from_nonempty s : forall cur, cur ≠ [] -> words_from cur s ≠ [].
Proof.
  induction s as [|c s IH]; intros cur Hcur; simpl.
  - rewrite flush_nonempty by assumption. discriminate.
  - destruct (is_ws c).
    + rewrite flush_nonempty by assumption. discriminate.
    + apply IH. discriminate.
Qed.

Lemma trimEnd_cons_inv c s :
  trimEnd (c :: s) = c :: s -> trimEnd s = s /\ (is_ws c = true -> s ≠ []).
Proof.
  simpl. destruct (trimEnd s) as [|x t] eqn:E.
  - destruct (is_ws c); [discriminate |].
    intros [= <-]. split; [reflexivity | discriminate].
  - intros [= <-]. split; [reflexivity | discriminate].
Qed.

Lemma trimEnd_nil_words s :
  trimEnd s = [] -> forall cur, words_from cur s = flush cur.
Proof.
  induction s as [|c s IH]; intros H cur; [reflexivity |].
  simpl in H. destruct (trimEnd s) eqn:E; [| discriminate].
  destruct (is_ws c) eqn:Hc; [| discriminate].
  simpl. rewrite Hc, (IH eq_refl). simpl. apply app_nil_r.
Qed.

Lemma words_trimStart s : words_from [] (trimStart s) = words_from [] s.
Proof.
  induction s as [|c s IH]; [reflexivity |].
  simpl. destruct (is_ws c) eqn:Hc; [exact IH |].
  simpl. rewrite Hc. reflexivity.
Qed.

Lemma words_trimEnd s : forall cur, words_from cur (trimEnd s) = words_from cur s.
Proof.
  induction s as [|c s IH]; intros cur; [reflexivity |].
  simpl. destruct (trimEnd s) as [|x t] eqn:E.
  - destruct (is_ws c) eqn:Hc; simpl; rewrite ?Hc.
    + rewrite (trimEnd_nil_words s E []). symmetry. apply app_nil_r.
    + rewrite (trimEnd_nil_words s E (c :: cur)). reflexivity.
  - simpl. destruct (is_ws c); rewrite <- IH; reflexivity.
Qed.

Lemma trimEnd_idemp s : trimEnd (trimEnd s) = trimEnd s.
Proof.
  induction s as [|c s IH]; [reflexivity |].
  simpl. destruct (trimEnd s) as [|x t] eqn:E.
  - destruct (is_ws c) eqn:Hc; [reflexivity |]. simpl. rewrite Hc. reflexivity.
  - simpl. simpl in IH. rewrite IH. reflexivity.
Qed.

(** What [replace] makes of a text without trailing white space, in terms of
    its words. *)
Lemma replace_ws_runs_words t :
  trimEnd t = t ->
  (forall cur, cur ≠ [] ->
     reverse cur ++ replace_ws_runs false t = unwords (words_from cur t))
  /\ replace_ws_runs true t = unwords (words_from [] t)
  /\ (t ≠ [] -> words_from [] t ≠ []).
Proof.
  induction t as [|c t IH]; intros Ht.
  - repeat split; [| congruence].
    intros cur Hcur. simpl. rewrite flush_nonempty by assumption.
    simpl. apply app_nil_r.
  - destruct (trimEnd_cons_inv _ _ Ht) as [Ht' Hne].
    destruct (IH Ht') as (IHa & IHb & IHc).
    destruct (is_ws c) eqn:Hc.
    + specialize (Hne eq_refl). specialize (IHc Hne).
      repeat split.
      * intros cur Hcur. simpl. rewrite Hc, flush_nonempty by assumption.
        simpl. destruct (words_from [] t) eqn:E; [congruence |].
        rewrite IHb. reflexivity.
      * simpl. rewrite Hc. exact IHb.
      * intros _. simpl. rewrite Hc. exact IHc.
    + repeat split.
      * intros cur Hcur. simpl. rewrite Hc.
        rewrite <- IHa by discriminate.
        rewrite reverse_cons, <- app_assoc. reflexivity.
      * simpl. rewrite Hc. rewrite <- IHa by discriminate. reflexivity.
      * intros _. simpl. rewrite Hc. apply words_from_nonempty. discriminate.
Qed.

Lemma trimStart_head s :
  trimStart s = [] \/ exists c r, trimStart s = c :: r /\ is_ws c = false.
Proof.
  induction s as [|c s IH]; [left; reflexivity |].
  simpl. destruct (is_ws c) eqn:Hc; [exact IH |].
  right. eauto.
Qed.

(** [normalize] joins the words of the text with single spaces. *)
Lemma normalize_unwords s : normalize s = unwords (words s).
Proof.
  unfold normalize, words, trim.
  rewrite <- (words_trimStart s), <- (words_trimEnd (trimStart s)).
  destruct (replace_ws_runs_words (trimEnd (trimStart s)) (trimEnd_idemp _))
    as (_ & Hb & _).
  rewrite <- Hb.
  destruct (trimStart_head s) as [-> | (c & r & -> & Hc)]; [reflexivity |].
  simpl. destruct (trimEnd r); rewrite ?Hc; simpl; rewrite ?Hc; reflexivity.
Qed.

Lemma words_from_snoc_ws c s :
  is_ws c = true -> forall cur, words_from cur (s ++ [c]) = words_from cur s.
Proof.
  intros Hc. induction s as [|x s IH]; intros cur; simpl.
  - rewrite Hc. apply app_nil_r.
  - destruct (is_ws x); rewrite IH; reflexivity.
Qed.

Lemma words_from_run l d c r :
  is_ws d = true -> is_ws c = true ->
  forall cur, words_from cur (l ++ d :: c :: r) = words_from cur (l ++ d :: r)
              /\ words_from cur (l ++ c :: d :: r) = words_from cur (l ++ d :: r).
Proof.
  intros Hd Hc. induction l as [|x l IH]; intros cur; simpl.
  - rewrite ?Hd, ?Hc. simpl. rewrite ?Hd, ?Hc. split; reflexivity.
  - destruct (is_ws x).
    + destruct (IH []) as [-> ->]. split; reflexivity.
    + destruct (IH (x :: cur)) as [-> ->]. split; reflexivity.
Qed.

Lemma ws_step_words t1 t2 : ws_step t1 t2 -> words t1 = words t2.
Proof.
  unfold words. destruct 1 as [c t Hc | c t Hc | l d c r Hd Hc | l c d r Hc Hd].
  - simpl. rewrite Hc. reflexivity.
  - symmetry. apply words_from_snoc_ws, Hc.
  - symmetry. apply (words_from_run l d c r Hd Hc).
  - symmetry. apply (words_from_run l d c r Hd Hc).
Qed.

Lemma ws_variant_words t1 t2 : ws_variant t1 t2 -> words t1 = words t2.
Proof.
  induction 1 as [| x y z [Hxy | Hyx] _ IH]; [reflexivity | |].
  - rewrite (ws_step_words _ _ Hxy). exact IH.
  - rewrite <- (ws_step_words _ _ Hyx). exact IH.
Qed.

Lemma ws_variant_normalize t1 t2 : ws_variant t1 t2 -> normalize t1 = normalize t2.
Proof. intros H. rewrite !normalize_unwords, (ws_variant_words _ _ H). reflexivity. Qed.

End Normalisation.

(** ** The digest *)

Example md5_empty : MD5.hex (js "") = js "d41d8cd98f00b204e9800998ecf8427e".
Proof. vm_compute. reflexivity. Qed.

Example md5_abc : MD5.hex (js "abc") = js "900150983cd24fb0d6963f7d28e17f72".
Proof. vm_compute. reflexivity. Qed.

(** A message of two blocks, and one with two- and three-byte sequences and
    a surrogate pair (U+00E9, U+20AC, U+1F600). *)
Example md5_two_blocks :
  MD5.hex (replicate 70 97%N) = js "0f5c6c4e740bfcc08c3c26ccb2673d46".
Proof. vm_compute. reflexivity. Qed.

Example md5_utf8 :
  MD5.hex [0xE9; 0x20AC; 0xD83D; 0xDE00]%N = js "3b07a39fef0ac5d7ef21575e7315a482".
Proof. vm_compute. reflexivity. Qed.

Lemma bind_length_const {A B} (f : A -> list B) (n : nat) (l : list A) :
  (forall x, length (f x) = n) -> length (l ≫= f) = (length l * n)%nat.
Proof.
  intros Hf. induction l as [|x l IH]; [reflexivity |].
  rewrite bind_cons, length_app, Hf, IH. simpl. lia.
Qed.

Lemma bytes_le_length n x : length (MD5.bytes_le n x) = n.
Proof. unfold MD5.bytes_le. rewrite length_fmap. apply length_seq. Qed.

Lemma bytes_le_range n x : Forall (fun b => 0 <= b <= 255) (MD5.bytes_le n x).
Proof.
  unfold MD5.bytes_le. apply Forall_fmap, Forall_forall. intros i _. simpl.
  change 255 with (Z.ones 8). rewrite Z.land_ones by lia.
  change (Z.ones 8) with (2 ^ 8 - 1).
  pose proof (Z.mod_pos_bound (Z.shiftr x (8 * Z.of_nat i)) (2 ^ 8)). lia.
Qed.

Lemma hex_digit_ok x : 0 <= x <= 15 -> is_hex_digit (MD5.hex_digit x).
Proof.
  intros Hx. unfold is_hex_digit, MD5.hex_digit.
  destruct (Z.ltb_spec x 10); lia.
Qed.

Lemma hex_byte_ok b : 0 <= b <= 255 -> Forall is_hex_digit (MD5.hex_byte b).
Proof.
  intros Hb. unfold MD5.hex_byte.
  apply Forall_cons; split; [| apply Forall_cons; split; [| apply Forall_nil_2]];
    apply hex_digit_ok.
  - rewrite Z.shiftr_div_pow2 by lia. change (2 ^ 4) with 16.
    split; [apply Z.div_pos; lia | apply Z.lt_succ_r, Z.div_lt_upper_bound; lia].
  - change 15 with (Z.ones 4). rewrite Z.land_ones by lia.
    change (Z.ones 4) with (2 ^ 4 - 1).
    pose proof (Z.mod_pos_bound b (2 ^ 4)). lia.
Qed.

Lemma digest_shape msg :
  length (MD5.digest msg) = 16%nat /\ Forall (fun b => 0 <= b <= 255) (MD5.digest msg).
Proof.
  unfold MD5.digest.
  destruct (MD5.blocks _ _ _) as [[[a b] c] d].
  split.
  - rewrite !length_app, !bytes_le_length. reflexivity.
  - rewrite !Forall_app. repeat split; apply bytes_le_range.
Qed.

(** The digest is always 32 lower-case hexadecimal digits. *)
Lemma md5_hex_shape s : length (MD5.hex s) = 32%nat /\ Forall is_hex_digit (MD5.hex s).
Proof.
  unfold MD5.hex. destruct (digest_shape (MD5.utf8 s)) as [Hlen Hrange]. split.
  - rewrite (bind_length_const _ 2) by reflexivity. rewrite Hlen. reflexivity.
  - apply Forall_bind. eapply Forall_impl; [exact Hrange |].
    intros b Hb. apply hex_byte_ok, Hb.
Qed.

(** ** The key of a text *)

Lemma generateCacheKey_normalize text voice :
  Route.generateCacheKey text voice = MD5.hex (normalize text ++ voice).
Proof. reflexivity. Qed.

(** C5: [generateCacheKey] is a total function of the text and the voice (every
    result, that of the empty text included, is a digest of 32 hexadecimal
    digits), texts that differ only in white-space runs and in leading or
    trailing white space have the same key, in particular ["a  b"], ["a b"]
    and [" a b "], and the check route derives the same keys. *)
Theorem generateCacheKey_whitespace_invariant :
  (forall text voice,
     length (Route.generateCacheKey text voice) = 32%nat
     /\ Forall is_hex_digit (Route.generateCacheKey text voice))
  /\ (forall t1 t2 voice,
        ws_variant t1 t2 ->
        Route.generateCacheKey t1 voice = Route.generateCacheKey t2 voice)
  /\ (forall voice,
        Route.generateCacheKey (js "a  b") voice = Route.generateCacheKey (js "a b") voice
        /\ Route.generateCacheKey (js "a b") voice = Route.generateCacheKey (js " a b ") voice)
  /\ (forall text voice,
        CheckRoute.generateCacheKey text voice = Route.generateCacheKey text voice).
Proof.
  split; [| split; [| split]].
  - intros text voice. apply md5_hex_shape.
  - intros t1 t2 voice Hvar. rewrite !generateCacheKey_normalize.
    rewrite (ws_variant_normalize _ _ Hvar). reflexivity.
  - intros voice. rewrite !generateCacheKey_normalize.
    split; do 2 f_equal.
  - reflexivity.
Qed.

Lemma generateCacheKey_whitespace_invariant_witness :
  ws_variant (js "a  b") (js " a b ")
  /\ Route.generateCacheKey (js "a  b") (js "V") = Route.generateCacheKey (js " a b ") (js "V").
Proof.
  assert (H : ws_variant (js "a  b") (js " a b ")).
  { apply rtc_l with (js "a b").
    - right. exact (ws_run_after (js "a") 32%N 32%N (js "b") eq_refl eq_refl).
    - apply rtc_l with (js " a b").
      + left. exact (ws_leading 32%N (js "a b") eq_refl).
      + apply rtc_once. left. exact (ws_trailing 32%N (js " a b") eq_refl). }
  split; [exact H |].
  exact (proj1 (proj2 generateCacheKey_whitespace_invariant) _ _ (js "V") H).
Defined.



(** * Paths *)

Lemma split_on_no_sep sep s :
  Forall (fun c => c ≠ sep) s -> split_on sep s = [s].
Proof.
  induction 1 as [|c s Hc _ IH]; [reflexivity |].
  simpl. rewrite IH. destruct (N.eqb_spec c sep); [contradiction | reflexivity].
Qed.

(** Appending a suffix without separator to [k] changes the last component
    of [k] only. *)
Lemma split_on_app_suffix sep k :
  exists init name,
    split_on sep k = init ++ [name]
    /\ forall suffix, Forall (fun c => c ≠ sep) suffix ->
         split_on sep (k ++ suffix) = init ++ [name ++ suffix].
Proof.
  induction k as [|c k (init & name & Hk & Hsuf)].
  - exists [], []. split; [reflexivity |]. intros suffix Hs. apply split_on_no_sep, Hs.
  - simpl. destruct (c =? sep)%N.
    + exists ([] :: init), name. split; [rewrite Hk; reflexivity |].
      intros suffix Hs. rewrite (Hsuf _ Hs). reflexivity.
    + destruct init as [|h t].
      * exists [], (c :: name). split; [rewrite Hk; reflexivity |].
        intros suffix Hs. rewrite (Hsuf _ Hs). reflexivity.
      * exists ((c :: h) :: t), name. split; [rewrite Hk; reflexivity |].
        intros suffix Hs. rewrite (Hsuf _ Hs). reflexivity.
Qed.

Lemma push_component_name stack seg :
  (3 <= length seg)%nat -> push_component stack seg = stack ++ [seg].
Proof.
  intros Hlen. unfold push_component.
  rewrite bool_decide_eq_false_2.
  - rewrite bool_decide_eq_false_2; [reflexivity |].
    intros ->. vm_compute in Hlen. lia.
  - intros [-> | ->]; vm_compute in Hlen; lia.
Qed.

(** The path of a file named [k ++ suffix]: a directory that does not depend
    on the suffix, then one component that ends with the suffix. *)
Lemma path_join_file k :
  exists init name,
    forall base args suffix,
      Forall (fun c => c ≠ 47%N) suffix -> (3 <= length suffix)%nat ->
      path_join base (args ++ [k ++ suffix])
      = foldl push_component (path_join base args) init ++ [name ++ suffix].
Proof.
  destruct (split_on_app_suffix 47%N k) as (init & name & _ & Hsuf).
  exists init, name. intros base args suffix Hs Hlen.
  unfold path_join. rewrite bind_app, foldl_app. simpl. rewrite app_nil_r.
  rewrite (Hsuf _ Hs), foldl_app. simpl.
  apply push_component_name. rewrite length_app. lia.
Qed.

Lemma path_join_plain_file base args k suffix :
  slash_free k -> Forall (fun c => c ≠ 47%N) suffix -> (3 <= length suffix)%nat ->
  path_join base (args ++ [k ++ suffix]) = path_join base args ++ [k ++ suffix].
Proof.
  intros Hk Hs Hlen. unfold path_join.
  rewrite bind_app, foldl_app. simpl. rewrite app_nil_r.
  rewrite split_on_no_sep by (apply Forall_app; auto). simpl.
  apply push_component_name. rewrite length_app. lia.
Qed.

Section CachePaths.
Context {cache_dir : CacheDir}.

Lemma getMetadataFilePath_plain bookKey voice cacheKey :
  slash_free cacheKey ->
  Route.getMetadataFilePath bookKey voice cacheKey
  = path_join CACHE_DIR [bookKey; voice] ++ [cacheKey ++ js ".meta.json"].
Proof.
  intros Hk. apply (path_join_plain_file CACHE_DIR [bookKey; voice]); [assumption | |].
  - repeat constructor; discriminate.
  - simpl. lia.
Qed.

(** The four places of an entry. *)
Lemma cache_paths bookKey voice cacheKey :
  exists nested flat name,
    Route.getCacheFilePath bookKey voice cacheKey = nested ++ [name ++ js ".mp3"]
    /\ Route.getMetadataFilePath bookKey voice cacheKey = nested ++ [name ++ js ".meta.json"]
    /\ Route.getLegacyCacheFilePath cacheKey = flat ++ [name ++ js ".mp3"]
    /\ Route.getLegacyMetadataFilePath cacheKey = flat ++ [name ++ js ".meta.json"].
Proof.
  destruct (path_join_file cacheKey) as (init & name & Hjoin).
  exists (foldl push_component (path_join CACHE_DIR [bookKey; voice]) init),
         (foldl push_component (path_join CACHE_DIR []) init), name.
  assert (Hmp3 : Forall (fun c => c ≠ 47%N) (js ".mp3")) by (repeat constructor; discriminate).
  assert (Hmeta : Forall (fun c => c ≠ 47%N) (js ".meta.json")) by (repeat constructor; discriminate).
  repeat split.
  - apply (Hjoin CACHE_DIR [bookKey; voice] _ Hmp3). simpl. lia.
  - apply (Hjoin CACHE_DIR [bookKey; voice] _ Hmeta). simpl. lia.
  - apply (Hjoin CACHE_DIR [] _ Hmp3). simpl. lia.
  - apply (Hjoin CACHE_DIR [] _ Hmeta). simpl. lia.
Qed.

End CachePaths.

Lemma audio_name_neq_meta_name (name : jsstring) : name ++ js ".mp3" ≠ name ++ js ".meta.json".
Proof. intros Heq. apply app_inv_head in Heq. discriminate. Qed.

Lemma snoc_neq_name {A} (d1 d2 : list A) (x y : A) : x ≠ y -> d1 ++ [x] ≠ d2 ++ [y].
Proof. intros Hxy Heq. apply app_inj_tail in Heq as [_ ?]. contradiction. Qed.

Lemma snoc_neq_dir {A} (d1 d2 : list A) (x y : A) :
  d1 ++ [x] ≠ d2 ++ [x] -> d1 ++ [y] ≠ d2 ++ [y].
Proof. intros Hne Heq. apply app_inj_tail in Heq as [-> _]. contradiction. Qed.

Lemma node_at_snoc (t : gmap path Fs.node) (d : path) (x : jsstring) :
  Fs.node_at t (d ++ [x]) = t !! (d ++ [x]).
Proof. destruct d; reflexivity. Qed.

Lemma node_at_insert_ne (t : gmap path Fs.node) (p q : path) (x : Fs.node) :
  p ≠ q -> Fs.node_at (<[p := x]> t) q = Fs.node_at t q.
Proof. intros Hpq. destruct q; [reflexivity |]. simpl. apply lookup_insert_ne, Hpq. Qed.

Lemma parent_snoc (d : path) (x : jsstring) : Fs.parent (d ++ [x]) = d.
Proof. apply removelast_last. Qed.

(** * The file system *)

Arguments js : simpl never.
Arguments substring0 : simpl never.

Lemma only_adds_dirs_refl t : only_adds_dirs t t.
Proof. split; auto. Qed.

Lemma only_adds_dirs_trans t1 t2 t3 :
  only_adds_dirs t1 t2 -> only_adds_dirs t2 t3 -> only_adds_dirs t1 t3.
Proof.
  intros [H1 H1'] [H2 H2']. split; [auto |].
  intros p x Hx. destruct (H2' _ _ Hx) as [Hx2 | ->]; auto.
Qed.

Lemma only_adds_dirs_file t t' p data :
  only_adds_dirs t t' -> t' !! p = Some (Fs.File data) <-> t !! p = Some (Fs.File data).
Proof.
  intros [Hmono Hnew]. split; [| apply Hmono].
  intros Hp. destruct (Hnew _ _ Hp) as [? | ?]; [assumption | discriminate].
Qed.

Lemma mkdir_from_adds_dirs rest : forall done t r t',
  Fs.mkdir_from done rest t = (r, t') -> only_adds_dirs t t'.
Proof.
  induction rest as [|seg rest IH]; intros done t r t'; simpl.
  - intros [= _ <-]. apply only_adds_dirs_refl.
  - destruct (t !! (done ++ [seg])) as [[data|]|] eqn:E.
    + intros [= _ <-]. apply only_adds_dirs_refl.
    + apply IH.
    + intros Hrec. apply IH in Hrec.
      eapply only_adds_dirs_trans; [| exact Hrec].
      split.
      * intros p x Hp. rewrite lookup_insert_ne; [assumption | congruence].
      * intros p x. rewrite lookup_insert. case_decide; [| auto].
        intros [= <-]. auto.
Qed.

(** [mkdir] leaves alone every path longer than the one it is given. *)
Lemma mkdir_from_longer rest : forall done t r t' p,
  Fs.mkdir_from done rest t = (r, t') ->
  (length done + length rest < length p)%nat -> t' !! p = t !! p.
Proof.
  induction rest as [|seg rest IH]; intros done t r t' p; simpl.
  - intros [= _ <-]. reflexivity.
  - intros Hmk Hlen.
    assert (Hp : done ++ [seg] ≠ p).
    { intros <-. rewrite length_app in Hlen. simpl in Hlen. lia. }
    assert (Hlen' : (length (done ++ [seg]) + length rest < length p)%nat).
    { rewrite length_app. simpl. lia. }
    destruct (t !! (done ++ [seg])) as [[data|]|] eqn:E.
    + injection Hmk as _ <-. reflexivity.
    + eapply IH; eauto.
    + rewrite (IH _ _ _ _ _ Hmk Hlen'). apply lookup_insert_ne, Hp.
Qed.

Lemma mkdir_recursive_spec p w :
  exists r t', mkdir_recursive p w = (r, World t' (console w)) /\ only_adds_dirs (fs w) t'.
Proof.
  unfold mkdir_recursive. destruct (Fs.mkdir_from [] p (fs w)) as [r t'] eqn:E.
  exists r, t'. split; [reflexivity |]. eapply mkdir_from_adds_dirs, E.
Qed.

Lemma access_inv p w r w' :
  access p w = (r, w') ->
  w' = w /\ (r = Return () <-> is_Some (Fs.node_at (fs w) p)).
Proof.
  unfold access. destruct (Fs.node_at (fs w) p) as [x|]; intros [= <- <-];
    (split; [reflexivity |]); split; try discriminate; eauto.
  intros [? ?]; discriminate.
Qed.

Lemma readFile_inv p w r w' :
  readFile p w = (r, w') ->
  w' = w /\ forall data, r = Return data <-> Fs.node_at (fs w) p = Some (Fs.File data).
Proof.
  unfold readFile. destruct (Fs.node_at (fs w) p) as [[d|]|]; intros [= <- <-];
    (split; [reflexivity |]); intros data; split; congruence.
Qed.

Lemma writeFile_inv p data w r w' :
  writeFile p data w = (r, w') ->
  (r = Return () /\ w' = World (<[p := Fs.File data]> (fs w)) (console w)
   /\ Fs.node_at (fs w) (Fs.parent p) = Some Fs.Dir)
  \/ (exists e, r = Throw e /\ w' = w).
Proof.
  unfold writeFile.
  destruct (Fs.node_at (fs w) p) as [[d|]|];
    try (destruct (Fs.node_at (fs w) (Fs.parent p)) as [[d'|]|]);
    intros [= <- <-]; eauto.
Qed.

Lemma writeFile_ok p data w :
  Fs.node_at (fs w) p ≠ Some Fs.Dir ->
  Fs.node_at (fs w) (Fs.parent p) = Some Fs.Dir ->
  writeFile p data w = (Return (), World (<[p := Fs.File data]> (fs w)) (console w)).
Proof.
  intros Hp Hparent. unfold writeFile. rewrite Hparent.
  destruct (Fs.node_at (fs w) p) as [[d|]|]; congruence.
Qed.

Lemma unlink_inv p w r w' :
  unlink p w = (r, w') ->
  (exists data, r = Return () /\ Fs.node_at (fs w) p = Some (Fs.File data)
                /\ w' = World (delete p (fs w)) (console w))
  \/ (exists e, r = Throw e /\ w' = w
                /\ forall data, Fs.node_at (fs w) p ≠ Some (Fs.File data)).
Proof.
  unfold unlink. destruct (Fs.node_at (fs w) p) as [[d|]|]; intros [= <- <-]; eauto.
Qed.

(** ** Frames *)

Create HintDb io discriminated.

Lemma touches_only_ret {A} P (a : A) : touches_only P (mret a).
Proof. intros w r w' [= _ <-]. reflexivity. Qed.

Lemma touches_only_throw {A} P e : touches_only P (@throw A e).
Proof. intros w r w' [= _ <-]. reflexivity. Qed.

Lemma touches_only_bind {A B} P (m : io A) (k : A -> io B) :
  touches_only P m -> (forall a, touches_only P (k a)) -> touches_only P (m ≫= k).
Proof.
  intros Hm Hk w r w'. unfold mbind, io_bind.
  destruct (m w) as [[a|e] w1] eqn:E.
  - intros Hka p Hp. rewrite (Hk a _ _ _ Hka p Hp). eapply Hm; eauto.
  - intros [= _ <-]. eapply Hm; eauto.
Qed.

Lemma touches_only_try_catch {A} P (body : io A) (handler : exn -> io A) :
  touches_only P body -> (forall e, touches_only P (handler e)) ->
  touches_only P (try_catch body handler).
Proof.
  intros Hm Hk w r w'. unfold try_catch.
  destruct (body w) as [[a|e] w1] eqn:E.
  - intros [= _ <-]. eapply Hm; eauto.
  - intros Hka p Hp. rewrite (Hk e _ _ _ Hka p Hp). eapply Hm; eauto.
Qed.

Lemma touches_only_write_console P m : touches_only P (write_console m).
Proof. intros w r w' [= _ <-]. reflexivity. Qed.

Lemma touches_only_access P p : touches_only P (access p).
Proof. intros w r w' Hacc. apply access_inv in Hacc as [-> _]. reflexivity. Qed.

Lemma touches_only_readFile P p : touches_only P (readFile p).
Proof. intros w r w' Hread. apply readFile_inv in Hread as [-> _]. reflexivity. Qed.

Lemma touches_only_writeFile (P : path -> Prop) p data : P p -> touches_only P (writeFile p data).
Proof.
  intros HP w r w' Hwrite q Hq.
  apply writeFile_inv in Hwrite as [(_ & -> & _) | (e & _ & ->)]; [| reflexivity].
  simpl. apply lookup_insert_ne. congruence.
Qed.

Lemma touches_only_unlink (P : path -> Prop) p : P p -> touches_only P (unlink p).
Proof.
  intros HP w r w' Hunlink q Hq.
  apply unlink_inv in Hunlink as [(d & _ & _ & ->) | (e & _ & -> & _)]; [| reflexivity].
  simpl. apply lookup_delete_ne. congruence.
Qed.

Lemma touches_only_get_property P v name : touches_only P (get_property v name).
Proof. intros w r w'. destruct v; intros [= _ <-]; reflexivity. Qed.

Lemma touches_only_set_property P v name x : touches_only P (set_property v name x).
Proof. intros w r w'. destruct v; intros [= _ <-]; reflexivity. Qed.

Lemma touches_only_match_option {A B} P (o : option A) (f : A -> io B) (m : io B) :
  (forall a, touches_only P (f a)) -> touches_only P m ->
  touches_only P (match o with Some a => f a | None => m end).
Proof. destruct o; auto. Qed.

#[global] Hint Resolve touches_only_ret touches_only_throw touches_only_bind
  touches_only_try_catch touches_only_write_console touches_only_access
  touches_only_readFile touches_only_writeFile touches_only_unlink
  touches_only_get_property touches_only_set_property touches_only_match_option : io.

Lemma never_throws_write_console m : never_throws (write_console m).
Proof. intros w. eexists _, _. reflexivity. Qed.

Lemma never_throws_ret {A} (a : A) : never_throws (mret a).
Proof. intros w. eexists _, _. reflexivity. Qed.

Lemma never_throws_try_catch {A} (body : io A) (handler : exn -> io A) :
  (forall e, never_throws (handler e)) -> never_throws (try_catch body handler).
Proof.
  intros Hh w. unfold try_catch. destruct (body w) as [[a|e] w1]; [eauto |]. apply Hh.
Qed.

Lemma try_catch_rethrow_Return {A} (body : io A) (h : exn -> io unit) a w w' :
  try_catch body (fun err => h err;; throw err) w = (Return a, w') ->
  body w = (Return a, w').
Proof.
  unfold try_catch, mbind, io_bind. destruct (body w) as [[b|e] w1]; [auto |].
  destruct (h e w1) as [[u|e'] w2]; discriminate.
Qed.

Lemma try_catch_rethrow_Throw {A} (body : io A) m e w w1 :
  body w = (Throw e, w1) ->
  try_catch body (fun err => write_console (m err);; throw err) w
  = (Throw e, World (fs w1) (console w1 ++ [m e])).
Proof. unfold try_catch. intros ->. reflexivity. Qed.

(** [try { copy the file at src to dst } catch { }] *)
Lemma try_copy_spec (src dst : path) w r w' :
  try_catch (buffer ← readFile src; writeFile dst buffer) (fun _ => mret ()) w = (r, w') ->
  r = Return () /\ console w' = console w
  /\ ((exists data, Fs.node_at (fs w) src = Some (Fs.File data)
                    /\ Fs.node_at (fs w) (Fs.parent dst) = Some Fs.Dir
                    /\ fs w' = <[dst := Fs.File data]> (fs w))
      \/ (fs w' = fs w
          /\ ((forall data, Fs.node_at (fs w) src ≠ Some (Fs.File data))
              \/ Fs.node_at (fs w) dst = Some Fs.Dir
              \/ Fs.node_at (fs w) (Fs.parent dst) ≠ Some Fs.Dir))).
Proof.
  unfold try_catch, mbind, io_bind, readFile, writeFile, mret, io_ret.
  destruct (Fs.node_at (fs w) src) as [[data|]|] eqn:Esrc;
    [destruct (Fs.node_at (fs w) dst) as [[d|]|] eqn:Edst;
     destruct (Fs.node_at (fs w) (Fs.parent dst)) as [[d'|]|] eqn:Epar | |];
    intros [= <- <-]; simpl; repeat split; eauto 10;
    right; (split; [reflexivity |]); eauto; right; right; congruence.
Qed.

(** [try { unlink(p) } catch { }] *)
Lemma try_unlink_spec (p : path) w r w' :
  try_catch (unlink p) (fun _ => mret ()) w = (r, w') ->
  r = Return () /\ console w' = console w
  /\ ((exists data, Fs.node_at (fs w) p = Some (Fs.File data) /\ fs w' = delete p (fs w))
      \/ ((forall data, Fs.node_at (fs w) p ≠ Some (Fs.File data)) /\ fs w' = fs w)).
Proof.
  unfold try_catch, unlink, mret, io_ret.
  destruct (Fs.node_at (fs w) p) as [[data|]|] eqn:Ep; intros [= <- <-]; simpl;
    repeat split; eauto.
Qed.

Section Store.
Context {cache_dir : CacheDir} {runtime : JsRuntime}.

(** [ensureCacheDir] never throws; it only creates directories, and writes
    at most one line to the console. *)
Lemma ensureCacheDir_spec bookKey voice w :
  exists t' log,
    Route.ensureCacheDir bookKey voice w = (Return (), World t' (console w ++ log))
    /\ only_adds_dirs (fs w) t'.
Proof.
  unfold Route.ensureCacheDir, try_catch.
  destruct (truthy bookKey && truthy voice).
  - destruct (mkdir_recursive_spec (path_join CACHE_DIR [default [] bookKey; default [] voice]) w)
      as ([[]|e] & t' & -> & Hadd).
    + exists t', []. rewrite app_nil_r. auto.
    + exists t', [ErrCreateCacheDir e]. auto.
  - destruct (mkdir_recursive_spec CACHE_DIR w) as ([[]|e] & t' & -> & Hadd).
    + exists t', []. rewrite app_nil_r. auto.
    + exists t', [ErrCreateCacheDir e]. auto.
Qed.

Lemma ensureCacheDir_longer bookKey voice w t' log p :
  bookKey ≠ [] -> voice ≠ [] ->
  Route.ensureCacheDir (Some bookKey) (Some voice) w = (Return (), World t' log) ->
  (length (path_join CACHE_DIR [bookKey; voice]) < length p)%nat ->
  t' !! p = fs w !! p.
Proof.
  intros Hb Hv. unfold Route.ensureCacheDir, try_catch, mkdir_recursive.
  destruct bookKey; [congruence |]. destruct voice; [congruence |]. simpl.
  destruct (Fs.mkdir_from _ _ _) as [[[]|e] t1] eqn:E; intros [= <- _] Hlen;
    eapply mkdir_from_longer; eauto.
Qed.

(** C9: after a write that returned, a read of the same book, voice and
    key returns exactly the bytes written. *)
Theorem cacheAudio_getCachedAudio created lastUsed bookKey voice cacheKey
    (audioBuffer : Buffer) (metadata : Route.PartialCacheMetadata) (w w' : world) :
  Route.cacheAudio created lastUsed bookKey voice cacheKey audioBuffer metadata w
    = (Return (), w') ->
  Route.getCachedAudio bookKey voice cacheKey w' = (Return audioBuffer, w').
Proof.
  destruct (cache_paths bookKey voice cacheKey) as (nested & flat & name & Hna & Hnm & _ & _).
  unfold Route.cacheAudio, Route.getCachedAudio, mbind, io_bind.
  rewrite Hna, Hnm.
  destruct (ensureCacheDir_spec (Some bookKey) (Some voice) w) as (t1 & log & -> & _).
  destruct (writeFile _ audioBuffer _) as [r1 w1] eqn:E1.
  apply writeFile_inv in E1 as [(-> & -> & _) | (e & -> & ->)]; [| discriminate].
  destruct (writeFile _ _ _) as [r2 w2] eqn:E2.
  apply writeFile_inv in E2 as [(-> & -> & _) | (e & -> & ->)]; [| discriminate].
  intros [= <-]. unfold readFile. rewrite node_at_snoc. simpl.
  rewrite lookup_insert_ne
    by (apply snoc_neq_name; intros Heq; symmetry in Heq; revert Heq; apply audio_name_neq_meta_name).
  rewrite lookup_insert_eq. reflexivity.
Qed.

(** C8: when the metadata of an entry is missing or unreadable,
    [updateMetadata] returns without throwing, writes one warning to the
    console and leaves the file system as it was, and the audio of the
    entry is read as before. *)
Theorem updateMetadata_unreadable_is_logged_noop now bookKey voice cacheKey
    (audio : Buffer) (w : world) :
  Route.getCachedAudio bookKey voice cacheKey w = (Return audio, w) ->
  metadata_unreadable w bookKey voice cacheKey ->
  exists err,
    let w' := World (fs w) (console w ++ [WarnUpdateMetadata err]) in
    Route.updateMetadata now bookKey voice cacheKey w = (Return (), w')
    /\ Route.getCachedAudio bookKey voice cacheKey w' = (Return audio, w').
Proof.
  destruct (cache_paths bookKey voice cacheKey) as (nested & flat & name & Hna & Hnm & _ & _).
  unfold Route.getCachedAudio, metadata_unreadable. rewrite Hna, Hnm.
  intros Hread Hmeta.
  apply readFile_inv in Hread as [_ Hread].
  assert (Haudio : forall log,
    readFile (nested ++ [name ++ js ".mp3"]) (World (fs w) log)
    = (Return audio, World (fs w) log)).
  { intros log. unfold readFile. simpl. rewrite (proj1 (Hread audio) eq_refl). reflexivity. }
  unfold Route.updateMetadata, try_catch, readFile_utf8, mbind, io_bind, readFile.
  rewrite Hnm, node_at_snoc.
  destruct (fs w !! (nested ++ [name ++ js ".meta.json"])) as [[data|]|]; simpl.
  - destruct (JSON_parse (utf8_decode data)) as [[| b | x | s | items | fields]|];
      simpl; try contradiction; eexists; (split; [reflexivity | apply Haudio]).
  - eexists. split; [reflexivity | apply Haudio].
  - eexists. split; [reflexivity | apply Haudio].
Qed.

(** X1: In every state [updateMetadata] returns, and it touches nothing but the
    metadata file. *)
Lemma updateMetadata_total now bookKey voice cacheKey :
  never_throws (Route.updateMetadata now bookKey voice cacheKey)
  /\ touches_only (fun p => p = Route.getMetadataFilePath bookKey voice cacheKey)
       (Route.updateMetadata now bookKey voice cacheKey).
Proof.
  split.
  - apply never_throws_try_catch. intros e. apply never_throws_write_console.
  - unfold Route.updateMetadata, readFile_utf8. auto 20 with io.
Qed.

(** What a migration that returned has done, in terms of the tree [t0] left
    by [ensureCacheDir]. *)
Lemma migrateCacheFile_inv bookKey voice cacheKey (w w1 : world) :
  Route.migrateCacheFile bookKey voice cacheKey w = (Return (), w1) ->
  Route.getCacheFilePath bookKey voice cacheKey ≠ Route.getLegacyCacheFilePath cacheKey ->
  exists t0 log audio,
    Route.ensureCacheDir (Some bookKey) (Some voice) w
      = (Return (), World t0 (console w ++ log))
    /\ only_adds_dirs (fs w) t0
    /\ t0 !! Route.getLegacyCacheFilePath cacheKey = Some (Fs.File audio)
    /\ fs w1 !! Route.getCacheFilePath bookKey voice cacheKey = Some (Fs.File audio)
    /\ fs w1 !! Route.getLegacyCacheFilePath cacheKey = None
    /\ (forall data, fs w1 !! Route.getLegacyMetadataFilePath cacheKey ≠ Some (Fs.File data))
    /\ (forall meta,
          t0 !! Route.getLegacyMetadataFilePath cacheKey = Some (Fs.File meta) ->
          fs w1 !! Route.getMetadataFilePath bookKey voice cacheKey = Some (Fs.File meta)
          \/ (t0 !! Route.getMetadataFilePath bookKey voice cacheKey = Some Fs.Dir
              /\ fs w1 !! Route.getMetadataFilePath bookKey voice cacheKey = Some Fs.Dir))
    /\ ((forall meta, t0 !! Route.getLegacyMetadataFilePath cacheKey ≠ Some (Fs.File meta)) ->
        fs w1 !! Route.getMetadataFilePath bookKey voice cacheKey
        = t0 !! Route.getMetadataFilePath bookKey voice cacheKey)
    /\ console w1 = console w ++ log ++ [LogMigrated (substring0 8 cacheKey)].
Proof.
  destruct (cache_paths bookKey voice cacheKey)
    as (nested & flat & name & Hna & Hnm & Hla & Hlm).
  intros Hmig Hne. apply try_catch_rethrow_Return in Hmig. revert Hmig.
  rewrite Hna, Hnm, Hla, Hlm in *.
  set (na := nested ++ [name ++ js ".mp3"]) in *.
  set (nm := nested ++ [name ++ js ".meta.json"]) in *.
  set (la := flat ++ [name ++ js ".mp3"]) in *.
  set (lm := flat ++ [name ++ js ".meta.json"]) in *.
  assert (Hnanm : na ≠ nm) by apply snoc_neq_name, audio_name_neq_meta_name.
  assert (Hlalm : la ≠ lm) by apply snoc_neq_name, audio_name_neq_meta_name.
  assert (Hnalm : na ≠ lm) by apply snoc_neq_name, audio_name_neq_meta_name.
  assert (Hlanm : la ≠ nm) by apply snoc_neq_name, audio_name_neq_meta_name.
  assert (Hnmlm : nm ≠ lm) by (revert Hne; apply snoc_neq_dir).
  assert (Hnode : forall t d x, Fs.node_at t (d ++ [x]) = t !! (d ++ [x]))
    by apply node_at_snoc.
  unfold mbind, io_bind.
  destruct (ensureCacheDir_spec (Some bookKey) (Some voice) w) as (t0 & log & -> & Hadd).
  destruct (readFile la _) as [[audio|e] wr] eqn:Eread; [| discriminate].
  apply readFile_inv in Eread as [-> Haudio].
  pose proof (proj1 (Haudio audio) eq_refl) as Hla0. clear Haudio.
  unfold la in Hla0. rewrite Hnode in Hla0. fold la in Hla0. simpl in Hla0.
  destruct (writeFile na audio _) as [[[]|e] w2] eqn:Ewrite; [| discriminate].
  apply writeFile_inv in Ewrite as [(_ & -> & Hparent) | (e & ? & _)]; [| discriminate].
  unfold na in Hparent. rewrite parent_snoc in Hparent. simpl in Hparent.
  destruct (try_catch _ _ _) as [r3 w3] eqn:Ecopy.
  apply try_copy_spec in Ecopy as (-> & Hlog3 & Hcopy). simpl in Hlog3, Hcopy.
  destruct (unlink la w3) as [[[]|e] w4] eqn:Eunlink; [| discriminate].
  apply unlink_inv in Eunlink as [(d & _ & Hla3 & ->) | (e & ? & _)]; [| discriminate].
  destruct (try_catch _ _ _) as [r5 w5] eqn:Eunlink2.
  apply try_unlink_spec in Eunlink2 as (-> & Hlog5 & Hunlink2). simpl in Hlog5, Hunlink2.
  intros [= <-]. simpl.
  exists t0, log, audio. split; [reflexivity |]. split; [exact Hadd |]. split; [exact Hla0 |].
  unfold lm, nm in Hcopy, Hunlink2. rewrite ?Hnode, ?parent_snoc in Hcopy, Hunlink2.
  fold lm nm in Hcopy, Hunlink2.
  rewrite Hlog5, Hlog3, <- app_assoc.
  destruct Hunlink2 as [(meta' & Hlm4 & Heq5) | (Hlm4 & Heq5)];
    destruct Hcopy as [(meta & Hlm0 & _ & Heq3) | (Heq3 & Hnocopy)];
    rewrite Heq5; rewrite Heq3 in *; clear Heq5 Heq3;
    rewrite ?lookup_delete_ne, ?lookup_delete_eq, ?lookup_insert_ne, ?lookup_insert_eq
      in * by congruence;
    repeat split;
    rewrite ?lookup_delete_ne, ?lookup_delete_eq, ?lookup_insert_ne, ?lookup_insert_eq
      by congruence;
    try congruence.
  - intros meta2 Hm. left. congruence.
  - intros meta2 Hm. right.
    destruct Hnocopy as [Hno | [Hdir | Hpar]]; [exfalso; eapply Hno, Hm | |].
    + rewrite node_at_insert_ne in Hdir by congruence.
      unfold nm in Hdir. rewrite node_at_snoc in Hdir. auto.
    + exfalso. apply Hpar. unfold nm. rewrite parent_snoc.
      rewrite node_at_insert_ne; [exact Hparent |].
      unfold na. intros Heq. apply (f_equal length) in Heq.
      rewrite length_app in Heq. simpl in Heq. lia.
Qed.

(** Without a legacy audio file a migration throws. *)
Lemma migrateCacheFile_without_legacy bookKey voice cacheKey (w : world) :
  (forall data, fs w !! Route.getLegacyCacheFilePath cacheKey ≠ Some (Fs.File data)) ->
  exists e w', Route.migrateCacheFile bookKey voice cacheKey w = (Throw e, w').
Proof.
  destruct (cache_paths bookKey voice cacheKey) as (nested & flat & name & _ & _ & Hla & _).
  rewrite Hla. intros Hnone.
  unfold Route.migrateCacheFile. rewrite Hla.
  destruct (ensureCacheDir_spec (Some bookKey) (Some voice) w) as (t0 & log & Hens & Hadd).
  destruct (t0 !! (flat ++ [name ++ js ".mp3"])) as [[data|]|] eqn:E.
  - exfalso. apply (Hnone data). apply (only_adds_dirs_file _ _ _ _ Hadd), E.
  - eexists _, _. apply try_catch_rethrow_Throw.
    unfold mbind, io_bind. rewrite Hens. unfold readFile. rewrite node_at_snoc. simpl.
    rewrite E. reflexivity.
  - eexists _, _. apply try_catch_rethrow_Throw.
    unfold mbind, io_bind. rewrite Hens. unfold readFile. rewrite node_at_snoc. simpl.
    rewrite E. reflexivity.
Qed.


(** C4 (as amended): a migration that returns has copied the legacy audio to
    the nested place (and the metadata, unless a directory stands there) and
    removed the legacy files; a missing legacy metadata file is tolerated, a
    missing legacy audio file is not: the same call made again throws. *)
Theorem migrateCacheFile_moves_once bookKey voice cacheKey (w w1 : world) :
  Route.migrateCacheFile bookKey voice cacheKey w = (Return (), w1) ->
  Route.getCacheFilePath bookKey voice cacheKey ≠ Route.getLegacyCacheFilePath cacheKey ->
  exists audio,
    fs w !! Route.getLegacyCacheFilePath cacheKey = Some (Fs.File audio)
    /\ fs w1 !! Route.getCacheFilePath bookKey voice cacheKey = Some (Fs.File audio)
    /\ fs w1 !! Route.getLegacyCacheFilePath cacheKey = None
    /\ (forall data, fs w1 !! Route.getLegacyMetadataFilePath cacheKey ≠ Some (Fs.File data))
    /\ (forall meta,
          fs w !! Route.getLegacyMetadataFilePath cacheKey = Some (Fs.File meta) ->
          fs w1 !! Route.getMetadataFilePath bookKey voice cacheKey = Some (Fs.File meta)
          \/ fs w1 !! Route.getMetadataFilePath bookKey voice cacheKey = Some Fs.Dir)
    /\ exists e w2, Route.migrateCacheFile bookKey voice cacheKey w1 = (Throw e, w2).
Proof.
  intros Hmig Hne.
  destruct (migrateCacheFile_inv _ _ _ _ _ Hmig Hne)
    as (t0 & log & audio & _ & Hadd & Hla0 & Hna1 & Hla1 & Hlm1 & Hmeta & _ & _).
  exists audio. repeat split; try assumption.
  - apply (only_adds_dirs_file _ _ _ _ Hadd), Hla0.
  - intros meta Hm. destruct (Hmeta meta) as [? | [_ ?]]; auto. apply Hadd, Hm.
  - apply migrateCacheFile_without_legacy. intros data. rewrite Hla1. discriminate.
Qed.


End Store.

Lemma cacheAudio_getCachedAudio_witness :
  let run := Route.cacheAudio (cache_dir := demo_dir) (runtime := demo_runtime)
               (js "2024-01-01T00:00:00.000Z") (js "2024-01-01T00:00:00.000Z")
               (js "B") (js "V") (js "k") [73; 68; 51]
               {| Route.meta_text := Some (js "Hello"); Route.meta_voice := Some (js "V");
                  Route.meta_bookKey := Some (js "B") |} empty_world in
  fst run = Return ()
  /\ Route.getCachedAudio (cache_dir := demo_dir) (js "B") (js "V") (js "k") (snd run)
     = (Return [73; 68; 51], snd run).
Proof.
  intros run.
  assert (Hrun : run = (Return (), snd run)) by (vm_compute; reflexivity).
  split; [rewrite Hrun; reflexivity |].
  unfold run in Hrun |- *.
  exact (cacheAudio_getCachedAudio _ _ _ _ _ _ _ _ _ Hrun).
Defined.

Lemma updateMetadata_unreadable_is_logged_noop_witness :
  Route.getCachedAudio (cache_dir := demo_dir) (js "B") (js "V") (js "k") audio_only_world
  = (Return [73; 68; 51], audio_only_world)
  /\ exists err,
       Route.updateMetadata (cache_dir := demo_dir) (runtime := demo_runtime)
         (js "2024-01-02T00:00:00.000Z") (js "B") (js "V") (js "k") audio_only_world
       = (Return (), World (fs audio_only_world) [WarnUpdateMetadata err]).
Proof.
  assert (Hread : Route.getCachedAudio (cache_dir := demo_dir) (js "B") (js "V") (js "k")
                    audio_only_world = (Return [73; 68; 51], audio_only_world))
    by (vm_compute; reflexivity).
  split; [exact Hread |].
  destruct (updateMetadata_unreadable_is_logged_noop (cache_dir := demo_dir)
              (runtime := demo_runtime) (js "2024-01-02T00:00:00.000Z") _ _ _ _ _ Hread)
    as (err & Hupdate & _).
  - vm_compute. exact I.
  - exists err. exact Hupdate.
Defined.

Lemma migrateCacheFile_moves_once_witness :
  fst (Route.migrateCacheFile (cache_dir := demo_dir) (js "B") (js "V") (js "k") legacy_world)
  = Return ()
  /\ fs (snd (Route.migrateCacheFile (cache_dir := demo_dir) (js "B") (js "V") (js "k")
                legacy_world))
       !! Route.getCacheFilePath (cache_dir := demo_dir) (js "B") (js "V") (js "k")
     = Some (Fs.File [73; 68; 51])
  /\ exists e w2,
       Route.migrateCacheFile (cache_dir := demo_dir) (js "B") (js "V") (js "k")
         (snd (Route.migrateCacheFile (cache_dir := demo_dir) (js "B") (js "V") (js "k")
                 legacy_world))
       = (Throw e, w2).
Proof.
  assert (Hrun : Route.migrateCacheFile (cache_dir := demo_dir) (js "B") (js "V") (js "k")
                   legacy_world
                 = (Return (), snd (Route.migrateCacheFile (cache_dir := demo_dir)
                                      (js "B") (js "V") (js "k") legacy_world)))
    by (vm_compute; reflexivity).
  destruct (migrateCacheFile_moves_once (cache_dir := demo_dir) _ _ _ _ _ Hrun)
    as (audio & Hla & Hna & _ & _ & _ & Hagain).
  - vm_compute. discriminate.
  - split; [rewrite Hrun; reflexivity |]. split; [| exact Hagain].
    rewrite Hna. rewrite <- Hla. vm_compute. reflexivity.
Defined.

(** C4, as stated, fails: the second migration of the same key throws. *)
Lemma migrateCacheFile_twice_throws :
  fst (Route.migrateCacheFile (cache_dir := demo_dir) (js "B") (js "V") (js "k") legacy_world)
  = Return ()
  /\ fst (Route.migrateCacheFile (cache_dir := demo_dir) (js "B") (js "V") (js "k")
            (snd (Route.migrateCacheFile (cache_dir := demo_dir) (js "B") (js "V") (js "k")
                    legacy_world)))
     = Throw (FsError ENOENT).
Proof. split; vm_compute; reflexivity. Qed.



(** * The bulk check *)

Section Check.
Context {cache_dir : CacheDir}.

(** In an empty store no key is cached, and the check changes nothing. *)
Lemma check_isCached_empty bookKey voice cacheKey log :
  CheckRoute.isCached bookKey voice cacheKey (World ∅ log) = (Return false, World ∅ log).
Proof.
  destruct (path_join_file cacheKey) as (init & name & Hjoin).
  assert (Hmp3 : Forall (fun c => c ≠ 47%N) (js ".mp3")) by (repeat constructor; discriminate).
  assert (Hlen : (3 <= length (js ".mp3"))%nat) by (vm_compute; lia).
  unfold CheckRoute.isCached, CheckRoute.getCacheFilePath, CheckRoute.getLegacyCacheFilePath.
  rewrite (Hjoin CACHE_DIR [] _ Hmp3 Hlen).
  unfold mbind, io_bind, try_catch, access.
  destruct (truthy bookKey).
  - rewrite (Hjoin CACHE_DIR [default [] bookKey; voice] _ Hmp3 Hlen).
    rewrite node_at_snoc. simpl. rewrite lookup_empty. simpl.
    rewrite node_at_snoc. simpl. rewrite lookup_empty. reflexivity.
  - simpl. rewrite node_at_snoc. simpl. rewrite lookup_empty. reflexivity.
Qed.

(** The loop of [POST] over the texts, in an empty store: one result for
    every text, none of them cached. *)
Lemma check_loop_empty bookKey voice log texts : forall acc,
  for_of texts (fun text acc =>
    let cacheKey := CheckRoute.generateCacheKey text voice in
    cached ← CheckRoute.isCached bookKey voice cacheKey;
    mret (acc ++ [{| CheckRoute.text := text; CheckRoute.cached := cached;
                     CheckRoute.cacheKey := substring0 12 cacheKey |}])) acc
    (World ∅ log)
  = (Return (acc ++ ((fun text =>
               {| CheckRoute.text := text; CheckRoute.cached := false;
                  CheckRoute.cacheKey :=
                    substring0 12 (CheckRoute.generateCacheKey text voice) |}) <$> texts)),
     World ∅ log).
Proof.
  induction texts as [|text texts IH]; intros acc; simpl.
  - rewrite app_nil_r. reflexivity.
  - unfold mbind at 1, io_bind at 1. unfold mbind at 1, io_bind at 1.
    rewrite check_isCached_empty. simpl.
    rewrite IH, <- app_assoc. reflexivity.
Qed.

(** C6 (as amended): for the chunks ["Hello world"], ["Hello   world"] and
    ["Goodbye"] the extractor keeps all three (it drops exact repeats of a
    trimmed text only), and the bulk check against an empty store answers
    0 cached out of a total of 3, one result per text, although the first
    two texts have the same cache key.  This holds for every cache
    directory, book key and console. *)
Theorem check_counts_every_text bookKey log :
  let chunks := [js "Hello world"; js "Hello   world"; js "Goodbye"] in
  PreCache.addMarks [] (Some <$> chunks) = chunks
  /\ (exists results,
        CheckRoute.POST {| CheckRoute.texts := Some chunks;
                           CheckRoute.voice := Some (js "V");
                           CheckRoute.bookKey := bookKey |} (World ∅ log)
        = (Return (CheckRoute.Json200
                     {| CheckRoute.results := results;
                        CheckRoute.cachedCount := 0;
                        CheckRoute.totalCount := 3;
                        CheckRoute.cacheRate := 0 |}),
           World ∅ log)
        /\ CheckRoute.text <$> results = chunks)
  /\ CheckRoute.generateCacheKey (js "Hello world") (js "V")
     = CheckRoute.generateCacheKey (js "Hello   world") (js "V").
Proof.
  intros chunks. split; [vm_compute; reflexivity |]. split; [| vm_compute; reflexivity].
  eexists. unfold CheckRoute.POST, try_catch. cbn [CheckRoute.texts CheckRoute.voice CheckRoute.bookKey].
  change (truthy (Some (js "V"))) with true. cbv iota.
  unfold mbind at 1, io_bind at 1. rewrite check_loop_empty.
  split; reflexivity.
Qed.

End Check.

(** C6, as stated, fails: the total is 3, not 2. *)
Lemma check_total_is_three :
  fst (CheckRoute.POST (cache_dir := demo_dir)
         {| CheckRoute.texts := Some [js "Hello world"; js "Hello   world"; js "Goodbye"];
            CheckRoute.voice := Some (js "V");
            CheckRoute.bookKey := Some (js "abc-123") |} empty_world)
  = Return (CheckRoute.Json200
      {| CheckRoute.results :=
           [ {| CheckRoute.text := js "Hello world"; CheckRoute.cached := false;
                CheckRoute.cacheKey := js "e98c70dbc31d" |};
             {| CheckRoute.text := js "Hello   world"; CheckRoute.cached := false;
                CheckRoute.cacheKey := js "e98c70dbc31d" |};
             {| CheckRoute.text := js "Goodbye"; CheckRoute.cached := false;
                CheckRoute.cacheKey := js "0d6b877bda84" |} ];
         CheckRoute.cachedCount := 0;
         CheckRoute.totalCount := 3;
         CheckRoute.cacheRate := 0 |}).
Proof. vm_compute. reflexivity. Qed.

(** * Clearing the cache *)

(** C1 fails on the code: an entry written by [cacheAudio] lies in the nested
    layout, and [POST] of the stats route lists the files directly under the
    cache directory only.  Asked to clear book ["B"] (or everything) it
    deletes nothing, reports 0, and the entry of book ["B"] is still read. *)
Theorem evict_misses_nested_entry (runtime : JsRuntime) (metadata : Route.PartialCacheMetadata) :
  let w1 := snd (Route.cacheAudio (cache_dir := demo_dir)
                   (js "2024-01-01T00:00:00.000Z") (js "2024-01-01T00:00:00.000Z")
                   (js "B") (js "V") (js "k") [73; 68; 51] metadata empty_world) in
  Route.getCachedAudio (cache_dir := demo_dir) (js "B") (js "V") (js "k") w1
  = (Return [73; 68; 51], w1)
  /\ StatsRoute.POST (cache_dir := demo_dir)
       {| StatsRoute.bookKey := Some (js "B"); StatsRoute.voice := None |} w1
     = (Return (StatsRoute.Json200
                  {| StatsRoute.success := true; StatsRoute.deletedCount := 0;
                     StatsRoute.filter_bookKey := js "B";
                     StatsRoute.filter_voice := js "all" |}), w1)
  /\ StatsRoute.POST (cache_dir := demo_dir)
       {| StatsRoute.bookKey := None; StatsRoute.voice := None |} w1
     = (Return (StatsRoute.Json200
                  {| StatsRoute.success := true; StatsRoute.deletedCount := 0;
                     StatsRoute.filter_bookKey := js "all";
                     StatsRoute.filter_voice := js "all" |}), w1).
Proof. intros w1. repeat split; vm_compute; reflexivity. Qed.

(** * The pre-cache job *)

Import PreCache.

(** ** Traces *)

Lemma in_flight_app tr1 tr2 : in_flight (tr1 ++ tr2) = in_flight tr1 + in_flight tr2.
Proof.
  induction tr1 as [|e tr1 IH]; [reflexivity |].
  destruct e; simpl; rewrite IH; lia.
Qed.

Lemma progress_events_app tr1 tr2 :
  progress_events (tr1 ++ tr2) = progress_events tr1 ++ progress_events tr2.
Proof. apply List.filter_app. Qed.

Lemma started_app tr1 tr2 : started (tr1 ++ tr2) = started tr1 ++ started tr2.
Proof. apply omap_app. Qed.

Lemma in_flight_no_start tr :
  Forall (fun e => is_start e = false) tr -> in_flight tr <= 0 /\ started tr = [].
Proof.
  induction 1 as [|e tr He _ [IH1 IH2]]; [split; reflexivity |].
  destruct e; try discriminate; (split; [simpl; lia | exact IH2]).
Qed.

Lemma prefix_app_cases {A} (pre a b : list A) :
  pre `prefix_of` a ++ b ->
  pre `prefix_of` a \/ exists pre', pre = a ++ pre' /\ pre' `prefix_of` b.
Proof.
  revert pre. induction a as [|x a IH]; intros pre Hpre.
  - right. exists pre. auto.
  - destruct pre as [|y pre]; [left; apply prefix_nil |].
    simpl in Hpre. pose proof (prefix_cons_inv_1 _ _ _ _ Hpre) as ->.
    apply prefix_cons_inv_2 in Hpre.
    destruct (IH _ Hpre) as [Hin | (pre' & -> & Hpre')].
    + left. apply prefix_cons, Hin.
    + right. exists pre'. auto.
Qed.

(** A prefix that ends with [x] lies in the first part, or runs on into
    the second part and ends with [x] there. *)
Lemma prefix_snoc_app_cases {A} (pre0 a b : list A) (x : A) :
  pre0 ++ [x] `prefix_of` a ++ b ->
  pre0 ++ [x] `prefix_of` a
  \/ exists pre1, pre0 = a ++ pre1 /\ pre1 ++ [x] `prefix_of` b.
Proof.
  intros Hpre. destruct (prefix_app_cases _ _ _ Hpre) as [Hin | (pre' & Heq & Hpre')];
    [left; exact Hin |].
  destruct pre' as [|y pre1 _] using rev_ind.
  - left. rewrite Heq, app_nil_r. reflexivity.
  - rewrite app_assoc in Heq. apply app_inj_tail in Heq as [-> ->].
    right. exists pre1. auto.
Qed.

Lemma prefix_snoc_elem_of {A} (pre0 l : list A) (x : A) :
  pre0 ++ [x] `prefix_of` l -> x ∈ l.
Proof. intros [k ->]. set_solver. Qed.

Lemma numbered_from_app i l1 l2 :
  numbered_from i (l1 ++ l2) = numbered_from i l1 ++ numbered_from (i + length l1) l2.
Proof.
  revert i. induction l1 as [|t l1 IH]; intros i; simpl.
  - rewrite Nat.add_0_r. reflexivity.
  - rewrite IH. do 3 f_equal. lia.
Qed.

(** ** One batch *)

Section Batch.
Variable E : Env.
Variable uncachedTexts : list jsstring.

Local Abbreviation total := (length uncachedTexts).
Local Abbreviation report :=
  (fun c => updateProgress synthesizing c total (MsgSynthesized c total) None).

Lemma fulfilled_cons j rest :
  fulfilled E (j :: rest)
  = if synthesize_ok E j then S (fulfilled E rest) else fulfilled E rest.
Proof.
  unfold fulfilled. rewrite filter_cons.
  destruct (synthesize_ok E j); simpl; reflexivity.
Qed.

Lemma fulfilled_Permutation l1 l2 : l1 ≡ₚ l2 -> fulfilled E l1 = fulfilled E l2.
Proof. intros Hperm. unfold fulfilled. rewrite Hperm. reflexivity. Qed.

(** The requests of a batch settling, in any order: one report for every
    fulfilled request, numbered on from [completed]. *)
Lemma settle_spec order : forall completed,
  let run := settle E uncachedTexts total order completed in
  snd run = (completed + fulfilled E order)%nat
  /\ progress_events (fst run) = report <$> seq (S completed) (fulfilled E order)
  /\ Forall (fun e => is_start e = false) (fst run)
  /\ in_flight (fst run) = - Z.of_nat (length order)
  /\ (forall pre, pre `prefix_of` fst run -> - Z.of_nat (length order) <= in_flight pre)
  /\ (forall p, OnProgress p ∈ fst run ->
        PreCache.total p = total
        /\ percentage p = js_percentage (current p) (PreCache.total p)).
Proof.
  induction order as [|j rest IH]; intros completed; simpl.
  - change (fulfilled E []) with 0%nat.
    split; [lia |]. split; [reflexivity |]. split; [constructor |].
    split; [reflexivity |]. split.
    + intros pre ->%prefix_nil_inv. reflexivity.
    + intros p Hp. inversion Hp.
  - rewrite fulfilled_cons. destruct (synthesize_ok E j).
    + specialize (IH (S completed)). simpl in IH.
      destruct (settle E uncachedTexts total rest (S completed)) as [tr n].
      simpl in *. destruct IH as (-> & Hprog & Hnostart & Hin & Hpre & Hpct).
      split; [lia |]. split; [| split; [| split; [| split]]].
      * unfold progress_events in *. simpl. rewrite Hprog. reflexivity.
      * repeat constructor. assumption.
      * lia.
      * intros pre Hprefix.
        destruct pre as [|e1 pre]; [simpl; lia |].
        pose proof (prefix_cons_inv_1 _ _ _ _ Hprefix) as ->.
        apply prefix_cons_inv_2 in Hprefix.
        destruct pre as [|e2 pre]; [simpl; lia |].
        pose proof (prefix_cons_inv_1 _ _ _ _ Hprefix) as ->.
        apply prefix_cons_inv_2 in Hprefix. simpl.
        specialize (Hpre _ Hprefix). lia.
      * intros p Hp.
        apply elem_of_cons in Hp as [[=] | Hp].
        apply elem_of_cons in Hp as [[= ->] | Hp]; [split; reflexivity | apply Hpct, Hp].
    + specialize (IH completed). simpl in IH.
      destruct (settle E uncachedTexts total rest completed) as [tr n].
      simpl in *. destruct IH as (-> & Hprog & Hnostart & Hin & Hpre & Hpct).
      split; [lia |]. split; [| split; [| split; [| split]]].
      * exact Hprog.
      * repeat constructor. assumption.
      * lia.
      * intros pre Hprefix.
        destruct pre as [|e1 pre]; [simpl; lia |].
        pose proof (prefix_cons_inv_1 _ _ _ _ Hprefix) as ->.
        apply prefix_cons_inv_2 in Hprefix.
        destruct pre as [|e2 pre]; [simpl; lia |].
        pose proof (prefix_cons_inv_1 _ _ _ _ Hprefix) as ->.
        apply prefix_cons_inv_2 in Hprefix. simpl.
        specialize (Hpre _ Hprefix). lia.
      * intros p Hp.
        apply elem_of_cons in Hp as [[=] | Hp].
        apply elem_of_cons in Hp as [[=] | Hp]. apply Hpct, Hp.
Qed.

(** The requests of a batch leaving, one after the other. *)
Lemma starts_spec batch : forall i,
  let starts := zip_with SynthesizeStart (seq i (length batch)) batch in
  in_flight starts = Z.of_nat (length batch)
  /\ progress_events starts = []
  /\ started starts = numbered_from i batch
  /\ (forall pre, pre `prefix_of` starts -> 0 <= in_flight pre <= Z.of_nat (length batch))
  /\ (forall pre0 x, pre0 ++ [x] `prefix_of` starts ->
        exists j text, x = SynthesizeStart j text
                       /\ (i <= j < i + length batch)%nat
                       /\ in_flight pre0 = Z.of_nat (j - i)).
Proof.
  induction batch as [|text batch IH]; intros i; simpl.
  - split; [reflexivity |]. split; [reflexivity |]. split; [reflexivity |]. split.
    + intros pre ->%prefix_nil_inv. simpl. lia.
    + intros pre0 x Hpre. apply prefix_nil_inv in Hpre. destruct pre0; discriminate.
  - destruct (IH (S i)) as (Hin & Hprog & Hstarted & Hpre & Hlast).
    split; [rewrite Hin; lia |]. split; [exact Hprog |].
    split; [unfold started in *; simpl; rewrite Hstarted; reflexivity |]. split.
    + intros pre Hprefix. destruct pre as [|e pre]; [simpl; lia |].
      pose proof (prefix_cons_inv_1 _ _ _ _ Hprefix) as ->.
      apply prefix_cons_inv_2 in Hprefix. simpl.
      specialize (Hpre _ Hprefix). lia.
    + intros pre0 x Hprefix. destruct pre0 as [|e pre0].
      * simpl in Hprefix. pose proof (prefix_cons_inv_1 _ _ _ _ Hprefix) as ->.
        exists i, text. split; [reflexivity |]. split; [lia |].
        simpl. rewrite Nat.sub_diag. reflexivity.
      * simpl in Hprefix. pose proof (prefix_cons_inv_1 _ _ _ _ Hprefix) as ->.
        apply prefix_cons_inv_2 in Hprefix.
        destruct (Hlast _ _ Hprefix) as (j & text' & -> & Hj & Hfl).
        exists j, text'. split; [reflexivity |]. split; [lia |].
        simpl. rewrite Hfl. lia.
Qed.

Lemma slice_length i : (length (slice i uncachedTexts) <= BATCH_SIZE)%nat.
Proof. unfold slice. rewrite length_take. lia. Qed.

(** One batch, from its first request leaving to its last request settling. *)
Lemma process_batch_spec i completed :
  fair E ->
  let batch := slice i uncachedTexts in
  let indices := seq i (length batch) in
  let run := process_batch E uncachedTexts i completed in
  snd run = (completed + fulfilled E indices)%nat
  /\ progress_events (fst run) = report <$> seq (S completed) (fulfilled E indices)
  /\ started (fst run) = numbered_from i batch
  /\ in_flight (fst run) = 0
  /\ (forall pre, pre `prefix_of` fst run -> 0 <= in_flight pre <= Z.of_nat (length batch))
  /\ (forall pre0 j text, pre0 ++ [SynthesizeStart j text] `prefix_of` fst run ->
        (i <= j < i + length batch)%nat /\ in_flight pre0 = Z.of_nat (j - i))
  /\ (forall p, OnProgress p ∈ fst run ->
        PreCache.total p = total
        /\ percentage p = js_percentage (current p) (PreCache.total p)).
Proof.
  intros Hfair batch indices run. subst run. unfold process_batch.
  fold batch. fold indices. fold total.
  pose proof (Hfair indices) as Hperm.
  destruct (settle_spec (settle_order E indices) completed)
    as (Hn & Hprog & Hnostart & Hin & Hpre & Hpct).
  destruct (settle E uncachedTexts total (settle_order E indices) completed) as [tr n].
  simpl in *.
  destruct (starts_spec batch i) as (Sin & Sprog & Sstarted & Spre & Slast).
  fold indices in Sin, Sprog, Sstarted, Spre, Slast.
  rewrite (Permutation_length Hperm) in Hin, Hpre. unfold indices in Hin, Hpre.
  rewrite length_seq in Hin, Hpre. fold indices in Hin, Hpre.
  rewrite (fulfilled_Permutation _ _ Hperm) in Hn, Hprog.
  destruct (in_flight_no_start _ Hnostart) as [_ Hnone].
  split; [exact Hn |]. split; [| split; [| split; [| split; [| split]]]].
  - rewrite progress_events_app, Sprog. exact Hprog.
  - rewrite started_app, Sstarted, Hnone. apply app_nil_r.
  - rewrite in_flight_app. lia.
  - intros pre Hprefix.
    destruct (prefix_app_cases _ _ _ Hprefix) as [Hs | (pre' & -> & Hs)].
    + apply Spre, Hs.
    + rewrite in_flight_app. specialize (Hpre _ Hs).
      assert (in_flight pre' <= 0).
      { apply in_flight_no_start. destruct Hs as [k ->].
        apply Forall_app in Hnostart. apply Hnostart. }
      lia.
  - intros pre0 j text Hprefix.
    destruct (prefix_snoc_app_cases _ _ _ _ Hprefix) as [Hs | (pre1 & -> & Hs)].
    + destruct (Slast _ _ Hs) as (j' & text' & [= <- <-] & Hj & Hfl). auto.
    + exfalso. apply prefix_snoc_elem_of in Hs.
      rewrite Forall_forall in Hnostart. specialize (Hnostart _ Hs). discriminate.
  - intros p Hp. apply elem_of_app in Hp as [Hp | Hp]; [| apply Hpct, Hp].
    exfalso. destruct (list_elem_of_split _ _ Hp) as (l1 & l2 & Heq).
    assert (Hfilter : progress_events (zip_with SynthesizeStart indices batch) ≠ [])
      by (rewrite Heq, progress_events_app; simpl; destruct (progress_events l1); discriminate).
    congruence.
Qed.

End Batch.

(** ** The loop over the batches *)

Lemma sleeps_spec k :
  Forall (fun e => is_start e = false) (replicate k Sleep500)
  /\ (forall pre, pre `prefix_of` replicate k Sleep500 -> in_flight pre = 0)
  /\ progress_events (replicate k Sleep500) = [].
Proof.
  induction k as [|k (IH1 & IH2 & IH3)]; simpl.
  - split; [constructor |]. split; [| reflexivity].
    intros pre ->%prefix_nil_inv. reflexivity.
  - split; [constructor; [reflexivity | exact IH1] |]. split; [| exact IH3].
    intros pre Hpre. destruct pre as [|e pre]; [reflexivity |].
    pose proof (prefix_cons_inv_1 _ _ _ _ Hpre) as ->.
    apply prefix_cons_inv_2 in Hpre. simpl. apply IH2, Hpre.
Qed.

Lemma slice_numbered i (u : list jsstring) :
  numbered_from i (drop i u)
  = numbered_from i (slice i u) ++ numbered_from (i + BATCH_SIZE) (drop (i + BATCH_SIZE) u).
Proof.
  unfold slice.
  rewrite <- (take_drop BATCH_SIZE (drop i u)) at 1.
  rewrite numbered_from_app, drop_drop. f_equal.
  destruct (decide (i + BATCH_SIZE <= length u)%nat) as [Hle | Hgt].
  - rewrite length_take, length_drop. f_equal. lia.
  - rewrite (drop_ge u (i + BATCH_SIZE)) by lia. reflexivity.
Qed.

Lemma same_batch i j :
  (i mod BATCH_SIZE = 0)%nat -> (i <= j < i + BATCH_SIZE)%nat ->
  (j mod BATCH_SIZE = j - i)%nat.
Proof.
  unfold BATCH_SIZE. intros Hi Hj.
  symmetry. apply (Nat.mod_unique j 5 (i / 5)); [lia |].
  pose proof (Nat.div_mod_eq i 5). lia.
Qed.

Lemma synthesize_loop_spec E uncachedTexts i c :
  fair E -> (i mod BATCH_SIZE = 0)%nat ->
  let run := synthesize_loop E uncachedTexts i c in
  (forall pre, pre `prefix_of` fst run -> 0 <= in_flight pre <= Z.of_nat BATCH_SIZE)
  /\ in_flight (fst run) = 0
  /\ (forall pre0 j text, pre0 ++ [SynthesizeStart j text] `prefix_of` fst run ->
        in_flight pre0 = Z.of_nat (j mod BATCH_SIZE))
  /\ started (fst run) `prefix_of` numbered_from i (drop i uncachedTexts)
  /\ (snd run = true -> started (fst run) = numbered_from i (drop i uncachedTexts))
  /\ (forall p, OnProgress p ∈ fst run ->
        PreCache.total p = length uncachedTexts
        /\ percentage p = js_percentage (current p) (PreCache.total p)).
Proof.
  intros Hfair. funelim (synthesize_loop E uncachedTexts i c); intros Hi; cbn [fst snd].
  - (* the loop is over *)
    split; [intros pre ->%prefix_nil_inv; simpl; unfold BATCH_SIZE; lia |].
    split; [reflexivity |]. split.
    { intros pre0 j text0 Hpre. apply prefix_nil_inv in Hpre. destruct pre0; discriminate. }
    rewrite drop_ge by lia. simpl.
    split; [reflexivity |]. split; [reflexivity |]. intros p Hp. inversion Hp.
  - (* cancelled *)
    split.
    { intros pre Hpre. destruct pre as [|e pre]; [simpl; unfold BATCH_SIZE; lia |].
      pose proof (prefix_cons_inv_1 _ _ _ _ Hpre) as ->.
      apply prefix_cons_inv_2, prefix_nil_inv in Hpre as ->. simpl. unfold BATCH_SIZE. lia. }
    split; [reflexivity |]. split.
    { intros pre0 j text0 Hpre. apply prefix_snoc_elem_of in Hpre.
      apply list_elem_of_singleton in Hpre. discriminate. }
    split; [apply prefix_nil |]. split; [discriminate |].
    intros p Hp. apply list_elem_of_singleton in Hp. injection Hp as ->. split; reflexivity.
  - (* one batch, then the rest *)
    pose proof (process_batch_spec E uncachedTexts i completed0 Hfair) as Hb.
    pose proof (slice_length uncachedTexts i) as Hlen.
    destruct (process_batch E uncachedTexts i completed0) as [b c'] eqn:Eb.
    cbn [fst snd] in Hb. destruct Hb as (_ & _ & Bstarted & Bin & Bpre & Blast & Bpct).
    assert (Hi' : ((i + BATCH_SIZE) mod BATCH_SIZE = 0)%nat).
    { unfold BATCH_SIZE in *. rewrite <- (Nat.Div0.add_mod_idemp_l i 5 5), Hi. reflexivity. }
    match goal with IH : list event -> forall c1, fair E -> _ |- _ =>
      specialize (IH b c' Hfair Hi') end.
    destruct (synthesize_loop E uncachedTexts (i + BATCH_SIZE) c') as [tr fin].
    cbn [fst snd] in *.
    match goal with IH : _ /\ _ |- _ =>
      destruct IH as (Rpre & Rin & Rlast & Rstarted & Rfin & Rpct) end.
    destruct (sleeps_spec (paused_polls E i)) as (Snostart & Spre & Sprog).
    destruct (in_flight_no_start _ Snostart) as [_ Sstarted].
    assert (Sin : in_flight (replicate (paused_polls E i) Sleep500) = 0)
      by (apply Spre; reflexivity).
    split; [| split; [| split; [| split; [| split]]]].
    + intros pre Hpre.
      destruct (prefix_app_cases _ _ _ Hpre) as [Hs | (pre1 & -> & Hpre1)].
      { rewrite (Spre _ Hs). unfold BATCH_SIZE. lia. }
      rewrite in_flight_app, Sin.
      destruct (prefix_app_cases _ _ _ Hpre1) as [Hs | (pre2 & -> & Hpre2)].
      { specialize (Bpre _ Hs). lia. }
      rewrite in_flight_app, Bin. specialize (Rpre _ Hpre2). lia.
    + rewrite !in_flight_app. lia.
    + intros pre0 j text0 Hpre.
      destruct (prefix_snoc_app_cases _ _ _ _ Hpre) as [Hs | (pre1 & -> & Hpre1)].
      { exfalso. apply prefix_snoc_elem_of in Hs.
        rewrite Forall_forall in Snostart. specialize (Snostart _ Hs). discriminate. }
      rewrite in_flight_app, Sin.
      destruct (prefix_snoc_app_cases _ _ _ _ Hpre1) as [Hs | (pre2 & -> & Hpre2)].
      { destruct (Blast _ _ _ Hs) as [Hj ->]. rewrite same_batch with (i := i); [lia | assumption | lia]. }
      rewrite in_flight_app, Bin. rewrite (Rlast _ _ _ Hpre2). lia.
    + rewrite !started_app, Sstarted, Bstarted, slice_numbered. rewrite app_nil_l.
      apply prefix_app, Rstarted.
    + intros ->. rewrite !started_app, Sstarted, Bstarted, slice_numbered, Rfin by reflexivity.
      reflexivity.
    + intros p Hp. apply elem_of_app in Hp as [Hp | Hp].
      { apply elem_of_replicate in Hp as [[=] _]. }
      apply elem_of_app in Hp as [Hp | Hp]; [apply Bpct, Hp | apply Rpct, Hp].
Qed.

(** ** The whole job *)

Lemma updateProgress_well_reported st c t m e :
  is_progress (updateProgress st c t m e) = true
  /\ is_start (updateProgress st c t m e) = false
  /\ well_reported (updateProgress st c t m e).
Proof. repeat split. Qed.

Lemma quiet_prefix tr :
  Forall (fun e => is_progress e = true) tr ->
  (forall pre, pre `prefix_of` tr -> in_flight pre = 0)
  /\ Forall (fun e => is_start e = false) tr.
Proof.
  induction 1 as [|e tr He _ [IH1 IH2]].
  - split; [| constructor]. intros pre ->%prefix_nil_inv. reflexivity.
  - destruct e; try discriminate. split; [| constructor; [reflexivity | exact IH2]].
    intros pre Hpre. destruct pre as [|e pre]; [reflexivity |].
    pose proof (prefix_cons_inv_1 _ _ _ _ Hpre) as ->.
    apply prefix_cons_inv_2 in Hpre. simpl. apply IH1, Hpre.
Qed.

(** The trace of a job: calls of [onProgress], then possibly the loop over
    the batches, then calls of [onProgress]. *)
Lemma preCacheBook_shape E allTexts cacheStatus :
  exists before loop after,
    fst (preCacheBook E allTexts cacheStatus) = before ++ loop ++ after
    /\ Forall (fun e => is_progress e = true /\ well_reported e) before
    /\ Forall (fun e => is_progress e = true /\ well_reported e) after
    /\ (loop = [] \/ exists uncachedTexts, loop = fst (synthesize_loop E uncachedTexts 0 0)).
Proof.
  unfold preCacheBook.
  destruct allTexts as [allTexts | msg].
  2: { eexists [_; _], [], []. repeat split; repeat constructor. }
  destruct (length allTexts =? 0)%nat.
  { eexists [_; _], [], []. repeat split; repeat constructor. }
  destruct cacheStatus as [results | msg].
  2: { eexists [_; _; _], [], []. repeat split; repeat constructor. }
  destruct (length _ =? 0)%nat.
  { eexists [_; _; _], [], []. repeat split; repeat constructor. }
  destruct (synthesize_loop E _ 0 0) as [tr finished] eqn:Eloop.
  destruct finished.
  - eexists [_; _; _], tr, [_]. cbn [fst]. split; [reflexivity |].
    split; [repeat constructor |]. split; [repeat constructor |].
    right. eexists. rewrite Eloop. reflexivity.
  - eexists [_; _; _], tr, []. cbn [fst]. split; [reflexivity |].
    split; [repeat constructor |]. split; [constructor |].
    right. eexists. rewrite Eloop. reflexivity.
Qed.

(** C3 (as amended): in the synthesizing phase [onProgress] is called once
    after every fulfilled request (a batch with [n] fulfilled requests makes
    [n] calls, numbered on from the count before it; a rejected request
    makes none), and every call of a job carries the percentage
    [Math.round((current / total) * 100)] of its own counters, computed in
    double precision, which is 0 when [total] is 0. *)
Theorem progress_after_every_fulfilled_request E uncachedTexts :
  fair E ->
  (forall i done,
     let indices := seq i (length (slice i uncachedTexts)) in
     let run := process_batch E uncachedTexts i done in
     snd run = (done + fulfilled E indices)%nat
     /\ progress_events (fst run)
        = (fun c => updateProgress synthesizing c (length uncachedTexts)
                      (MsgSynthesized c (length uncachedTexts)) None)
          <$> seq (S done) (fulfilled E indices))
  /\ (forall allTexts cacheStatus e,
        e ∈ fst (preCacheBook E allTexts cacheStatus) -> well_reported e)
  /\ (forall current, js_percentage current 0 = 0%float).
Proof.
  intros Hfair. split; [| split; [| reflexivity]].
  - intros i done indices run.
    destruct (process_batch_spec E uncachedTexts i done Hfair) as (Hn & Hprog & _).
    split; assumption.
  - intros allTexts cacheStatus e He.
    destruct (preCacheBook_shape E allTexts cacheStatus)
      as (before & loop & after & Heq & Hbefore & Hafter & Hloop).
    rewrite Heq in He. rewrite Forall_forall in Hbefore, Hafter.
    apply elem_of_app in He as [He | He]; [apply Hbefore, He |].
    apply elem_of_app in He as [He | He]; [| apply Hafter, He].
    destruct Hloop as [-> | (u & ->)]; [inversion He |].
    destruct e as [p | | | |]; try exact I.
    apply (synthesize_loop_spec E u 0 0 Hfair eq_refl), He.
Qed.

Lemma progress_after_every_fulfilled_request_witness :
  fair calm
  /\ progress_events (fst (process_batch calm seven_texts 5 5))
     = [ updateProgress synthesizing 6 7 (MsgSynthesized 6 7) None;
         updateProgress synthesizing 7 7 (MsgSynthesized 7 7) None ].
Proof.
  assert (Hfair : fair calm) by (intros l; reflexivity).
  split; [exact Hfair |].
  rewrite (proj2 (proj1 (progress_after_every_fulfilled_request calm seven_texts Hfair) 5 5)%nat).
  vm_compute. reflexivity.
Defined.

(** C3, as stated, fails: one batch of two fulfilled requests makes two
    calls of [onProgress], and at 23 of 40 the code reports 57 where
    [round(current * 100 / total)] is 58. *)
Lemma progress_twice_in_one_batch :
  progress_events (fst (synthesize_loop calm [js "a"; js "b"] 0 0))
  = [ updateProgress synthesizing 1 2 (MsgSynthesized 1 2) None;
      updateProgress synthesizing 2 2 (MsgSynthesized 2 2) None ]
  /\ js_percentage 23 40 = 57%float
  /\ spec_percentage 23 40 = 58.
Proof. repeat split; vm_compute; reflexivity. Qed.

(** C7: while the batches are synthesized no more than [BATCH_SIZE] = 5
    requests are in flight at any moment; request number [j] leaves when
    [j mod 5] requests are in flight, so a batch starts only when the batch
    before it has settled; the requests leave in the order of the uncached
    texts, and all of them leave unless the job is cancelled.  The same bound
    holds over the whole trace of a job. *)
Theorem at_most_five_requests_in_flight E uncachedTexts :
  fair E ->
  let run := synthesize_loop E uncachedTexts 0 0 in
  BATCH_SIZE = 5%nat
  /\ (forall pre, pre `prefix_of` fst run -> 0 <= in_flight pre <= Z.of_nat BATCH_SIZE)
  /\ (forall pre j text, pre ++ [SynthesizeStart j text] `prefix_of` fst run ->
        in_flight pre = Z.of_nat (j mod BATCH_SIZE))
  /\ in_flight (fst run) = 0
  /\ started (fst run) `prefix_of` numbered_from 0 uncachedTexts
  /\ (snd run = true -> started (fst run) = numbered_from 0 uncachedTexts)
  /\ (forall allTexts cacheStatus pre,
        pre `prefix_of` fst (preCacheBook E allTexts cacheStatus) ->
        0 <= in_flight pre <= Z.of_nat BATCH_SIZE).
Proof.
  intros Hfair run.
  destruct (synthesize_loop_spec E uncachedTexts 0 0 Hfair eq_refl)
    as (Hpre & Hin & Hlast & Hstarted & Hfin & _).
  rewrite drop_0 in Hstarted, Hfin.
  split; [reflexivity |]. do 5 (split; [assumption |]).
  intros allTexts cacheStatus pre Hprefix.
  destruct (preCacheBook_shape E allTexts cacheStatus)
    as (before & loop & after & Heq & Hbefore & Hafter & Hloop).
  rewrite Heq in Hprefix.
  assert (Hquiet : forall l, Forall (fun e => is_progress e = true /\ well_reported e) l ->
                             forall pre, pre `prefix_of` l -> in_flight pre = 0).
  { intros l Hl. apply quiet_prefix. eapply Forall_impl; [exact Hl |]. intros e [He _]. exact He. }
  assert (Hloop' : (forall pre, pre `prefix_of` loop ->
                      0 <= in_flight pre <= Z.of_nat BATCH_SIZE) /\ in_flight loop = 0).
  { destruct Hloop as [-> | (u & ->)].
    - split; [| reflexivity]. intros pre' ->%prefix_nil_inv. simpl. unfold BATCH_SIZE. lia.
    - destruct (synthesize_loop_spec E u 0 0 Hfair eq_refl) as (Hpre' & Hin' & _). auto. }
  destruct Hloop' as [Lpre Lin].
  destruct (prefix_app_cases _ _ _ Hprefix) as [Hb | (pre1 & -> & Hpre1)].
  { rewrite (Hquiet _ Hbefore _ Hb). unfold BATCH_SIZE. lia. }
  rewrite in_flight_app, (Hquiet _ Hbefore before) by reflexivity.
  destruct (prefix_app_cases _ _ _ Hpre1) as [Hl | (pre2 & -> & Hpre2)].
  { specialize (Lpre _ Hl). lia. }
  rewrite in_flight_app, Lin, (Hquiet _ Hafter _ Hpre2). unfold BATCH_SIZE. lia.
Qed.

Lemma at_most_five_requests_in_flight_witness :
  fair calm
  /\ started (fst (synthesize_loop calm seven_texts 0 0)) = numbered_from 0 seven_texts
  /\ in_flight (fst (synthesize_loop calm seven_texts 0 0)) = 0.
Proof.
  assert (Hfair : fair calm) by (intros l; reflexivity).
  destruct (at_most_five_requests_in_flight calm seven_texts Hfair)
    as (_ & _ & _ & Hin & _ & Hall & _).
  split; [exact Hfair |]. split; [| exact Hin].
  apply Hall. vm_compute. reflexivity.
Defined.

(** A run is given by its result and its final state. *)
Lemma run_eq {A B} (run : A * B) (a : A) : fst run = a -> run = (a, snd run).
Proof. intros <-. destruct run; reflexivity. Qed.

(** * Book keys *)

Lemma split_on_first sep (h suffix : jsstring) :
  Forall (fun c => c ≠ sep) h ->
  split_on sep (h ++ sep :: suffix) = h :: split_on sep suffix.
Proof.
  induction 1 as [|c h Hc _ IH]; simpl.
  - rewrite N.eqb_refl. reflexivity.
  - rewrite IH. destruct (N.eqb_spec c sep); [contradiction | reflexivity].
Qed.

Lemma split_on_head sep (s : jsstring) :
  Forall (fun c => c ≠ sep) (hd [] (split_on sep s))
  /\ (s = hd [] (split_on sep s)
      \/ exists suffix, s = hd [] (split_on sep s) ++ sep :: suffix).
Proof.
  induction s as [|c s [IH1 IH2]]; simpl.
  - split; [constructor | left; reflexivity].
  - destruct (N.eqb_spec c sep) as [-> | Hc]; simpl.
    + split; [constructor | right; eauto].
    + destruct (split_on sep s) as [|h t] eqn:E; simpl in *.
      * split; [repeat constructor; assumption |].
        destruct IH2 as [-> | (suffix & ->)]; [left; reflexivity | right; eauto].
      * split; [constructor; assumption |].
        destruct IH2 as [-> | (suffix & ->)]; [left; reflexivity | right; eauto].
Qed.

(** X2: [extractBookHash] returns the part of the book key before its first
    ['-']: the per-session suffix does not show in it, a key without
    ['-'] is its own hash, and the result never holds a ['-'].  The check
    route has the same function. *)
Theorem extractBookHash_ignores_session_suffix :
  (forall hash suffix,
     dash_free hash -> Route.extractBookHash (hash ++ 45%N :: suffix) = hash)
  /\ (forall hash, dash_free hash -> Route.extractBookHash hash = hash)
  /\ (forall bookKey,
        dash_free (Route.extractBookHash bookKey)
        /\ (bookKey = Route.extractBookHash bookKey
            \/ exists suffix, bookKey = Route.extractBookHash bookKey ++ 45%N :: suffix))
  /\ (forall bookKey,
        CheckRoute.extractBookHash bookKey = Route.extractBookHash bookKey).
Proof.
  split; [| split; [| split]].
  - intros hash suffix Hh. unfold Route.extractBookHash.
    rewrite split_on_first by exact Hh. reflexivity.
  - intros hash Hh. unfold Route.extractBookHash.
    rewrite split_on_no_sep by exact Hh. reflexivity.
  - intros bookKey. apply split_on_head.
  - reflexivity.
Qed.

Lemma extractBookHash_ignores_session_suffix_witness :
  dash_free (js "9f8e7d")
  /\ Route.extractBookHash (js "9f8e7d-1700000000") = js "9f8e7d"
  /\ Route.extractBookHash (js "9f8e7d-1800000000") = js "9f8e7d".
Proof.
  assert (H : dash_free (js "9f8e7d")) by (repeat constructor; discriminate).
  split; [exact H |]. split.
  - exact (proj1 extractBookHash_ignores_session_suffix (js "9f8e7d") (js "1700000000") H).
  - exact (proj1 extractBookHash_ignores_session_suffix (js "9f8e7d") (js "1800000000") H).
Defined.

(** * Normal forms of texts *)

Section NormalForms.

Implicit Types (s t cur w : jsstring) (c d : N) (ws : list jsstring).

Lemma words_from_word w : forall cur s,
  Forall (fun c => is_ws c = false) w ->
  words_from cur (w ++ s) = words_from (reverse w ++ cur) s.
Proof.
  induction w as [|c w IH]; intros cur s Hw; [reflexivity |].
  inversion Hw as [|? ? Hc Hw']; subst. simpl. rewrite Hc, IH by assumption.
  rewrite reverse_cons, <- app_assoc. reflexivity.
Qed.

Lemma words_from_is_word s : forall cur,
  Forall (fun c => is_ws c = false) cur -> Forall is_word (words_from cur s).
Proof.
  assert (Hflush : forall cur, Forall (fun c => is_ws c = false) cur ->
                               Forall is_word (flush cur)).
  { intros [|c cur] Hcur; [constructor |]. repeat constructor.
    - intros Heq. apply (f_equal length) in Heq. rewrite length_reverse in Heq. discriminate.
    - apply Forall_reverse. exact Hcur. }
  induction s as [|c s IH]; intros cur Hcur; simpl.
  - apply Hflush, Hcur.
  - destruct (is_ws c) eqn:Hc.
    + apply Forall_app. split; [apply Hflush, Hcur | apply IH; constructor].
    + apply IH. constructor; assumption.
Qed.

Lemma words_unwords ws : Forall is_word ws -> words (unwords ws) = ws.
Proof.
  unfold words. induction 1 as [|w ws [Hne Hw] Hws IH]; [reflexivity |].
  assert (Hflush : flush (reverse w) = [w]).
  { rewrite flush_nonempty, reverse_involutive; [reflexivity |].
    intros Heq. apply (f_equal length) in Heq. rewrite length_reverse in Heq.
    destruct w; [congruence | discriminate]. }
  simpl. destruct ws as [|w' ws'].
  - pose proof (words_from_word w [] [] Hw) as H. rewrite !app_nil_r in H.
    rewrite H. exact Hflush.
  - rewrite words_from_word, app_nil_r by assumption.
    change (words_from (reverse w) (32%N :: unwords (w' :: ws')))
      with (flush (reverse w) ++ words_from [] (unwords (w' :: ws'))).
    rewrite Hflush, IH. reflexivity.
Qed.

Lemma trimEnd_snoc s c : is_ws c = false -> trimEnd (s ++ [c]) = s ++ [c].
Proof.
  intros Hc. induction s as [|d s IH]; simpl; [rewrite Hc; reflexivity |].
  rewrite IH. destruct (s ++ [c]) eqn:E; [destruct s; discriminate | reflexivity].
Qed.

Lemma unwords_trimmed ws : Forall is_word ws -> trim (unwords ws) = unwords ws.
Proof.
  intros Hws. destruct ws as [|w ws]; [reflexivity |].
  assert (Hlast : exists s c, unwords (w :: ws) = s ++ [c] /\ is_ws c = false).
  { revert w Hws. induction ws as [|w' ws IH]; intros w Hws.
    - apply Forall_cons in Hws as [[Hne Hw] _]. simpl.
      destruct (exists_last Hne) as (s & c & ->). exists s, c. split; [reflexivity |].
      apply Forall_app in Hw as [_ Hc]. apply Forall_cons in Hc as [Hc _]. exact Hc.
    - apply Forall_cons in Hws as [_ Hws].
      destruct (IH w' Hws) as (s & c & Heq & Hc).
      exists (w ++ 32%N :: s), c. split; [| exact Hc].
      change (unwords (w :: w' :: ws)) with (w ++ 32%N :: unwords (w' :: ws)).
      rewrite Heq, <- app_assoc. reflexivity. }
  destruct Hlast as (s & c & Heq & Hc).
  assert (Hfirst : exists d r, unwords (w :: ws) = d :: r /\ is_ws d = false).
  { apply Forall_cons in Hws as [[Hne Hw] _].
    destruct w as [|d w]; [congruence |].
    apply Forall_cons in Hw as [Hd _].
    destruct ws; simpl; eauto. }
  destruct Hfirst as (d & r & Heq' & Hd).
  unfold trim. rewrite Heq'. simpl. rewrite Hd. rewrite <- Heq', Heq.
  apply trimEnd_snoc, Hc.
Qed.

Lemma words_all_ws s : words s = [] <-> Forall (fun c => is_ws c = true) s.
Proof.
  unfold words. induction s as [|c s IH]; simpl.
  - split; [constructor | reflexivity].
  - destruct (is_ws c) eqn:Hc; simpl.
    + rewrite IH. split; [constructor; assumption |].
      intros H. apply Forall_cons in H as [_ H]. exact H.
    + split.
      * intros H. exfalso. revert H. apply words_from_nonempty. discriminate.
      * intros H. apply Forall_cons in H as [H _]. congruence.
Qed.

Lemma unwords_nil ws : Forall is_word ws -> unwords ws = [] -> ws = [].
Proof.
  intros Hws. destruct ws as [|w ws]; [reflexivity |].
  apply Forall_cons in Hws as [[Hne _] _].
  simpl. destruct ws; [congruence |].
  destruct w; [congruence | discriminate].
Qed.

(** X3: the text that is hashed is a normal form: normalising it again
    changes nothing, it has no white space at its ends, it is empty
    exactly when the text is white space only, and it has the key of
    the text it comes from. *)
Theorem normalize_idempotent text :
  normalize (normalize text) = normalize text
  /\ trim (normalize text) = normalize text
  /\ (normalize text = [] <-> Forall (fun c => is_ws c = true) text)
  /\ (forall voice,
        Route.generateCacheKey (normalize text) voice = Route.generateCacheKey text voice).
Proof.
  assert (Hwords : Forall is_word (words text)) by (apply words_from_is_word; constructor).
  assert (Hidem : normalize (normalize text) = normalize text).
  { rewrite !normalize_unwords, words_unwords by exact Hwords. reflexivity. }
  split; [exact Hidem |]. split; [| split].
  - rewrite normalize_unwords. apply unwords_trimmed, Hwords.
  - rewrite <- words_all_ws, normalize_unwords. split.
    + apply unwords_nil, Hwords.
    + intros ->. reflexivity.
  - intros voice. rewrite !generateCacheKey_normalize, Hidem. reflexivity.
Qed.

End NormalForms.

(** * The texts of a book *)

Lemma trim_idempotent (s : jsstring) : trim (trim s) = trim s.
Proof.
  unfold trim. destruct (trimStart_head s) as [-> | (c & r & -> & Hc)]; [reflexivity |].
  assert (Hhead : exists r', trimEnd (c :: r) = c :: r').
  { simpl. destruct (trimEnd r); rewrite ?Hc; eauto. }
  destruct Hhead as (r' & Heq). rewrite Heq. simpl trimStart. rewrite Hc.
  rewrite <- Heq. apply trimEnd_idemp.
Qed.

(** X4: the loop of [extractBookText] over the marks of a page keeps the
    texts collected so far, in their order, and adds the trimmed text of
    every mark that is not empty and not yet in the list, once: the
    list stays free of repetitions, and all its texts are trimmed and
    not empty. *)
Theorem addMarks_keeps_chunks_distinct allTexts marks :
  NoDup allTexts -> Forall is_chunk allTexts ->
  NoDup (addMarks allTexts marks)
  /\ Forall is_chunk (addMarks allTexts marks)
  /\ allTexts `prefix_of` addMarks allTexts marks
  /\ (forall t, t ∈ addMarks allTexts marks
                <-> t ∈ allTexts \/ (t ≠ [] /\ exists m, Some m ∈ marks /\ t = trim m)).
Proof.
  revert allTexts. induction marks as [|mark marks IH]; intros allTexts Hnd Hall.
  - simpl. split_and!; [assumption | assumption | reflexivity |].
    intros t. split; [auto |]. intros [H | (_ & m & Hm & _)]; [exact H | inversion Hm].
  - simpl. destruct mark as [m|]; simpl.
    + destruct (trim m) as [|c r] eqn:Etrim; simpl.
      * destruct (IH allTexts Hnd Hall) as (H1 & H2 & H3 & H4).
        split_and!; [assumption | assumption | assumption |].
        intros t. rewrite H4. split.
        -- intros [H | (Hne & m' & Hm' & ->)]; [auto |]. right. split; [assumption |].
           exists m'. split; [right; exact Hm' | reflexivity].
        -- intros [H | (Hne & m' & Hm' & ->)]; [auto |].
           apply elem_of_cons in Hm' as [[= <-] | Hm']; [congruence |].
           right. eauto.
      * case_bool_decide as Hin; simpl.
        -- destruct (IH allTexts Hnd Hall) as (H1 & H2 & H3 & H4).
           split_and!; [assumption | assumption | assumption |].
           intros t. rewrite H4. split.
           ++ intros [H | (Hne & m' & Hm' & ->)]; [auto |]. right. split; [assumption |].
              exists m'. split; [right; exact Hm' | reflexivity].
           ++ intros [H | (Hne & m' & Hm' & ->)]; [auto |].
              apply elem_of_cons in Hm' as [[= <-] | Hm']; [| right; eauto].
              left. rewrite Etrim. exact Hin.
        -- assert (Hnd' : NoDup (allTexts ++ [c :: r])).
           { apply NoDup_app. repeat split; [assumption | | apply NoDup_singleton].
             intros x Hx ->%list_elem_of_singleton. contradiction. }
           assert (Hall' : Forall is_chunk (allTexts ++ [c :: r])).
           { apply Forall_app. split; [assumption |]. repeat constructor; [discriminate |].
             rewrite <- Etrim. apply trim_idempotent. }
           destruct (IH _ Hnd' Hall') as (H1 & H2 & H3 & H4).
           split_and!; [assumption | assumption | |].
           ++ etransitivity; [| exact H3]. apply prefix_app_r. reflexivity.
           ++ intros t. rewrite H4, elem_of_app, list_elem_of_singleton. split.
              ** intros [[H | ->] | (Hne & m' & Hm' & ->)]; [auto | |].
                 --- right. split; [discriminate |]. exists m. split; [left | auto].
                 --- right. split; [assumption |]. exists m'. split; [right; exact Hm' | reflexivity].
              ** intros [H | (Hne & m' & Hm' & ->)]; [auto |].
                 apply elem_of_cons in Hm' as [[= <-] | Hm']; [| right; eauto].
                 left. right. exact Etrim.
    + destruct (IH allTexts Hnd Hall) as (H1 & H2 & H3 & H4).
      split_and!; [assumption | assumption | assumption |].
      intros t. rewrite H4. split.
      * intros [H | (Hne & m' & Hm' & ->)]; [auto |]. right. split; [assumption |].
        exists m'. split; [right; exact Hm' | reflexivity].
      * intros [H | (Hne & m' & Hm' & ->)]; [auto |].
        apply elem_of_cons in Hm' as [[=] | Hm']. right. eauto.
Qed.

Lemma addMarks_keeps_chunks_distinct_witness :
  addMarks [js "One."] [Some (js " Two. "); None; Some (js "One. "); Some (js "Two.")]
  = [js "One."; js "Two."]
  /\ NoDup (addMarks [js "One."]
              [Some (js " Two. "); None; Some (js "One. "); Some (js "Two.")]).
Proof.
  split; [vm_compute; reflexivity |].
  apply (addMarks_keeps_chunks_distinct [js "One."]).
  - apply NoDup_singleton.
  - apply Forall_cons. split; [| constructor].
    split; [discriminate | vm_compute; reflexivity].
Defined.

(** * Where the entries lie *)

Lemma foldl_push_component_kept (comps : list jsstring) : forall base,
  js ".." ∉ comps ->
  foldl push_component base comps
  = base ++ List.filter (fun seg => negb (bool_decide (seg = [] ∨ seg = js "."))) comps.
Proof.
  induction comps as [|seg comps IH]; intros base Hno; simpl.
  - symmetry. apply app_nil_r.
  - apply not_elem_of_cons in Hno as [Hseg Hno].
    rewrite IH by exact Hno. unfold push_component.
    case_bool_decide as Hskip; simpl; [reflexivity |].
    rewrite bool_decide_eq_false_2 by congruence.
    rewrite <- app_assoc. reflexivity.
Qed.

Lemma path_join_kept (base : path) (args : list jsstring) :
  Forall no_dotdot args -> path_join base args = base ++ kept_components args.
Proof.
  intros Hargs. apply foldl_push_component_kept.
  intros Hin. apply list_elem_of_bind in Hin as (arg & Hin & Harg).
  rewrite Forall_forall in Hargs. exact (Hargs arg Harg Hin).
Qed.

Lemma hex_digit_not_slash (s : jsstring) : Forall is_hex_digit s -> slash_free s.
Proof.
  intros Hs. eapply Forall_impl; [exact Hs |].
  intros c Hc ->. unfold is_hex_digit in Hc. lia.
Qed.

Lemma plain_split (s : jsstring) : plain s -> split_on 47%N s = [s].
Proof. intros (_ & Hs & _). apply split_on_no_sep, Hs. Qed.

Section Places.
Context {cache_dir : CacheDir}.

Lemma getCacheFilePath_plain bookKey voice cacheKey :
  slash_free cacheKey ->
  Route.getCacheFilePath bookKey voice cacheKey
  = path_join CACHE_DIR [bookKey; voice] ++ [cacheKey ++ js ".mp3"].
Proof.
  intros Hk. apply (path_join_plain_file CACHE_DIR [bookKey; voice]); [assumption | |].
  - repeat constructor; discriminate.
  - simpl. lia.
Qed.

(** X5: when no component of the book key and of the voice is [".."], the
    audio and the metadata of every text lie inside the cache directory,
    under the directories the book key and the voice name, in a file
    named by the key. *)
Theorem cache_paths_stay_inside bookKey voice text :
  no_dotdot bookKey -> no_dotdot voice ->
  let cacheKey := Route.generateCacheKey text voice in
  let dirs := kept_components [bookKey; voice] in
  Route.getCacheFilePath bookKey voice cacheKey
  = CACHE_DIR ++ dirs ++ [cacheKey ++ js ".mp3"]
  /\ Route.getMetadataFilePath bookKey voice cacheKey
     = CACHE_DIR ++ dirs ++ [cacheKey ++ js ".meta.json"].
Proof.
  intros Hb Hv cacheKey dirs.
  assert (Hk : slash_free cacheKey) by apply hex_digit_not_slash, md5_hex_shape.
  assert (Hdirs : path_join CACHE_DIR [bookKey; voice] = CACHE_DIR ++ dirs)
    by (apply path_join_kept; repeat constructor; assumption).
  split.
  - rewrite getCacheFilePath_plain, Hdirs, <- app_assoc by assumption. reflexivity.
  - rewrite getMetadataFilePath_plain, Hdirs, <- app_assoc by assumption. reflexivity.
Qed.

(** X6: the voice is joined to the path as it comes: a voice [../../v]
    puts the entry of every book beside the cache directory, in the
    directory [v] of its parent. *)
Theorem voice_with_dotdot_leaves_cache_dir bookKey v cacheKey :
  plain bookKey -> plain v -> slash_free cacheKey ->
  Route.getCacheFilePath bookKey (js "../../" ++ v) cacheKey
  = removelast CACHE_DIR ++ [v; cacheKey ++ js ".mp3"]
  /\ Route.getMetadataFilePath bookKey (js "../../" ++ v) cacheKey
     = removelast CACHE_DIR ++ [v; cacheKey ++ js ".meta.json"].
Proof.
  intros Hb Hv Hk.
  assert (Hsplit : split_on 47%N (js "../../" ++ v) = [js ".."; js ".."; v]).
  { change (js "../../" ++ v) with (js ".." ++ 47%N :: js ".." ++ 47%N :: v).
    rewrite split_on_first by (repeat constructor; discriminate).
    rewrite split_on_first by (repeat constructor; discriminate).
    rewrite (plain_split v Hv). reflexivity. }
  assert (Hdir : path_join CACHE_DIR [bookKey; js "../../" ++ v] = removelast CACHE_DIR ++ [v]).
  { unfold path_join.
    change ([bookKey; js "../../" ++ v] ≫= split_on 47%N)
      with (split_on 47%N bookKey ++ split_on 47%N (js "../../" ++ v) ++ []).
    rewrite (plain_split bookKey Hb), Hsplit, app_nil_r.
    cbn [app foldl].
    destruct Hb as (Hb1 & _ & Hb2 & Hb3). destruct Hv as (Hv1 & _ & Hv2 & Hv3).
    assert (Hpush : forall stack seg, seg ≠ [] -> seg ≠ js "." -> seg ≠ js ".." ->
                                      push_component stack seg = stack ++ [seg]).
    { intros stack seg H1 H2 H3. unfold push_component.
      rewrite bool_decide_eq_false_2 by (intros [? | ?]; contradiction).
      rewrite bool_decide_eq_false_2 by assumption. reflexivity. }
    rewrite (Hpush _ bookKey) by assumption.
    change (push_component (CACHE_DIR ++ [bookKey]) (js ".."))
      with (removelast (CACHE_DIR ++ [bookKey])).
    rewrite removelast_last.
    change (push_component CACHE_DIR (js "..")) with (removelast CACHE_DIR).
    apply Hpush; assumption. }
  split.
  - rewrite getCacheFilePath_plain, Hdir, <- app_assoc by assumption. reflexivity.
  - rewrite getMetadataFilePath_plain, Hdir, <- app_assoc by assumption. reflexivity.
Qed.

End Places.

Lemma cache_paths_stay_inside_witness :
  no_dotdot (js "9f8e7d") /\ no_dotdot (js "Ly")
  /\ Route.getCacheFilePath (cache_dir := demo_dir) (js "9f8e7d") (js "Ly")
       (Route.generateCacheKey (js "Hello") (js "Ly"))
     = [js "srv"; js "tts-cache"; js "9f8e7d"; js "Ly";
        Route.generateCacheKey (js "Hello") (js "Ly") ++ js ".mp3"].
Proof.
  assert (Hb : no_dotdot (js "9f8e7d")).
  { intros Hin. vm_compute in Hin. apply list_elem_of_singleton in Hin. discriminate. }
  assert (Hv : no_dotdot (js "Ly")).
  { intros Hin. vm_compute in Hin. apply list_elem_of_singleton in Hin. discriminate. }
  split; [exact Hb |]. split; [exact Hv |].
  exact (proj1 (cache_paths_stay_inside (cache_dir := demo_dir) _ _ (js "Hello") Hb Hv)).
Defined.

Lemma voice_with_dotdot_leaves_cache_dir_witness :
  plain (js "B") /\ plain (js "etc") /\ slash_free (js "k")
  /\ Route.getCacheFilePath (cache_dir := demo_dir) (js "B") (js "../../etc") (js "k")
     = [js "srv"; js "etc"; js "k.mp3"].
Proof.
  assert (Hb : plain (js "B")).
  { split; [discriminate |]. split; [repeat constructor; discriminate |].
    split; discriminate. }
  assert (Hv : plain (js "etc")).
  { split; [discriminate |]. split; [repeat constructor; discriminate |].
    split; discriminate. }
  assert (Hk : slash_free (js "k")) by (repeat constructor; discriminate).
  split; [exact Hb |]. split; [exact Hv |]. split; [exact Hk |].
  exact (proj1 (voice_with_dotdot_leaves_cache_dir (cache_dir := demo_dir) _ _ _ Hb Hv Hk)).
Defined.

(** * More on the cache store *)

Lemma lookup_set_field_eq name x fields :
  lookup_field name (set_field name x fields) = Some x.
Proof.
  induction fields as [|[n y] rest IH]; simpl.
  - rewrite bool_decide_eq_true_2 by reflexivity. reflexivity.
  - case_bool_decide as Hn; simpl.
    + rewrite bool_decide_eq_true_2 by assumption. reflexivity.
    + rewrite bool_decide_eq_false_2 by assumption. exact IH.
Qed.

Lemma lookup_set_field_ne name name' x fields :
  name ≠ name' -> lookup_field name' (set_field name x fields) = lookup_field name' fields.
Proof.
  intros Hne. induction fields as [|[n y] rest IH]; simpl.
  - rewrite bool_decide_eq_false_2 by assumption. reflexivity.
  - case_bool_decide as Hn; simpl.
    + subst n. rewrite !bool_decide_eq_false_2 by assumption. reflexivity.
    + case_bool_decide; [reflexivity | exact IH].
Qed.

Lemma mp3_name_neq_meta_name (name name' : jsstring) :
  name ++ js ".mp3" ≠ name' ++ js ".meta.json".
Proof.
  intros Heq. apply (f_equal (@last N)) in Heq.
  change (js ".mp3") with ([46; 109; 112]%N ++ [51%N]) in Heq.
  change (js ".meta.json") with ([46; 109; 101; 116; 97; 46; 106; 115; 111]%N ++ [110%N]) in Heq.
  rewrite !app_assoc, !last_snoc in Heq. discriminate.
Qed.

Section StoreMore.
Context {cache_dir : CacheDir} {runtime : JsRuntime}.

Lemma audio_path_neq_meta_path bookKey voice cacheKey bookKey' voice' cacheKey' :
  Route.getCacheFilePath bookKey voice cacheKey
  ≠ Route.getMetadataFilePath bookKey' voice' cacheKey'.
Proof.
  destruct (cache_paths bookKey voice cacheKey) as (nested & flat & name & -> & _).
  destruct (cache_paths bookKey' voice' cacheKey') as (nested' & flat' & name' & _ & -> & _).
  apply snoc_neq_name, mp3_name_neq_meta_name.
Qed.

(** What [cacheAudio] leaves behind, whether it returns or throws. *)
Lemma cacheAudio_inv created lastUsed bookKey voice cacheKey audioBuffer metadata w r w' :
  Route.cacheAudio created lastUsed bookKey voice cacheKey audioBuffer metadata w = (r, w') ->
  exists t0 log,
    only_adds_dirs (fs w) t0 /\ console w' = console w ++ log
    /\ ((exists metaData,
           r = Return ()
           /\ fs w' = <[Route.getMetadataFilePath bookKey voice cacheKey := Fs.File metaData]>
                        (<[Route.getCacheFilePath bookKey voice cacheKey
                           := Fs.File audioBuffer]> t0))
        \/ (exists e, r = Throw e
                      /\ (fs w' = t0
                          \/ fs w' = <[Route.getCacheFilePath bookKey voice cacheKey
                                       := Fs.File audioBuffer]> t0))).
Proof.
  unfold Route.cacheAudio, mbind, io_bind.
  destruct (ensureCacheDir_spec (Some bookKey) (Some voice) w) as (t0 & log & -> & Hadd).
  intros Hrun. exists t0, log. split; [exact Hadd |].
  destruct (writeFile _ audioBuffer _) as [r1 w1] eqn:E1.
  apply writeFile_inv in E1 as [(-> & -> & _) | (e & -> & ->)].
  - destruct (writeFile _ _ _) as [r2 w2] eqn:E2.
    apply writeFile_inv in E2 as [(-> & -> & _) | (e & -> & ->)];
      injection Hrun as <- <-; simpl; (split; [reflexivity |]).
    + left. eauto.
    + right. eauto.
  - injection Hrun as <- <-. simpl. split; [reflexivity |]. right. eauto.
Qed.

(** X7: whatever [cacheAudio] does, returning or throwing, every file other
    than the audio and the metadata of its entry keeps its content, and
    no other file appears. *)
Theorem cacheAudio_keeps_other_files created lastUsed bookKey voice cacheKey audioBuffer
    metadata (w : world) :
  let run := Route.cacheAudio created lastUsed bookKey voice cacheKey audioBuffer metadata w in
  forall p data,
    p ≠ Route.getCacheFilePath bookKey voice cacheKey ->
    p ≠ Route.getMetadataFilePath bookKey voice cacheKey ->
    fs (snd run) !! p = Some (Fs.File data) <-> fs w !! p = Some (Fs.File data).
Proof.
  intros run p data Hpa Hpm.
  destruct run as [r w'] eqn:Hrun. unfold run in Hrun.
  destruct (cacheAudio_inv _ _ _ _ _ _ _ _ _ _ Hrun)
    as (t0 & log & Hadd & _ & [(metaData & _ & Hfs) | (e & _ & [Hfs | Hfs])]);
    simpl; rewrite Hfs, ?lookup_insert_ne by congruence;
    apply only_adds_dirs_file, Hadd.
Qed.

Lemma isCached_hit bookKey voice cacheKey w :
  is_Some (fs w !! Route.getCacheFilePath bookKey voice cacheKey) ->
  Route.isCached bookKey voice cacheKey w = (Return true, w).
Proof.
  destruct (cache_paths bookKey voice cacheKey) as (nested & flat & name & Hna & _).
  unfold Route.isCached, try_catch, mbind, io_bind, access.
  rewrite Hna, node_at_snoc. intros [x ->]. reflexivity.
Qed.

Lemma isCached_miss bookKey voice cacheKey w :
  fs w !! Route.getCacheFilePath bookKey voice cacheKey = None ->
  fs w !! Route.getLegacyCacheFilePath cacheKey = None ->
  Route.isCached bookKey voice cacheKey w = (Return false, w).
Proof.
  destruct (cache_paths bookKey voice cacheKey) as (nested & flat & name & Hna & _ & Hla & _).
  unfold Route.isCached, try_catch, mbind, io_bind, access.
  rewrite Hna, Hla, node_at_snoc. intros -> Hlegacy. simpl.
  rewrite node_at_snoc, Hlegacy. reflexivity.
Qed.

(** [updateMetadata] returns in every state, and changes the metadata file
    at most. *)
Lemma updateMetadata_frame now bookKey voice cacheKey w :
  exists w', Route.updateMetadata now bookKey voice cacheKey w = (Return (), w')
             /\ forall p, p ≠ Route.getMetadataFilePath bookKey voice cacheKey ->
                          fs w' !! p = fs w !! p.
Proof.
  assert (Hnever : never_throws (Route.updateMetadata now bookKey voice cacheKey)).
  { apply never_throws_try_catch. intros e. apply never_throws_write_console. }
  assert (Htouch : touches_only (fun p => p = Route.getMetadataFilePath bookKey voice cacheKey)
                     (Route.updateMetadata now bookKey voice cacheKey)).
  { unfold Route.updateMetadata, readFile_utf8. auto 20 with io. }
  destruct (Hnever w) as ([] & w' & Hrun). exists w'. split; [exact Hrun |].
  intros p Hp. exact (Htouch _ _ _ Hrun p Hp).
Qed.

(** X8: when the metadata of an entry holds an object, [updateMetadata]
    writes it back with [lastUsed] set to the time of the call and
    [useCount] one more (in double precision), every other property as
    it was; nothing else in the store changes and nothing is logged. *)
Theorem updateMetadata_counts_the_use now bookKey voice cacheKey data fields (w : world) :
  let metaPath := Route.getMetadataFilePath bookKey voice cacheKey in
  fs w !! metaPath = Some (Fs.File data) ->
  Fs.node_at (fs w) (Fs.parent metaPath) = Some Fs.Dir ->
  JSON_parse (utf8_decode data) = Some (JObj fields) ->
  exists fields',
    Route.updateMetadata now bookKey voice cacheKey w
    = (Return (),
       World (<[metaPath := Fs.File (MD5.utf8 (JSON_stringify (JObj fields')))]> (fs w))
             (console w))
    /\ lookup_field (js "lastUsed") fields' = Some (JStr now)
    /\ lookup_field (js "useCount") fields'
       = Some (JNum (to_number (lookup_field (js "useCount") fields) + 1)%float)
    /\ (forall name, name ≠ js "lastUsed" -> name ≠ js "useCount" ->
          lookup_field name fields' = lookup_field name fields).
Proof.
  intros metaPath Hfile Hparent Hparse.
  destruct (cache_paths bookKey voice cacheKey) as (nested & flat & name & _ & Hnm & _).
  assert (Hne : js "lastUsed" ≠ js "useCount") by discriminate.
  exists (set_field (js "useCount")
            (JNum (to_number (lookup_field (js "useCount") fields) + 1)%float)
            (set_field (js "lastUsed") (JStr now) fields)).
  split; [| split; [| split]].
  - unfold Route.updateMetadata, try_catch, readFile_utf8, mbind, io_bind, readFile.
    fold metaPath. unfold metaPath in *. rewrite Hnm in *.
    rewrite node_at_snoc, Hfile. simpl. rewrite Hparse. simpl.
    rewrite (lookup_set_field_ne _ _ _ _ Hne).
    unfold writeFile. simpl. rewrite node_at_snoc, Hfile, Hparent. reflexivity.
  - rewrite lookup_set_field_ne by congruence. apply lookup_set_field_eq.
  - apply lookup_set_field_eq.
  - intros n Hn1 Hn2. rewrite !lookup_set_field_ne by congruence. reflexivity.
Qed.

End StoreMore.

Lemma cacheAudio_keeps_other_files_witness :
  let run := Route.cacheAudio (cache_dir := demo_dir) (runtime := demo_runtime)
               (js "2024-01-01T00:00:00.000Z") (js "2024-01-01T00:00:00.000Z")
               (js "B") (js "V") (js "k2") [1; 2]
               {| Route.meta_text := None; Route.meta_voice := None;
                  Route.meta_bookKey := None |} audio_only_world in
  fs (snd run) !! [js "srv"; js "tts-cache"; js "B"; js "V"; js "k.mp3"]
  = Some (Fs.File [73; 68; 51]).
Proof.
  intros run.
  apply (cacheAudio_keeps_other_files (cache_dir := demo_dir) (runtime := demo_runtime)).
  - vm_compute. discriminate.
  - vm_compute. discriminate.
  - vm_compute. reflexivity.
Defined.

Lemma updateMetadata_counts_the_use_witness :
  exists fields',
    fst (Route.updateMetadata (cache_dir := demo_dir) (runtime := counting_runtime)
           (js "2024-01-02T00:00:00.000Z") (js "B") (js "V") (js "k") entry_world)
    = Return ()
    /\ lookup_field (js "lastUsed") fields' = Some (JStr (js "2024-01-02T00:00:00.000Z"))
    /\ lookup_field (js "useCount") fields' = Some (JNum 2%float).
Proof.
  destruct (updateMetadata_counts_the_use (cache_dir := demo_dir) (runtime := counting_runtime)
              (js "2024-01-02T00:00:00.000Z") (js "B") (js "V") (js "k") [123; 125]
              [(js "useCount", JNum 1%float)] entry_world)
    as (fields' & Hrun & Hlast & Hcount & _).
  - vm_compute. reflexivity.
  - vm_compute. reflexivity.
  - reflexivity.
  - exists fields'. split; [rewrite Hrun; reflexivity |]. split; [exact Hlast |].
    rewrite Hcount. vm_compute. reflexivity.
Defined.

(** * More on the bulk check *)

Section CheckMore.
Context {cache_dir : CacheDir}.

Lemma check_paths bookKey voice cacheKey :
  exists nested flat name,
    CheckRoute.getCacheFilePath bookKey voice cacheKey = nested ++ [name ++ js ".mp3"]
    /\ CheckRoute.getLegacyCacheFilePath cacheKey = flat ++ [name ++ js ".mp3"].
Proof.
  destruct (path_join_file cacheKey) as (init & name & Hjoin).
  assert (Hmp3 : Forall (fun c => c ≠ 47%N) (js ".mp3")) by (repeat constructor; discriminate).
  assert (Hlen : (3 <= length (js ".mp3"))%nat) by (vm_compute; lia).
  unfold CheckRoute.getCacheFilePath, CheckRoute.getLegacyCacheFilePath.
  destruct (truthy bookKey).
  - eexists _, _, name. split.
    + apply (Hjoin CACHE_DIR [default [] bookKey; voice] _ Hmp3 Hlen).
    + apply (Hjoin CACHE_DIR [] _ Hmp3 Hlen).
  - eexists _, _, name. split; apply (Hjoin CACHE_DIR [] _ Hmp3 Hlen).
Qed.

(** The existence check of the check route reads and never writes. *)
Lemma check_isCached_spec bookKey voice cacheKey w :
  exists b, CheckRoute.isCached bookKey voice cacheKey w = (Return b, w)
            /\ (b = true <-> check_finds w bookKey voice cacheKey).
Proof.
  destruct (check_paths bookKey voice cacheKey) as (nested & flat & name & Hna & Hla).
  unfold CheckRoute.isCached, check_finds, mbind, io_bind, try_catch, access.
  rewrite Hla. destruct (truthy bookKey) eqn:Hb.
  - rewrite Hna, node_at_snoc.
    destruct (fs w !! (nested ++ [name ++ js ".mp3"])) as [x|] eqn:E1; simpl.
    + exists true. split; [reflexivity |]. split; [eauto | reflexivity].
    + rewrite node_at_snoc.
      destruct (fs w !! (flat ++ [name ++ js ".mp3"])) as [y|] eqn:E2; simpl.
      * exists true. split; [reflexivity |]. split; [eauto | reflexivity].
      * exists false. split; [reflexivity |]. split; [discriminate |].
        intros [[_ [? ?]] | [? ?]]; discriminate.
  - simpl. rewrite node_at_snoc.
    destruct (fs w !! (flat ++ [name ++ js ".mp3"])) as [y|] eqn:E2; simpl.
    + exists true. split; [reflexivity |]. split; [eauto | reflexivity].
    + exists false. split; [reflexivity |]. split; [discriminate |].
      intros [[? _] | [? ?]]; discriminate.
Qed.

Lemma check_loop_spec bookKey voice w texts : forall acc,
  exists results,
    for_of texts (fun text acc =>
      let cacheKey := CheckRoute.generateCacheKey text voice in
      cached ← CheckRoute.isCached bookKey voice cacheKey;
      mret (acc ++ [{| CheckRoute.text := text; CheckRoute.cached := cached;
                       CheckRoute.cacheKey := substring0 12 cacheKey |}])) acc w
    = (Return (acc ++ results), w)
    /\ CheckRoute.text <$> results = texts
    /\ Forall (fun r =>
         CheckRoute.cacheKey r
         = substring0 12 (CheckRoute.generateCacheKey (CheckRoute.text r) voice)
         /\ (CheckRoute.cached r = true
             <-> check_finds w bookKey voice
                   (CheckRoute.generateCacheKey (CheckRoute.text r) voice))) results.
Proof.
  induction texts as [|text texts IH]; intros acc.
  - exists []. simpl. rewrite app_nil_r. repeat split. constructor.
  - destruct (check_isCached_spec bookKey voice (CheckRoute.generateCacheKey text voice) w)
      as (b & Hb & Hfinds).
    simpl. unfold mbind at 1, io_bind at 1. unfold mbind at 1, io_bind at 1.
    rewrite Hb. simpl.
    edestruct IH as (results & Hrun & Htexts & Hall).
    exists ({| CheckRoute.text := text; CheckRoute.cached := b;
               CheckRoute.cacheKey :=
                 substring0 12 (CheckRoute.generateCacheKey text voice) |} :: results).
    split; [| split].
    + rewrite Hrun, <- app_assoc. reflexivity.
    + rewrite fmap_cons. f_equal. exact Htexts.
    + constructor; [| exact Hall]. simpl. split; [reflexivity | exact Hfinds].
Qed.

(** X9: the bulk check never writes and never fails: without a list of
    texts or without a voice it answers 400; otherwise it answers one
    result for every text, in the order of the texts, each with the first
    12 digits of its key and with [cached] set exactly when the entry is
    found under the stable hash of the book key or in the flat layout;
    [totalCount] is the number of texts and [cachedCount] the number of
    results that are cached. *)
Theorem check_POST_reads_only (body : CheckRoute.CheckRequest) (w : world) :
  (CheckRoute.texts body = None \/ truthy (CheckRoute.voice body) = false ->
   CheckRoute.POST body w = (Return CheckRoute.Json400, w))
  /\ (forall texts,
        CheckRoute.texts body = Some texts -> truthy (CheckRoute.voice body) = true ->
        let voice := default [] (CheckRoute.voice body) in
        let book := if truthy (CheckRoute.bookKey body)
                    then Some (CheckRoute.extractBookHash (default [] (CheckRoute.bookKey body)))
                    else None in
        exists results rate,
          CheckRoute.POST body w
          = (Return (CheckRoute.Json200
                       {| CheckRoute.results := results;
                          CheckRoute.cachedCount := length (List.filter CheckRoute.cached results);
                          CheckRoute.totalCount := length texts;
                          CheckRoute.cacheRate := rate |}), w)
          /\ CheckRoute.text <$> results = texts
          /\ (length (List.filter CheckRoute.cached results) <= length texts)%nat
          /\ Forall (fun r =>
               CheckRoute.cacheKey r
               = substring0 12 (CheckRoute.generateCacheKey (CheckRoute.text r) voice)
               /\ (CheckRoute.cached r = true
                   <-> check_finds w book voice
                         (CheckRoute.generateCacheKey (CheckRoute.text r) voice))) results).
Proof.
  split.
  - intros Hbad. unfold CheckRoute.POST, try_catch.
    destruct (CheckRoute.texts body) as [texts|]; [| reflexivity].
    destruct Hbad as [? | ->]; [discriminate | reflexivity].
  - intros texts Htexts Hvoice voice book.
    unfold CheckRoute.POST, try_catch. rewrite Htexts, Hvoice.
    cbv zeta. unfold mbind at 1, io_bind at 1.
    destruct (check_loop_spec book voice w texts []) as (results & Hrun & Hres & Hall).
    cbv zeta in Hrun. unfold book, voice in Hrun. rewrite app_nil_l in Hrun.
    rewrite Hrun. simpl.
    exists results. eexists. split; [| split; [| split]].
    + rewrite <- Hres, length_fmap. reflexivity.
    + exact Hres.
    + rewrite <- Hres, length_fmap. apply List.filter_length_le.
    + exact Hall.
Qed.

End CheckMore.

Lemma check_POST_reads_only_witness :
  exists results rate,
    CheckRoute.POST (cache_dir := demo_dir)
      {| CheckRoute.texts := Some [js "Hello"; js "Goodbye"];
         CheckRoute.voice := Some (js "V");
         CheckRoute.bookKey := Some (js "B-1") |} legacy_world
    = (Return (CheckRoute.Json200
                 {| CheckRoute.results := results;
                    CheckRoute.cachedCount := length (List.filter CheckRoute.cached results);
                    CheckRoute.totalCount := 2;
                    CheckRoute.cacheRate := rate |}), legacy_world)
    /\ CheckRoute.text <$> results = [js "Hello"; js "Goodbye"].
Proof.
  destruct (proj2 (check_POST_reads_only (cache_dir := demo_dir)
              {| CheckRoute.texts := Some [js "Hello"; js "Goodbye"];
                 CheckRoute.voice := Some (js "V");
                 CheckRoute.bookKey := Some (js "B-1") |} legacy_world)
              [js "Hello"; js "Goodbye"] eq_refl eq_refl)
    as (results & rate & Hrun & Htexts & _).
  exists results, rate. split; [exact Hrun | exact Htexts].
Defined.

(** * The synthesis route *)

(** [mkdir] makes directories along the path it is given only. *)
Lemma mkdir_from_off_path rest : forall done t r t' p,
  Fs.mkdir_from done rest t = (r, t') ->
  ~ p `prefix_of` done ++ rest -> t' !! p = t !! p.
Proof.
  induction rest as [|seg rest IH]; intros done t r t' p; simpl.
  - intros [= _ <-]. reflexivity.
  - intros Hmk Hoff.
    assert (Hp : done ++ [seg] ≠ p).
    { intros <-. apply Hoff. exists rest. rewrite <- app_assoc. reflexivity. }
    assert (Hoff' : ~ p `prefix_of` (done ++ [seg]) ++ rest)
      by (rewrite <- app_assoc; exact Hoff).
    destruct (t !! (done ++ [seg])) as [[data|]|] eqn:E.
    + injection Hmk as _ <-. reflexivity.
    + eapply IH; eauto.
    + rewrite (IH _ _ _ _ _ Hmk Hoff'). apply lookup_insert_ne, Hp.
Qed.

Lemma plain_push stack seg : plain seg -> push_component stack seg = stack ++ [seg].
Proof.
  intros (H1 & _ & H2 & H3). unfold push_component.
  rewrite bool_decide_eq_false_2 by (intros [? | ?]; contradiction).
  rewrite bool_decide_eq_false_2 by assumption. reflexivity.
Qed.

Lemma path_join_plain base (args : list jsstring) :
  Forall plain args -> path_join base args = base ++ args.
Proof.
  unfold path_join. revert base. induction args as [|arg args IH]; intros base Hargs.
  - simpl. symmetry. apply app_nil_r.
  - apply Forall_cons in Hargs as [Harg Hargs].
    change ((arg :: args) ≫= split_on 47%N)
      with (split_on 47%N arg ++ (args ≫= split_on 47%N)).
    rewrite (plain_split arg Harg). cbn [app foldl].
    rewrite (plain_push _ _ Harg), IH by assumption.
    rewrite <- app_assoc. reflexivity.
Qed.

Lemma path_join_plain2 base (a b : jsstring) :
  plain a -> plain b -> path_join base [a; b] = base ++ [a; b].
Proof.
  intros Ha Hb. apply path_join_plain.
  apply Forall_cons. split; [exact Ha |]. apply Forall_cons. split; [exact Hb | constructor].
Qed.

Lemma plain_default : plain (js "_default").
Proof.
  split; [discriminate |]. split; [repeat constructor; discriminate |].
  split; discriminate.
Qed.

Section SynthesisStore.
Context {cache_dir : CacheDir} {runtime : JsRuntime}.

Lemma getLegacyCacheFilePath_plain cacheKey :
  slash_free cacheKey ->
  Route.getLegacyCacheFilePath cacheKey = CACHE_DIR ++ [cacheKey ++ js ".mp3"].
Proof.
  intros Hk. apply (path_join_plain_file CACHE_DIR [] cacheKey (js ".mp3")); [assumption | |].
  - repeat constructor; discriminate.
  - simpl. lia.
Qed.

(** [ensureCacheDir] for a book and a voice changes nothing off the path of
    their directory. *)
Lemma ensureCacheDir_off_path bookKey voice w p :
  plain bookKey -> plain voice ->
  ~ p `prefix_of` CACHE_DIR ++ [bookKey; voice] ->
  fs (snd (Route.ensureCacheDir (Some bookKey) (Some voice) w)) !! p = fs w !! p.
Proof.
  intros Hb Hv Hoff. unfold Route.ensureCacheDir, try_catch, mkdir_recursive.
  pose proof (path_join_plain2 CACHE_DIR bookKey voice Hb Hv) as Hjoin.
  destruct Hb as (Hb1 & Hb). destruct Hv as (Hv1 & Hv).
  destruct bookKey; [congruence |]. destruct voice; [congruence |].
  cbn [truthy andb]. unfold default. cbn [from_option id]. rewrite Hjoin.
  destruct (Fs.mkdir_from [] _ (fs w)) as [[[]|e] t1] eqn:E; simpl;
    eapply (mkdir_from_off_path _ []); eauto.
Qed.

(** X10: audio that is synthesised for a request without book key is stored
    under the book [_default], where the synthesis route finds it again;
    the bulk check, asked without book key, looks in the flat layout only
    and reports the same text as not cached. *)
Theorem check_without_book_key_misses_default_entries created lastUsed voice text
    audioBuffer metadata (w w' : world) :
  plain voice ->
  let cacheKey := Route.generateCacheKey text voice in
  fs w !! Route.getLegacyCacheFilePath cacheKey = None ->
  Route.cacheAudio created lastUsed (SynthesisRoute.effectiveBookKey None) voice cacheKey
    audioBuffer metadata w = (Return (), w') ->
  Route.isCached (SynthesisRoute.effectiveBookKey None) voice cacheKey w' = (Return true, w')
  /\ CheckRoute.isCached None voice (CheckRoute.generateCacheKey text voice) w'
     = (Return false, w').
Proof.
  intros Hv cacheKey Hlegacy Hrun.
  change (SynthesisRoute.effectiveBookKey None) with (js "_default") in *.
  assert (Hk : slash_free cacheKey) by apply hex_digit_not_slash, md5_hex_shape.
  pose proof (getLegacyCacheFilePath_plain cacheKey Hk) as Hla.
  pose proof (getCacheFilePath_plain (js "_default") voice cacheKey Hk) as Hna.
  rewrite (path_join_plain2 CACHE_DIR (js "_default") voice plain_default Hv) in Hna.
  assert (Hfs : fs w' !! Route.getCacheFilePath (js "_default") voice cacheKey
                = Some (Fs.File audioBuffer)
                /\ fs w' !! Route.getLegacyCacheFilePath cacheKey = None).
  { revert Hrun. unfold Route.cacheAudio, mbind, io_bind.
    pose proof (ensureCacheDir_off_path (js "_default") voice w
                  (Route.getLegacyCacheFilePath cacheKey) plain_default Hv) as Hoff.
    destruct (Route.ensureCacheDir _ _ w) as [[[]|e] w0]; [| discriminate].
    simpl in Hoff.
    destruct (writeFile _ audioBuffer w0) as [r1 w1] eqn:E1.
    apply writeFile_inv in E1 as [(-> & -> & _) | (e & -> & ->)]; [| discriminate].
    destruct (writeFile _ _ _) as [r2 w2] eqn:E2.
    apply writeFile_inv in E2 as [(-> & -> & _) | (e & -> & ->)]; [| discriminate].
    intros [= <-]. simpl. split.
    - rewrite lookup_insert_ne
        by (intros Heq; symmetry in Heq; revert Heq; apply audio_path_neq_meta_path).
      apply lookup_insert_eq.
    - rewrite lookup_insert_ne.
      + rewrite lookup_insert_ne.
        * rewrite Hoff; [exact Hlegacy |].
          rewrite Hla. intros [rest Hrest].
          rewrite <- app_assoc in Hrest. apply app_inv_head in Hrest.
          injection Hrest as Hname _. apply (f_equal (@last N)) in Hname.
          change (js "_default") with ([95; 100; 101; 102; 97; 117; 108]%N ++ [116%N]) in Hname.
          change (js ".mp3") with ([46; 109; 112]%N ++ [51%N]) in Hname.
          rewrite !app_assoc, !last_snoc in Hname. discriminate.
        * rewrite Hna, Hla. intros Heq. apply (f_equal length) in Heq.
          rewrite !length_app in Heq. simpl in Heq. lia.
      + rewrite Hla. destruct (cache_paths (js "_default") voice cacheKey)
          as (nested & flat & name & _ & -> & _).
        apply snoc_neq_name. intros Heq. symmetry in Heq. revert Heq.
        apply mp3_name_neq_meta_name. }
  destruct Hfs as [Haudio Hflat]. split.
  - apply isCached_hit. rewrite Haudio. eauto.
  - destruct (check_isCached_spec None voice (CheckRoute.generateCacheKey text voice) w')
      as (b & Hb & Hfinds).
    rewrite Hb. destruct b; [| reflexivity].
    destruct (proj1 Hfinds eq_refl) as [[Habs _] | Hfound]; [discriminate |].
    change (CheckRoute.getLegacyCacheFilePath (CheckRoute.generateCacheKey text voice))
      with (Route.getLegacyCacheFilePath cacheKey) in Hfound.
    rewrite Hflat in Hfound. destruct Hfound; discriminate.
Qed.

End SynthesisStore.

Lemma check_without_book_key_misses_default_entries_witness :
  plain (js "V")
  /\ Route.isCached (cache_dir := demo_dir) (js "_default") (js "V")
       (Route.generateCacheKey (js "Hello") (js "V")) world_after_default_hello
     = (Return true, world_after_default_hello)
  /\ CheckRoute.isCached (cache_dir := demo_dir) None (js "V")
       (CheckRoute.generateCacheKey (js "Hello") (js "V")) world_after_default_hello
     = (Return false, world_after_default_hello).
Proof.
  assert (Hv : plain (js "V")).
  { split; [discriminate |]. split; [repeat constructor; discriminate |].
    split; discriminate. }
  split; [exact Hv |].
  apply (check_without_book_key_misses_default_entries (cache_dir := demo_dir)
           (runtime := demo_runtime) (js "2024-01-01T00:00:00.000Z")
           (js "2024-01-01T00:00:00.000Z") (js "V") (js "Hello") [73; 68; 51]
           {| Route.meta_text := Some (js "Hello"); Route.meta_voice := Some (js "V");
              Route.meta_bookKey := Some (js "_default") |} empty_world
           world_after_default_hello Hv (lookup_empty _)).
  apply run_eq. vm_compute. reflexivity.
Defined.

Section SynthesisPOST.
Context {cache_dir : CacheDir} {runtime : JsRuntime} {vieneu : VieneuServer}.

Lemma truthy_default (x : option jsstring) : truthy x = true -> x = Some (default [] x).
Proof. destruct x as [[|c s]|]; simpl; congruence. Qed.

(** A request for an entry that is in the nested layout. *)
Lemma POST_hit outside request body audio s :
  SynthesisRoute.json_body request = inl body ->
  truthy (SynthesisRoute.text body) = true ->
  truthy (SynthesisRoute.voice body) = true ->
  let text := default [] (SynthesisRoute.text body) in
  let voice := default [] (SynthesisRoute.voice body) in
  let book := SynthesisRoute.effectiveBookKey (SynthesisRoute.bookKey body) in
  let cacheKey := Route.generateCacheKey text voice in
  srv_fs s !! Route.getCacheFilePath book voice cacheKey = Some (Fs.File audio) ->
  exists s',
    SynthesisRoute.POST outside request s = (SynthesisRoute.Audio SynthesisRoute.HIT cacheKey audio, s')
    /\ forall p, p ≠ Route.getMetadataFilePath book voice cacheKey ->
                 srv_fs s' !! p = srv_fs s !! p.
Proof.
  intros Hjson Htext Hvoice text voice book cacheKey Haudio.
  unfold SynthesisRoute.POST, catch_all. rewrite Hjson.
  unfold mbind at 1, handler_bind at 1. unfold mret at 1, handler_ret at 1.
  rewrite Htext, Hvoice. cbn [negb orb]. cbv zeta.
  fold text. fold voice. fold book. fold cacheKey.
  unfold mbind at 1, handler_bind at 1, call_store at 1.
  rewrite isCached_hit by (simpl; rewrite Haudio; eauto).
  cbn [fs console fmap list_fmap]. rewrite app_nil_r.
  unfold mbind at 1, handler_bind at 1, write_log at 1. cbn [srv_fs srv_log].
  unfold mbind at 1, handler_bind at 1, call_store at 1. cbn [srv_fs srv_log].
  destruct (updateMetadata_frame (SynthesisRoute.lastUsed outside) book voice cacheKey
              (World (srv_fs s) [])) as (w1 & Hrun & Hframe).
  rewrite Hrun. cbn [fs console].
  unfold mbind at 1, handler_bind at 1, call_store at 1. cbn [srv_fs srv_log].
  assert (Hread : Route.getCachedAudio book voice cacheKey (World (fs w1) [])
                  = (Return audio, World (fs w1) [])).
  { destruct (cache_paths book voice cacheKey) as (nested & flat & name & Hna & _).
    unfold Route.getCachedAudio, readFile. cbn [fs].
    pose proof (Hframe _ (audio_path_neq_meta_path book voice cacheKey book voice cacheKey))
      as Hsame.
    cbn [fs] in Hsame. rewrite Hna in *. rewrite node_at_snoc, Hsame, Haudio. reflexivity. }
  rewrite Hread. cbn [fs console fmap list_fmap].
  eexists. split; [reflexivity |].
  intros p Hp. cbn [srv_fs]. apply (Hframe p Hp).
Qed.


Lemma error_response_not_audio message st key audio :
  SynthesisRoute.error_response message ≠ SynthesisRoute.Audio st key audio.
Proof. unfold SynthesisRoute.error_response. destruct (includes _ message); discriminate. Qed.

Lemma on_error_not_audio message s st key audio s' :
  SynthesisRoute.on_error message s ≠ (SynthesisRoute.Audio st key audio, s').
Proof.
  unfold SynthesisRoute.on_error. intros [= H _]. revert H. apply error_response_not_audio.
Qed.

(** [synthesizeAudio] neither reads nor changes the state of the server. *)
Lemma synthesizeAudio_pure outside text voice apiKey :
  exists r, forall s, SynthesisRoute.synthesizeAudio outside text voice apiKey s = (r, s).
Proof.
  unfold SynthesisRoute.synthesizeAudio.
  destruct (SynthesisRoute.fetch outside _) as [message | response]; [eexists; reflexivity |].
  destruct (negb (SynthesisRoute.ok response)); [eexists; reflexivity |].
  destruct (SynthesisRoute.response_arrayBuffer response); eexists; reflexivity.
Qed.

(** What a response with the header [X-Cache-Status: MISS] tells. *)
Lemma POST_miss_inv outside request s cacheKey audio s1 :
  SynthesisRoute.POST outside request s
  = (SynthesisRoute.Audio SynthesisRoute.MISS cacheKey audio, s1) ->
  exists body,
    SynthesisRoute.json_body request = inl body
    /\ truthy (SynthesisRoute.text body) = true
    /\ truthy (SynthesisRoute.voice body) = true
    /\ cacheKey = Route.generateCacheKey (default [] (SynthesisRoute.text body))
                     (default [] (SynthesisRoute.voice body))
    /\ srv_fs s1 !! Route.getCacheFilePath
                      (SynthesisRoute.effectiveBookKey (SynthesisRoute.bookKey body))
                      (default [] (SynthesisRoute.voice body)) cacheKey
       = Some (Fs.File audio).
Proof.
  unfold SynthesisRoute.POST, catch_all.
  destruct (SynthesisRoute.json_body request) as [body | message] eqn:Hjson.
  2:{ unfold mbind, handler_bind, raise. intros H. exfalso. revert H. apply on_error_not_audio. }
  unfold mbind at 1, handler_bind at 1. unfold mret at 1, handler_ret at 1.
  destruct (truthy (SynthesisRoute.text body)) eqn:Htext;
    [| cbn [negb orb]; unfold mret, handler_ret; discriminate].
  destruct (truthy (SynthesisRoute.voice body)) eqn:Hvoice;
    [| cbn [negb orb]; unfold mret, handler_ret; discriminate].
  cbn [negb orb]. cbv zeta.
  set (text := default [] (SynthesisRoute.text body)).
  set (voice := default [] (SynthesisRoute.voice body)).
  set (book := SynthesisRoute.effectiveBookKey (SynthesisRoute.bookKey body)).
  set (key := Route.generateCacheKey text voice).
  unfold mbind at 1, handler_bind at 1, call_store at 1.
  destruct (Route.isCached book voice key _) as [[[|]|e] w0] eqn:Hcached.
  - (* a hit *)
    unfold mbind at 1, handler_bind at 1, write_log at 1. cbn [srv_fs srv_log].
    unfold mbind at 1, handler_bind at 1, call_store at 1. cbn [srv_fs srv_log].
    destruct (Route.updateMetadata _ book voice key _) as [[[]|e] w1].
    + unfold mbind at 1, handler_bind at 1, call_store at 1. cbn [srv_fs srv_log].
      destruct (Route.getCachedAudio book voice key _) as [[a|e] w2].
      * unfold mret, handler_ret. discriminate.
      * intros H. exfalso. revert H. apply on_error_not_audio.
    + intros H. exfalso. revert H. apply on_error_not_audio.
  - (* a miss *)
    unfold mbind at 1, handler_bind at 1, write_log at 1. cbn [srv_fs srv_log].
    unfold mbind at 1, handler_bind at 1.
    destruct (synthesizeAudio_pure outside text voice
                (if truthy (SynthesisRoute.api_key_header request)
                 then SynthesisRoute.api_key_header request else None)) as (r & Hsynth).
    rewrite Hsynth. destruct r as [audio' | message].
    2:{ intros H. exfalso. revert H. apply on_error_not_audio. }
    unfold mbind at 1, handler_bind at 1, call_store at 1. cbn [srv_fs srv_log].
    destruct (Route.cacheAudio _ _ book voice key audio' _ _) as [[[]|e] w1] eqn:Hwrite.
    2:{ intros H. exfalso. revert H. apply on_error_not_audio. }
    unfold mbind at 1, handler_bind at 1, write_log at 1. unfold mret, handler_ret.
    cbn [srv_fs srv_log]. intros [= <- <- <-].
    exists body. split; [reflexivity |]. split; [exact Htext |]. split; [exact Hvoice |].
    split; [reflexivity |]. cbn [srv_fs].
    destruct (cacheAudio_inv _ _ _ _ _ _ _ _ _ _ Hwrite)
      as (t0 & log & _ & _ & [(metaData & _ & ->) | (e & He & _)]); [| discriminate].
    rewrite lookup_insert_ne
      by (intros Heq; symmetry in Heq; revert Heq; apply audio_path_neq_meta_path).
    apply lookup_insert_eq.
  - intros H. exfalso. revert H. apply on_error_not_audio.
Qed.

(** X11: an entry that is in the nested layout is served from the cache,
    whatever the VieNeu-TTS server would answer: the response is a HIT
    with the key of the text and the bytes of the file, and no file
    other than the metadata of the entry changes. *)
Theorem POST_serves_cached_audio outside request body audio (s : server) :
  SynthesisRoute.json_body request = inl body ->
  truthy (SynthesisRoute.text body) = true ->
  truthy (SynthesisRoute.voice body) = true ->
  let text := default [] (SynthesisRoute.text body) in
  let voice := default [] (SynthesisRoute.voice body) in
  let book := SynthesisRoute.effectiveBookKey (SynthesisRoute.bookKey body) in
  let cacheKey := Route.generateCacheKey text voice in
  srv_fs s !! Route.getCacheFilePath book voice cacheKey = Some (Fs.File audio) ->
  exists s',
    SynthesisRoute.POST outside request s
    = (SynthesisRoute.Audio SynthesisRoute.HIT cacheKey audio, s')
    /\ forall p, p ≠ Route.getMetadataFilePath book voice cacheKey ->
                 srv_fs s' !! p = srv_fs s !! p.
Proof. apply POST_hit. Qed.

(** X12: after a response with [X-Cache-Status: MISS], a request for the
    same voice, the same book up to the session suffix of its key, and
    the same text up to white space is a HIT with the same key and the
    same bytes, whatever the VieNeu-TTS server would answer then. *)
Theorem POST_miss_then_hit outside1 outside2 request1 request2 body1 body2
    (s s1 : server) cacheKey audio :
  SynthesisRoute.POST outside1 request1 s
  = (SynthesisRoute.Audio SynthesisRoute.MISS cacheKey audio, s1) ->
  SynthesisRoute.json_body request1 = inl body1 ->
  SynthesisRoute.json_body request2 = inl body2 ->
  same_entry body1 body2 ->
  exists s2,
    SynthesisRoute.POST outside2 request2 s1
    = (SynthesisRoute.Audio SynthesisRoute.HIT cacheKey audio, s2).
Proof.
  intros Hmiss Hjson1 Hjson2 (Hvoice & Hbook & Htext2 & Hvariant).
  destruct (POST_miss_inv _ _ _ _ _ _ Hmiss) as (body & Hjson & Htext & Hvoice1 & Hkey & Hfile).
  rewrite Hjson1 in Hjson. injection Hjson as <-.
  assert (Hkey2 : Route.generateCacheKey (default [] (SynthesisRoute.text body2))
                    (default [] (SynthesisRoute.voice body2)) = cacheKey).
  { rewrite Hkey, <- Hvoice, !generateCacheKey_normalize.
    rewrite (ws_variant_normalize _ _ Hvariant). reflexivity. }
  destruct (POST_hit outside2 request2 body2 audio s1 Hjson2 Htext2) as (s2 & Hhit & _).
  - rewrite <- Hvoice. exact Hvoice1.
  - rewrite Hkey2, <- Hbook, <- Hvoice. exact Hfile.
  - exists s2. rewrite <- Hkey2. exact Hhit.
Qed.

(** X13: when the entry is in neither layout and the VieNeu-TTS server cannot
    be reached or answers with a status that is not [ok], the request
    fails with the message of the error (503 when the message holds
    ["fetch failed"], 500 otherwise), and the file system is left as it
    was: nothing is cached. *)
Theorem POST_failed_synthesis_caches_nothing outside request body (s : server) :
  SynthesisRoute.json_body request = inl body ->
  truthy (SynthesisRoute.text body) = true ->
  truthy (SynthesisRoute.voice body) = true ->
  let text := default [] (SynthesisRoute.text body) in
  let voice := default [] (SynthesisRoute.voice body) in
  let book := SynthesisRoute.effectiveBookKey (SynthesisRoute.bookKey body) in
  let cacheKey := Route.generateCacheKey text voice in
  srv_fs s !! Route.getCacheFilePath book voice cacheKey = None ->
  srv_fs s !! Route.getLegacyCacheFilePath cacheKey = None ->
  let failure message :=
    (SynthesisRoute.error_response message,
     Server (srv_fs s)
       (srv_log s ++ [LogCacheMiss (substring0 8 cacheKey) book voice; ErrApi message])) in
  (forall message,
     SynthesisRoute.fetch outside (synthesis_call request text voice)
     = SynthesisRoute.Rejected message ->
     SynthesisRoute.POST outside request s = failure message)
  /\ (forall response,
        SynthesisRoute.fetch outside (synthesis_call request text voice)
        = SynthesisRoute.Responded response ->
        SynthesisRoute.ok response = false ->
        SynthesisRoute.POST outside request s = failure (synthesis_failed response)).
Proof.
  intros Hjson Htext Hvoice text voice book cacheKey Hnested Hlegacy failure.
  assert (Hcall : forall apiKey : option jsstring,
            (if truthy (if truthy apiKey then apiKey else None)
             then (if truthy apiKey then apiKey else None) else None)
            = (if truthy apiKey then apiKey else None)).
  { intros [[|c k]|]; reflexivity. }
  assert (Hstart : forall r,
            (forall s0, SynthesisRoute.synthesizeAudio outside text voice
                          (if truthy (SynthesisRoute.api_key_header request)
                           then SynthesisRoute.api_key_header request else None) s0
                        = (inr r, s0)) ->
            SynthesisRoute.POST outside request s = failure r).
  { intros r Hsynth.
    unfold SynthesisRoute.POST, catch_all. rewrite Hjson.
    unfold mbind at 1, handler_bind at 1. unfold mret at 1, handler_ret at 1.
    rewrite Htext, Hvoice. cbn [negb orb]. cbv zeta.
    fold text. fold voice. fold book. fold cacheKey.
    unfold mbind at 1, handler_bind at 1, call_store at 1.
    rewrite isCached_miss by assumption.
    cbn [fs console fmap list_fmap]. rewrite app_nil_r.
    unfold mbind at 1, handler_bind at 1, write_log at 1. cbn [srv_fs srv_log].
    unfold mbind at 1, handler_bind at 1. rewrite Hsynth.
    unfold SynthesisRoute.on_error, failure. cbn [srv_fs srv_log].
    rewrite <- app_assoc. reflexivity. }
  split.
  - intros message Hfetch. apply Hstart. intros s0.
    unfold SynthesisRoute.synthesizeAudio. rewrite Hcall.
    fold (synthesis_call request text voice). rewrite Hfetch. reflexivity.
  - intros response Hfetch Hok. apply Hstart. intros s0.
    unfold SynthesisRoute.synthesizeAudio. rewrite Hcall.
    fold (synthesis_call request text voice). rewrite Hfetch, Hok. reflexivity.
Qed.


End SynthesisPOST.

Lemma plain_V : plain (js "V").
Proof.
  split; [discriminate |]. split; [repeat constructor; discriminate |].
  split; discriminate.
Qed.

Lemma POST_serves_cached_audio_witness :
  exists s',
    SynthesisRoute.POST (cache_dir := demo_dir) (runtime := demo_runtime)
      (vieneu := demo_server) down_outside
      (demo_request (js "Hello") (Some (js "B-1"))) server_after_hello
    = (SynthesisRoute.Audio SynthesisRoute.HIT (Route.generateCacheKey (js "Hello") (js "V"))
         [73; 68; 51], s').
Proof.
  destruct (POST_serves_cached_audio (cache_dir := demo_dir) (runtime := demo_runtime)
              (vieneu := demo_server) down_outside
              (demo_request (js "Hello") (Some (js "B-1"))) _ [73; 68; 51] server_after_hello
              eq_refl eq_refl eq_refl) as (s' & Hhit & _).
  - vm_compute. reflexivity.
  - exists s'. exact Hhit.
Defined.

Lemma POST_miss_then_hit_witness :
  exists s2,
    SynthesisRoute.POST (cache_dir := demo_dir) (runtime := demo_runtime)
      (vieneu := demo_server) down_outside
      (demo_request (js "Hello ") (Some (js "B-2"))) server_after_hello
    = (SynthesisRoute.Audio SynthesisRoute.HIT
         (Route.generateCacheKey (js "Hello") (js "V")) [73; 68; 51], s2).
Proof.
  apply (POST_miss_then_hit (cache_dir := demo_dir) (runtime := demo_runtime)
           (vieneu := demo_server) demo_outside down_outside
           (demo_request (js "Hello") (Some (js "B-1")))
           (demo_request (js "Hello ") (Some (js "B-2")))
           {| SynthesisRoute.text := Some (js "Hello");
              SynthesisRoute.voice := Some (js "V");
              SynthesisRoute.bookKey := Some (js "B-1") |}
           {| SynthesisRoute.text := Some (js "Hello ");
              SynthesisRoute.voice := Some (js "V");
              SynthesisRoute.bookKey := Some (js "B-2") |}
           empty_server server_after_hello).
  - apply run_eq. vm_compute. reflexivity.
  - reflexivity.
  - reflexivity.
  - split; [reflexivity |]. split; [vm_compute; reflexivity |]. split; [reflexivity |].
    apply rtc_once. left. exact (ws_trailing 32%N (js "Hello") eq_refl).
Defined.

Lemma POST_failed_synthesis_caches_nothing_witness :
  SynthesisRoute.POST (cache_dir := demo_dir) (runtime := demo_runtime)
    (vieneu := demo_server) down_outside
    (demo_request (js "Hello") (Some (js "B-1"))) empty_server
  = (SynthesisRoute.Json503
       (js "Cannot connect to http://localhost:7860. Please ensure VieNeu-TTS server is running.")
       (js "http://localhost:7860"),
     Server ∅ [LogCacheMiss (substring0 8 (Route.generateCacheKey (js "Hello") (js "V")))
                 (js "B") (js "V");
               ErrApi (js "fetch failed")]).
Proof.
  exact (proj1 (POST_failed_synthesis_caches_nothing (cache_dir := demo_dir)
                  (runtime := demo_runtime) (vieneu := demo_server) down_outside
                  (demo_request (js "Hello") (Some (js "B-1"))) _ empty_server
                  eq_refl eq_refl eq_refl (lookup_empty _) (lookup_empty _))
               (js "fetch failed") eq_refl).
Defined.


(** * The reports of a job *)

Lemma fulfilled_app E l1 l2 : fulfilled E (l1 ++ l2) = (fulfilled E l1 + fulfilled E l2)%nat.
Proof. unfold fulfilled. rewrite filter_app, length_app. reflexivity. Qed.

Lemma slice_length_min i (u : list jsstring) :
  length (slice i u) = Nat.min BATCH_SIZE (length u - i).
Proof. unfold slice. rewrite length_take, length_drop. reflexivity. Qed.





(** The loop, when [cancel()] has been called before the batch at [i]
    starts and not before. *)
Lemma synthesize_loop_cancelled E uncachedTexts i0 c i :
  fair E -> (i0 mod BATCH_SIZE = 0)%nat -> (i mod BATCH_SIZE = 0)%nat ->
  (i0 <= i < length uncachedTexts)%nat ->
  aborted E i = true -> (forall j, (i0 <= j < i)%nat -> aborted E j = false) ->
  let run := synthesize_loop E uncachedTexts i0 c in
  snd run = false
  /\ started (fst run) = numbered_from i0 (take (i - i0) (drop i0 uncachedTexts))
  /\ last (fst run)
     = Some (updateProgress cancelled (c + fulfilled E (seq i0 (i - i0)))
               (length uncachedTexts) MsgCancelled None).
Proof.
  intros Hfair. revert i.
  funelim (synthesize_loop E uncachedTexts i0 c); intros i1 Hi0 Hi1 Hrange Habort Hbefore;
    cbn [fst snd].
  - lia.
  - assert (i1 = i) as ->.
    { destruct (decide (i1 = i)) as [? | Hne]; [assumption |].
      rewrite Hbefore in Heq by lia. discriminate. }
    rewrite Nat.sub_diag. simpl. rewrite Nat.add_0_r. repeat split.
  - assert (Hlt : (i + BATCH_SIZE <= i1)%nat).
    { destruct (decide (i1 = i)) as [-> | Hne]; [congruence |].
      unfold BATCH_SIZE in *.
      pose proof (Nat.div_mod_eq i 5). pose proof (Nat.div_mod_eq i1 5). lia. }
    pose proof (process_batch_spec E uncachedTexts i completed0 Hfair) as Hb.
    destruct (process_batch E uncachedTexts i completed0) as [b c'] eqn:Eb.
    cbn [fst snd] in Hb. destruct Hb as (Hc' & _ & Bstarted & _).
    assert (Hi' : ((i + BATCH_SIZE) mod BATCH_SIZE = 0)%nat).
    { unfold BATCH_SIZE in *. rewrite <- (Nat.Div0.add_mod_idemp_l i 5 5), Hi0. reflexivity. }
    match goal with IH : list event -> forall c1, fair E -> _ |- _ =>
      specialize (IH b c' Hfair i1 Hi' Hi1 ltac:(lia) Habort
                    ltac:(intros j Hj; apply Hbefore; lia)) end.
    destruct (synthesize_loop E uncachedTexts (i + BATCH_SIZE) c') as [tr fin].
    cbn [fst snd] in *.
    match goal with IH : _ /\ _ |- _ => destruct IH as (Rfin & Rstarted & Rlast) end.
    destruct (sleeps_spec (paused_polls E i)) as (Snostart & _ & _).
    destruct (in_flight_no_start _ Snostart) as [_ Sstarted].
    assert (Hslice : length (slice i uncachedTexts) = BATCH_SIZE).
    { rewrite slice_length_min. unfold BATCH_SIZE in *. lia. }
    split; [exact Rfin |]. split.
    + rewrite !started_app, Sstarted, Bstarted, Rstarted, app_nil_l.
      replace (i1 - i)%nat with (BATCH_SIZE + (i1 - (i + BATCH_SIZE)))%nat by lia.
      rewrite <- take_take_drop, numbered_from_app, drop_drop.
      fold (slice i uncachedTexts). rewrite Hslice. reflexivity.
    + rewrite !last_app, Rlast, Hc', Hslice.
      replace (i1 - i)%nat with (BATCH_SIZE + (i1 - (i + BATCH_SIZE)))%nat by lia.
      rewrite seq_app, fulfilled_app, Nat.add_assoc. reflexivity.
Qed.

(** X16: when [cancel()] has been called by the time the batch at [i] is about
    to start, and not before, the batches before [i] are carried out in
    full and no request of a later batch is sent; the job ends with the
    report [cancelled], which counts the requests fulfilled so far, and
    returns without throwing. *)
Theorem cancel_stops_before_the_next_batch (E : Env) (allTexts : list jsstring)
    (results : list CheckResult) (i : nat) :
  fair E ->
  let uncachedTexts := text <$> List.filter (fun r => negb (cached r)) results in
  allTexts ≠ [] ->
  (i mod BATCH_SIZE = 0)%nat -> (i < length uncachedTexts)%nat ->
  aborted E i = true -> (forall j, (j < i)%nat -> aborted E j = false) ->
  let run := preCacheBook E (inl allTexts) (inl results) in
  started (fst run) = numbered_from 0 (take i uncachedTexts)
  /\ last (fst run)
     = Some (updateProgress cancelled (fulfilled E (seq 0 i)) (length uncachedTexts)
               MsgCancelled None)
  /\ snd run = Returned.
Proof.
  intros Hfair uncachedTexts Hall Hi Hlt Habort Hbefore run. subst run.
  unfold preCacheBook.
  destruct (Nat.eqb_spec (length allTexts) 0) as [Hlen | _];
    [destruct allTexts; [congruence | discriminate] |].
  fold uncachedTexts.
  destruct (Nat.eqb_spec (length uncachedTexts) 0) as [Hlen | _]; [lia |].
  destruct (synthesize_loop_cancelled E uncachedTexts 0 0 i Hfair eq_refl Hi
              ltac:(lia) Habort ltac:(intros j Hj; apply Hbefore; lia))
    as (Hfin & Hstarted & Hlast).
  destruct (synthesize_loop E uncachedTexts 0 0) as [tr fin].
  cbn [fst snd] in *. subst fin.
  rewrite Nat.sub_0_r, drop_0 in Hstarted. rewrite Nat.sub_0_r in Hlast.
  split; [| split; [| reflexivity]].
  - rewrite !started_app, Hstarted. cbn [started omap]. rewrite app_nil_r. reflexivity.
  - rewrite app_nil_r, !last_app, Hlast. reflexivity.
Qed.

Lemma cancel_stops_before_the_next_batch_witness :
  fair cancelled_at_5
  /\ started (fst (preCacheBook cancelled_at_5 (inl seven_texts)
                     (inl ((fun t => {| text := t; cached := false |}) <$> seven_texts))))
     = numbered_from 0 (take 5 seven_texts).
Proof.
  assert (Hfair : fair cancelled_at_5) by (intros l; reflexivity).
  split; [exact Hfair |].
  destruct (cancel_stops_before_the_next_batch cancelled_at_5 seven_texts
              ((fun t => {| text := t; cached := false |}) <$> seven_texts) 5 Hfair)
    as (Hstarted & _ & _).
  - discriminate.
  - reflexivity.
  - vm_compute. lia.
  - reflexivity.
  - intros j Hj. change (aborted cancelled_at_5 j) with (5 <=? j)%nat.
    apply Nat.leb_gt. exact Hj.
  - exact Hstarted.
Defined.






(** * The store of the jobs *)

Section Maps.
Context {V : Type}.
Implicit Types (m : PreCacheStore.Map V) (key : jsstring) (value : V).

Lemma Map_get_set_eq key value m :
  PreCacheStore.Map_get key (PreCacheStore.Map_set key value m) = Some value.
Proof.
  induction m as [|[k v] m IH]; simpl.
  - rewrite bool_decide_eq_true_2 by reflexivity. reflexivity.
  - case_bool_decide as Hk; simpl.
    + rewrite bool_decide_eq_true_2 by assumption. reflexivity.
    + rewrite bool_decide_eq_false_2 by assumption. exact IH.
Qed.

Lemma Map_get_set_ne key other value m :
  other ≠ key ->
  PreCacheStore.Map_get other (PreCacheStore.Map_set key value m)
  = PreCacheStore.Map_get other m.
Proof.
  intros Hne. induction m as [|[k v] m IH]; simpl.
  - rewrite bool_decide_eq_false_2 by congruence. reflexivity.
  - case_bool_decide as Hk; simpl.
    + subst k. rewrite !bool_decide_eq_false_2 by congruence. reflexivity.
    + case_bool_decide; [reflexivity | exact IH].
Qed.

Lemma Map_set_keys key value m :
  (PreCacheStore.Map_set key value m).*1
  = if bool_decide (key ∈ m.*1) then m.*1 else m.*1 ++ [key].
Proof.
  induction m as [|[k v] m IH]; [reflexivity |].
  cbn [PreCacheStore.Map_set]. destruct (decide (k = key)) as [-> | Hk].
  - rewrite bool_decide_eq_true_2 by reflexivity.
    rewrite bool_decide_eq_true_2 by (rewrite fmap_cons; left). reflexivity.
  - rewrite bool_decide_eq_false_2 by assumption.
    rewrite !fmap_cons, IH. cbn [fst].
    destruct (decide (key ∈ m.*1)) as [Hin | Hin].
    + rewrite !bool_decide_eq_true_2; [reflexivity | right; assumption | assumption].
    + rewrite !bool_decide_eq_false_2; [reflexivity | | assumption].
      intros [? | ?]%elem_of_cons; congruence.
Qed.

Lemma Map_set_NoDup key value m :
  NoDup m.*1 -> NoDup (PreCacheStore.Map_set key value m).*1.
Proof.
  intros Hnd. rewrite Map_set_keys. case_bool_decide as Hin; [assumption |].
  apply NoDup_app. repeat split; [assumption | | apply NoDup_singleton].
  intros x Hx ->%list_elem_of_singleton. contradiction.
Qed.

Lemma Map_get_None key m : key ∉ m.*1 -> PreCacheStore.Map_get key m = None.
Proof.
  induction m as [|[k v] m IH]; simpl; [reflexivity |].
  intros Hnot. apply not_elem_of_cons in Hnot as [Hk Hnot].
  rewrite bool_decide_eq_false_2 by congruence. apply IH, Hnot.
Qed.

Lemma Map_get_delete_eq key m :
  NoDup m.*1 -> PreCacheStore.Map_get key (PreCacheStore.Map_delete key m) = None.
Proof.
  induction m as [|[k v] m IH]; simpl; [reflexivity |].
  intros Hnd. apply NoDup_cons in Hnd as [Hk Hnd].
  case_bool_decide as Heq; simpl.
  - subst k. apply Map_get_None, Hk.
  - rewrite bool_decide_eq_false_2 by assumption. apply IH, Hnd.
Qed.

Lemma Map_get_delete_ne key other m :
  other ≠ key ->
  PreCacheStore.Map_get other (PreCacheStore.Map_delete key m)
  = PreCacheStore.Map_get other m.
Proof.
  intros Hne. induction m as [|[k v] m IH]; simpl; [reflexivity |].
  case_bool_decide as Hk; simpl.
  - subst k. rewrite bool_decide_eq_false_2 by congruence. reflexivity.
  - case_bool_decide; [reflexivity | exact IH].
Qed.

Lemma Map_delete_sublist key m : PreCacheStore.Map_delete key m `sublist_of` m.
Proof.
  induction m as [|[k v] m IH]; simpl; [constructor |].
  case_bool_decide.
  - apply sublist_cons, reflexivity.
  - apply sublist_skip, IH.
Qed.


End Maps.

(** X18: the store keeps the progress of the jobs as a map from book keys:
    after [setPreCacheProgress] the progress of that book is read back
    and the progress of every other book is as before; a book that is
    new comes last in the order of the entries and a book that is there
    keeps its place; after [removePreCacheProgress] the book has no
    progress and the others are as before.  Neither touches the cache
    statuses or the dialog. *)
Theorem preCacheStore_reads_back bookKey progress (state : PreCacheStore.PreCacheState) :
  NoDup (PreCacheStore.activePreCaches state).*1 ->
  let set := PreCacheStore.setPreCacheProgress bookKey progress state in
  let removed := PreCacheStore.removePreCacheProgress bookKey state in
  PreCacheStore.getPreCacheProgress bookKey set = Some progress
  /\ (forall other, other ≠ bookKey ->
        PreCacheStore.getPreCacheProgress other set
        = PreCacheStore.getPreCacheProgress other state)
  /\ (PreCacheStore.activePreCaches set).*1
     = (if bool_decide (bookKey ∈ (PreCacheStore.activePreCaches state).*1)
        then (PreCacheStore.activePreCaches state).*1
        else (PreCacheStore.activePreCaches state).*1 ++ [bookKey])
  /\ NoDup (PreCacheStore.activePreCaches set).*1
  /\ PreCacheStore.getPreCacheProgress bookKey removed = None
  /\ (forall other, other ≠ bookKey ->
        PreCacheStore.getPreCacheProgress other removed
        = PreCacheStore.getPreCacheProgress other state)
  /\ NoDup (PreCacheStore.activePreCaches removed).*1
  /\ PreCacheStore.bookCacheStatuses set = PreCacheStore.bookCacheStatuses state
  /\ PreCacheStore.openDialogBookKey set = PreCacheStore.openDialogBookKey state
  /\ PreCacheStore.bookCacheStatuses removed = PreCacheStore.bookCacheStatuses state
  /\ PreCacheStore.openDialogBookKey removed = PreCacheStore.openDialogBookKey state.
Proof.
  intros Hnd set removed. unfold PreCacheStore.getPreCacheProgress. simpl.
  split_and!; try reflexivity.
  - apply Map_get_set_eq.
  - intros other Hne. apply Map_get_set_ne, Hne.
  - apply Map_set_keys.
  - apply Map_set_NoDup, Hnd.
  - apply Map_get_delete_eq, Hnd.
  - intros other Hne. apply Map_get_delete_ne, Hne.
  - eapply sublist_NoDup; [exact Hnd | apply fmap_sublist, Map_delete_sublist].
Qed.

Lemma preCacheStore_reads_back_witness :
  PreCacheStore.getPreCacheProgress (js "B")
    (PreCacheStore.removePreCacheProgress (js "B")
       (PreCacheStore.setPreCacheProgress (js "B")
          {| state := synthesizing; current := 1; total := 2; percentage := 50%float;
             message := MsgSynthesized 1 2; error := None |} PreCacheStore.initial))
  = None.
Proof.
  apply (preCacheStore_reads_back (js "B")
           {| state := idle; current := 0; total := 0; percentage := 0%float;
              message := MsgExtracting; error := None |}).
  simpl. apply NoDup_singleton.
Defined.





(** * Directory listings *)

Lemma is_child_of_Some dir q name :
  Fs.is_child_of dir q = Some name <-> q = dir ++ [name].
Proof.
  unfold Fs.is_child_of, Fs.parent. split.
  - case_bool_decide as H; [| discriminate]. destruct H as [Hq <-].
    destruct q as [|x q] using rev_ind; [congruence |].
    rewrite last_snoc, removelast_last. intros [= ->]. reflexivity.
  - intros ->. rewrite bool_decide_eq_true_2.
    + apply last_snoc.
    + split; [destruct dir; discriminate | apply removelast_last].
Qed.

Lemma elem_of_children t dir name :
  name ∈ Fs.children t dir <-> is_Some (t !! (dir ++ [name])).
Proof.
  unfold Fs.children. rewrite list_elem_of_omap. split.
  - intros (q & Hq & Hchild). apply is_child_of_Some in Hchild as ->.
    apply list_elem_of_fmap in Hq as ([q x] & -> & Hq).
    apply elem_of_map_to_list in Hq. simpl. eauto.
  - intros [x Hx]. exists (dir ++ [name]). split; [| apply is_child_of_Some; reflexivity].
    apply list_elem_of_fmap. exists (dir ++ [name], x). split; [reflexivity |].
    apply elem_of_map_to_list, Hx.
Qed.

Lemma NoDup_omap_inj {A B} (f : A -> option B) (l : list A) :
  (forall x y z, f x = Some z -> f y = Some z -> x = y) ->
  NoDup l -> NoDup (omap f l).
Proof.
  intros Hinj. induction 1 as [|x l Hx Hl IH]; simpl; [constructor |].
  destruct (f x) as [z|] eqn:E; [| exact IH].
  constructor; [| exact IH].
  intros Hin. apply list_elem_of_omap in Hin as (y & Hy & Hfy).
  rewrite (Hinj _ _ _ E Hfy) in Hx. contradiction.
Qed.

Lemma NoDup_children t dir : NoDup (Fs.children t dir).
Proof.
  apply NoDup_omap_inj; [| apply NoDup_fst_map_to_list].
  intros x y z Hx Hy. apply is_child_of_Some in Hx, Hy. congruence.
Qed.

(** The listing of a directory is a matter of which names it holds. *)
Lemma children_Permutation t t' dir :
  (forall name, is_Some (t' !! (dir ++ [name])) <-> is_Some (t !! (dir ++ [name]))) ->
  Fs.children t' dir ≡ₚ Fs.children t dir.
Proof.
  intros H. apply NoDup_Permutation; try apply NoDup_children.
  intros name. rewrite !elem_of_children. apply H.
Qed.

Lemma children_Permutation_cons t t' dir new :
  t !! (dir ++ [new]) = None ->
  (forall name, is_Some (t' !! (dir ++ [name]))
                <-> name = new \/ is_Some (t !! (dir ++ [name]))) ->
  Fs.children t' dir ≡ₚ new :: Fs.children t dir.
Proof.
  intros Hnew H. apply NoDup_Permutation.
  - apply NoDup_children.
  - constructor; [| apply NoDup_children].
    rewrite elem_of_children, Hnew. intros [? ?]; discriminate.
  - intros name. rewrite elem_of_cons, !elem_of_children. apply H.
Qed.

Lemma children_empty_dir t dir :
  well_formed t -> Fs.node_at t dir ≠ Some Fs.Dir -> Fs.children t dir = [].
Proof.
  intros Hwf Hdir. destruct (Fs.children t dir) as [|name l] eqn:E; [reflexivity |].
  assert (Hin : name ∈ Fs.children t dir) by (rewrite E; left).
  apply elem_of_children, Hwf in Hin as [_ Hin]. contradiction.
Qed.

(** * The cache of one book *)

Lemma handler_bind_inl {A B} (m : handler A) (k : A -> handler B) s a s' :
  m s = (inl a, s') -> (m ≫= k) s = k a s'.
Proof. unfold mbind, handler_bind. intros ->. reflexivity. Qed.

Lemma handler_bind_inr {A B} (m : handler A) (k : A -> handler B) s e s' :
  m s = (inr e, s') -> (m ≫= k) s = (inr e, s').
Proof. unfold mbind, handler_bind. intros ->. reflexivity. Qed.

Lemma reads_only_ret {A} (a : A) : reads_only (mret a : handler A).
Proof. intros s. reflexivity. Qed.

Lemma reads_only_write_log l : reads_only (write_log l).
Proof. intros s. reflexivity. Qed.

Lemma reads_only_bind {A B} (m : handler A) (k : A -> handler B) :
  reads_only m -> (forall a, reads_only (k a)) -> reads_only (m ≫= k).
Proof.
  intros Hm Hk s. unfold mbind, handler_bind. specialize (Hm s).
  destruct (m s) as [[a|e] s1]; simpl in *; [| exact Hm].
  rewrite Hk. exact Hm.
Qed.

Lemma reads_only_try {A} (body : handler A) (on_error : jsstring -> handler A) :
  reads_only body -> (forall e, reads_only (on_error e)) ->
  reads_only (try_handler body on_error).
Proof.
  intros Hm Hk s. unfold try_handler. specialize (Hm s).
  destruct (body s) as [[a|e] s1]; simpl in *; [exact Hm |].
  rewrite Hk. exact Hm.
Qed.

Lemma reads_only_for_each {A S} (body : A -> S -> handler S) (xs : list A) :
  (forall x acc, reads_only (body x acc)) -> forall acc, reads_only (for_each xs body acc).
Proof.
  intros Hbody. induction xs as [|x xs IH]; intros acc; simpl.
  - apply reads_only_ret.
  - apply reads_only_bind; auto.
Qed.

Lemma reads_only_call_store {A} message_of (m : io A) :
  (forall w, fs (snd (m w)) = fs w) -> reads_only (call_store message_of m).
Proof.
  intros Hm s. unfold call_store. specialize (Hm (World (srv_fs s) [])).
  destruct (m _) as [r w]. exact Hm.
Qed.

Lemma access_reads p w : snd (access p w) = w.
Proof. unfold access. destruct (Fs.node_at _ _); reflexivity. Qed.

Lemma readdir_reads p w : snd (readdir p w) = w.
Proof. unfold readdir. destruct (Fs.node_at _ _) as [[]|]; reflexivity. Qed.

Lemma stat_full_reads {fs_stats : FsStats} p w : snd (stat_full p w) = w.
Proof. unfold stat_full. destruct (Fs.node_at _ _) as [[]|]; reflexivity. Qed.

(** A store function that changes nothing and logs nothing, called from
    a handler. *)
Lemma call_store_read {A} message_of (m : io A) s :
  (forall w, snd (m w) = w) ->
  call_store message_of m s
  = (match fst (m (World (srv_fs s) [])) with
     | Return a => inl a
     | Throw e => inr (message_of e)
     end, s).
Proof.
  intros Hm. unfold call_store. specialize (Hm (World (srv_fs s) [])).
  destruct (m _) as [r w]. simpl in *. subst w. simpl. rewrite app_nil_r.
  destruct s; reflexivity.
Qed.

Section BookStatus.
Context {cache_dir : CacheDir} {fs_stats : FsStats}.
Variable message_of : exn -> jsstring.

Lemma reads_only_access p : reads_only (call_store message_of (access p)).
Proof. apply reads_only_call_store. intros w. rewrite access_reads. reflexivity. Qed.

Lemma reads_only_readdir p : reads_only (call_store message_of (readdir p)).
Proof. apply reads_only_call_store. intros w. rewrite readdir_reads. reflexivity. Qed.

Lemma reads_only_stat p : reads_only (call_store message_of (stat_full p)).
Proof. apply reads_only_call_store. intros w. rewrite stat_full_reads. reflexivity. Qed.

Lemma reads_only_add_file dir file acc :
  reads_only (BookStatusRoute.add_file message_of dir file acc).
Proof.
  unfold BookStatusRoute.add_file. destruct acc as [totalSize lastUpdated].
  apply reads_only_bind; [apply reads_only_stat | intros; apply reads_only_ret].
Qed.

Lemma reads_only_add_files_until_error dir files : forall acc,
  reads_only (BookStatusRoute.add_files_until_error message_of dir files acc).
Proof.
  induction files as [|file rest IH]; intros acc; simpl.
  - apply reads_only_ret.
  - apply reads_only_bind.
    + apply reads_only_try; [| intros; apply reads_only_ret].
      apply reads_only_bind; [apply reads_only_add_file | intros; apply reads_only_ret].
    + intros [acc'|e]; [apply IH | apply reads_only_ret].
Qed.

Create HintDb reads.

#[local] Hint Resolve reads_only_ret reads_only_write_log reads_only_access
  reads_only_readdir reads_only_stat reads_only_add_file
  reads_only_add_files_until_error : reads.

(** X20: the status of a book is read off the file system and changes
    nothing in it: no directory is made, no file written or removed,
    whatever the parameters and whatever the state of the cache. *)
Theorem book_status_GET_reads_only bookKey voice (s : server) :
  srv_fs (snd (BookStatusRoute.GET message_of bookKey voice s)) = srv_fs s.
Proof.
  unfold BookStatusRoute.GET, catch_all.
  match goal with |- context [match ?h s with _ => _ end] =>
    assert (Hbody : reads_only h); [| specialize (Hbody s); destruct (h s) as [[r|e] s1];
                                       exact Hbody]
  end.
  destruct (negb (truthy bookKey)); [apply reads_only_ret |].
  cbv zeta. apply reads_only_bind.
  { apply reads_only_try; [| auto with reads].
    apply reads_only_bind; auto with reads. }
  intros found. destruct (negb found); [apply reads_only_ret |].
  destruct (truthy voice).
  - apply reads_only_try; [| auto with reads].
    apply reads_only_bind; [auto with reads | intros _].
    apply reads_only_bind; [auto with reads | intros files].
    apply reads_only_bind.
    + apply reads_only_for_each. auto with reads.
    + intros [totalSize lastUpdated]. apply reads_only_ret.
  - apply reads_only_bind; [auto with reads | intros voiceDirs].
    apply reads_only_bind; [| auto with reads].
    apply reads_only_for_each. intros voiceDir totals.
    apply reads_only_bind; [auto with reads | intros stats].
    destruct (negb (isDirectory stats)); [auto with reads |].
    apply reads_only_bind.
    { apply reads_only_try; [| auto with reads].
      apply reads_only_bind; auto with reads. }
    intros [files|err].
    + destruct (0 <? _)%nat; [| auto with reads].
      apply reads_only_bind; [auto with reads | intros [sizes thrown]].
      apply reads_only_bind; [| auto with reads].
      destruct thrown; auto with reads.
    + apply reads_only_bind; auto with reads.
Qed.

End BookStatus.

(** * Well-formed trees *)

Lemma well_formed_empty : well_formed ∅.
Proof. intros d name [x Hx]. rewrite lookup_empty in Hx. discriminate. Qed.

Lemma node_at_Dir_insert (t : gmap path Fs.node) (p d : path) (x : Fs.node) :
  Fs.node_at t p ≠ Some Fs.Dir -> p ≠ [] ->
  Fs.node_at t d = Some Fs.Dir -> Fs.node_at (<[p := x]> t) d = Some Fs.Dir.
Proof.
  intros Hp Hne Hd. rewrite node_at_insert_ne; [exact Hd |]. intros <-. contradiction.
Qed.

(** A new entry with a plain name in a directory keeps the tree
    well-formed, unless it hides a directory. *)
Lemma well_formed_insert t d name x :
  well_formed t -> plain name -> Fs.node_at t d = Some Fs.Dir ->
  t !! (d ++ [name]) ≠ Some Fs.Dir ->
  well_formed (<[d ++ [name] := x]> t).
Proof.
  intros Hwf Hname Hd Hp d' name' Hsome.
  assert (Hnode : Fs.node_at t (d ++ [name]) ≠ Some Fs.Dir)
    by (rewrite node_at_snoc; exact Hp).
  assert (Hne : d ++ [name] ≠ []) by (destruct d; discriminate).
  destruct (decide (d' ++ [name'] = d ++ [name])) as [Heq | Hneq].
  - apply app_inj_tail in Heq as [-> ->]. split; [exact Hname |].
    apply node_at_Dir_insert; assumption.
  - rewrite lookup_insert_ne in Hsome by congruence.
    destruct (Hwf _ _ Hsome) as [Hplain Hdir]. split; [exact Hplain |].
    apply node_at_Dir_insert; assumption.
Qed.

Lemma mkdir_from_well_formed rest : forall done t r t',
  well_formed t -> Fs.node_at t done = Some Fs.Dir -> Forall plain rest ->
  Fs.mkdir_from done rest t = (r, t') -> well_formed t'.
Proof.
  induction rest as [|seg rest IH]; intros done t r t' Hwf Hdone Hrest; simpl.
  - intros [= _ <-]. exact Hwf.
  - apply Forall_cons in Hrest as [Hseg Hrest].
    destruct (t !! (done ++ [seg])) as [[data|]|] eqn:E.
    + intros [= _ <-]. exact Hwf.
    + apply IH; [exact Hwf | rewrite node_at_snoc; exact E | exact Hrest].
    + apply IH; [| | exact Hrest].
      * apply well_formed_insert; [assumption .. |]. rewrite E. discriminate.
      * rewrite node_at_snoc. apply lookup_insert_eq.
Qed.

Lemma writeFile_well_formed d name data w r w' :
  well_formed (fs w) -> plain name ->
  writeFile (d ++ [name]) data w = (r, w') -> well_formed (fs w').
Proof.
  intros Hwf Hname. unfold writeFile. rewrite parent_snoc, node_at_snoc.
  destruct (fs w !! (d ++ [name])) as [[old|]|] eqn:E;
    try (destruct (Fs.node_at (fs w) d) as [[d'|]|] eqn:Ed);
    intros [= <- <-]; try exact Hwf; simpl;
    (apply well_formed_insert; [assumption .. |]); rewrite E; discriminate.
Qed.

Lemma plain_file_name (k suffix : jsstring) :
  slash_free k -> slash_free suffix -> (2 < length suffix)%nat -> plain (k ++ suffix).
Proof.
  intros Hk Hs Hlen. split; [| split; [| split]].
  - intros Heq. apply (f_equal length) in Heq. rewrite length_app in Heq. simpl in Heq. lia.
  - apply Forall_app. split; assumption.
  - intros Heq. apply (f_equal length) in Heq. rewrite length_app in Heq.
    change (length (js ".")) with 1%nat in Heq. lia.
  - intros Heq. apply (f_equal length) in Heq. rewrite length_app in Heq.
    change (length (js "..")) with 2%nat in Heq. lia.
Qed.

Lemma slash_free_mp3 : slash_free (js ".mp3").
Proof. repeat constructor; discriminate. Qed.

Lemma slash_free_meta_json : slash_free (js ".meta.json").
Proof. repeat constructor; discriminate. Qed.

Section StoreWellFormed.
Context {cache_dir : CacheDir} {runtime : JsRuntime}.

Lemma getMetadataFilePath_nested bookKey voice cacheKey :
  plain bookKey -> plain voice -> slash_free cacheKey ->
  Route.getMetadataFilePath bookKey voice cacheKey
  = (CACHE_DIR ++ [bookKey; voice]) ++ [cacheKey ++ js ".meta.json"].
Proof.
  intros Hb Hv Hk. rewrite (getMetadataFilePath_plain bookKey voice cacheKey Hk).
  rewrite (path_join_plain2 CACHE_DIR bookKey voice Hb Hv). reflexivity.
Qed.

Lemma getCacheFilePath_nested bookKey voice cacheKey :
  plain bookKey -> plain voice -> slash_free cacheKey ->
  Route.getCacheFilePath bookKey voice cacheKey
  = (CACHE_DIR ++ [bookKey; voice]) ++ [cacheKey ++ js ".mp3"].
Proof.
  intros Hb Hv Hk. rewrite (getCacheFilePath_plain bookKey voice cacheKey Hk).
  rewrite (path_join_plain2 CACHE_DIR bookKey voice Hb Hv). reflexivity.
Qed.

Lemma ensureCacheDir_well_formed bookKey voice w :
  Forall plain CACHE_DIR -> plain bookKey -> plain voice -> well_formed (fs w) ->
  well_formed (fs (snd (Route.ensureCacheDir (Some bookKey) (Some voice) w))).
Proof.
  intros Hdir Hb Hv Hwf. unfold Route.ensureCacheDir, try_catch, mkdir_recursive.
  pose proof (path_join_plain2 CACHE_DIR bookKey voice Hb Hv) as Hjoin.
  assert (Hall : Forall plain (CACHE_DIR ++ [bookKey; voice])).
  { apply Forall_app. split; [exact Hdir |].
    apply Forall_cons. split; [exact Hb |]. apply Forall_cons. split; [exact Hv | constructor]. }
  destruct Hb as (Hb1 & Hb). destruct Hv as (Hv1 & Hv).
  destruct bookKey; [congruence |]. destruct voice; [congruence |].
  cbn [truthy andb]. unfold default. cbn [from_option id]. rewrite Hjoin.
  destruct (Fs.mkdir_from [] _ (fs w)) as [[[]|e] t1] eqn:E; simpl;
    eapply (mkdir_from_well_formed _ []); eauto.
Qed.

(** [cacheAudio] keeps the tree well-formed, whether it returns or throws. *)
Lemma cacheAudio_well_formed created lastUsed bookKey voice cacheKey audioBuffer metadata w :
  Forall plain CACHE_DIR -> plain bookKey -> plain voice -> slash_free cacheKey ->
  well_formed (fs w) ->
  well_formed (fs (snd (Route.cacheAudio created lastUsed bookKey voice cacheKey
                          audioBuffer metadata w))).
Proof.
  intros Hdir Hb Hv Hk Hwf. unfold Route.cacheAudio, mbind, io_bind.
  pose proof (ensureCacheDir_well_formed bookKey voice w Hdir Hb Hv Hwf) as Hwf0.
  destruct (Route.ensureCacheDir _ _ w) as [[[]|e] w0]; [| exact Hwf0].
  simpl in Hwf0. rewrite (getCacheFilePath_nested _ _ _ Hb Hv Hk).
  rewrite (getMetadataFilePath_nested _ _ _ Hb Hv Hk).
  destruct (writeFile _ audioBuffer w0) as [r1 w1] eqn:E1.
  apply writeFile_well_formed in E1;
    [| exact Hwf0 | apply plain_file_name; [exact Hk | exact slash_free_mp3 | simpl; lia]].
  destruct r1 as [[]|e]; [| exact E1].
  destruct (writeFile _ _ w1) as [r2 w2] eqn:E2.
  apply writeFile_well_formed in E2;
    [| exact E1 | apply plain_file_name; [exact Hk | exact slash_free_meta_json | simpl; lia]].
  destruct r2 as [[]|e]; exact E2.
Qed.

End StoreWellFormed.

(** * What the status of a book counts *)

Lemma filter_length_Permutation {A} (f : A -> bool) (l l' : list A) :
  l ≡ₚ l' -> length (List.filter f l) = length (List.filter f l').
Proof.
  induction 1 as [| x l l' _ IH | x y l | l1 l2 l3 _ IH1 _ IH2]; simpl.
  - reflexivity.
  - destruct (f x); simpl; congruence.
  - destruct (f x), (f y); reflexivity.
  - congruence.
Qed.

Lemma is_mp3_audio_name (k : jsstring) : is_mp3 (k ++ js ".mp3") = true.
Proof.
  unfold is_mp3, endsWith. apply bool_decide_eq_true_2.
  rewrite length_app. change (length (js ".mp3")) with 4%nat.
  replace (length k + 4 - 4)%nat with (length k) by lia.
  apply drop_app_length.
Qed.

Lemma is_mp3_last (f : jsstring) : is_mp3 f = true -> last f = Some 51%N.
Proof.
  unfold is_mp3, endsWith. intros H. apply bool_decide_eq_true_1 in H.
  rewrite <- (take_drop (length f - length (js ".mp3")) f), H.
  change (js ".mp3") with ([46; 109; 112]%N ++ [51%N]).
  rewrite app_assoc. apply last_snoc.
Qed.

Lemma is_mp3_meta_name (k : jsstring) : is_mp3 (k ++ js ".meta.json") = false.
Proof.
  destruct (is_mp3 _) eqn:E; [| reflexivity]. apply is_mp3_last in E.
  change (js ".meta.json")
    with ([46; 109; 101; 116; 97; 46; 106; 115; 111]%N ++ [110%N]) in E.
  rewrite app_assoc, last_snoc in E. discriminate.
Qed.

Section BookStatusCount.
Context {cache_dir : CacheDir} {fs_stats : FsStats}.
Variable message_of : exn -> jsstring.

Lemma extractBookHash_truthy bookKey :
  plain (BookStatusRoute.extractBookHash bookKey) -> truthy (Some bookKey) = true.
Proof. destruct bookKey; [intros (H & _); contradiction | reflexivity]. Qed.

Lemma call_access p s :
  call_store message_of (access p) s
  = (match Fs.node_at (srv_fs s) p with
     | Some _ => inl ()
     | None => inr (message_of (FsError ENOENT))
     end, s).
Proof.
  rewrite call_store_read by apply access_reads. unfold access. cbn [fs].
  destruct (Fs.node_at _ _); reflexivity.
Qed.

Lemma call_readdir p s :
  call_store message_of (readdir p) s
  = (match Fs.node_at (srv_fs s) p with
     | Some Fs.Dir => inl (Fs.children (srv_fs s) p)
     | Some (Fs.File _) => inr (message_of (FsError ENOTDIR))
     | None => inr (message_of (FsError ENOENT))
     end, s).
Proof.
  rewrite call_store_read by apply readdir_reads. unfold readdir. cbn [fs].
  destruct (Fs.node_at _ _) as [[]|]; reflexivity.
Qed.

Lemma call_stat_entry d name x s :
  srv_fs s !! (d ++ [name]) = Some x ->
  exists stats,
    call_store message_of (stat_full (d ++ [name])) s = (inl stats, s)
    /\ isDirectory stats = match x with Fs.Dir => true | Fs.File _ => false end.
Proof.
  intros Hx. rewrite call_store_read by apply stat_full_reads.
  unfold stat_full. cbn [fs]. rewrite node_at_snoc, Hx.
  destruct x; eexists; (split; [reflexivity |]); reflexivity.
Qed.

Lemma path_join_plain1 base (a : jsstring) : plain a -> path_join base [a] = base ++ [a].
Proof.
  intros Ha. apply path_join_plain. apply Forall_cons. split; [exact Ha | constructor].
Qed.

Lemma add_file_ok dir f acc s :
  plain f -> is_Some (srv_fs s !! (dir ++ [f])) ->
  exists acc', BookStatusRoute.add_file message_of dir f acc s = (inl acc', s).
Proof.
  intros Hplain [x Hx]. destruct (call_stat_entry dir f x s Hx) as (stats & Hstat & _).
  destruct acc as [totalSize lastUpdated]. unfold BookStatusRoute.add_file.
  rewrite (path_join_plain1 dir f Hplain).
  rewrite (handler_bind_inl _ _ _ _ _ Hstat). eexists. reflexivity.
Qed.

(** In a well-formed tree [stat] finds every file that [readdir] lists. *)
Lemma add_files_ok dir s (files : list jsstring) :
  (forall f, f ∈ files -> plain f /\ is_Some (srv_fs s !! (dir ++ [f]))) ->
  forall acc, exists acc',
    for_each files (BookStatusRoute.add_file message_of dir) acc s = (inl acc', s).
Proof.
  induction files as [|f files IH]; intros Hfiles acc; simpl.
  - eexists. reflexivity.
  - destruct (Hfiles f) as [Hplain Hsome]; [left |].
    destruct (add_file_ok dir f acc s Hplain Hsome) as (acc1 & Hadd).
    rewrite (handler_bind_inl _ _ _ _ _ Hadd).
    apply IH. intros f' Hf'. apply Hfiles. right. exact Hf'.
Qed.

Lemma add_files_until_error_ok dir s (files : list jsstring) :
  (forall f, f ∈ files -> plain f /\ is_Some (srv_fs s !! (dir ++ [f]))) ->
  forall acc, exists acc',
    BookStatusRoute.add_files_until_error message_of dir files acc s
    = (inl (acc', None), s).
Proof.
  induction files as [|f files IH]; intros Hfiles acc; simpl.
  - eexists. reflexivity.
  - destruct (Hfiles f) as [Hplain Hsome]; [left |].
    destruct (add_file_ok dir f acc s Hplain Hsome) as (acc1 & Hadd).
    erewrite handler_bind_inl.
    2:{ unfold try_handler. rewrite (handler_bind_inl _ _ _ _ _ Hadd). reflexivity. }
    apply IH. intros f' Hf'. apply Hfiles. right. exact Hf'.
Qed.

Lemma listed_files_ok dir s :
  well_formed (srv_fs s) ->
  forall f, f ∈ List.filter is_mp3 (Fs.children (srv_fs s) dir) ->
            plain f /\ is_Some (srv_fs s !! (dir ++ [f])).
Proof.
  intros Hwf f Hf. apply list_elem_of_In, List.filter_In in Hf as [Hf _].
  apply list_elem_of_In, elem_of_children in Hf. split; [| exact Hf].
  apply (Hwf dir f Hf).
Qed.

(** The request for one voice, in a well-formed tree. *)
Lemma GET_voice_spec bookKey voice s :
  well_formed (srv_fs s) ->
  plain (BookStatusRoute.extractBookHash bookKey) -> plain voice ->
  exists r,
    BookStatusRoute.GET message_of (Some bookKey) (Some voice) s
    = (BookStatusRoute.Json200 r, s)
    /\ BookStatusRoute.cachedCount r
       = length (List.filter is_mp3
                   (Fs.children (srv_fs s)
                      (CACHE_DIR ++ [BookStatusRoute.extractBookHash bookKey; voice]))).
Proof.
  intros Hwf Hb Hv. unfold BookStatusRoute.GET, catch_all.
  rewrite (extractBookHash_truthy bookKey Hb). cbn [negb]. cbv zeta.
  unfold default. cbn [from_option id].
  set (book := BookStatusRoute.extractBookHash bookKey) in *.
  rewrite (path_join_plain1 CACHE_DIR book Hb), (path_join_plain1 _ voice Hv).
  rewrite <- app_assoc. cbn [app].
  assert (Hempty : Fs.node_at (srv_fs s) (CACHE_DIR ++ [book; voice]) ≠ Some Fs.Dir ->
                   0%nat = length (List.filter is_mp3
                                (Fs.children (srv_fs s) (CACHE_DIR ++ [book; voice])))).
  { intros Hno. rewrite (children_empty_dir _ _ Hwf Hno). reflexivity. }
  change (CACHE_DIR ++ [book; voice]) with (CACHE_DIR ++ [book] ++ [voice]) in *.
  rewrite app_assoc in *.
  unfold mbind at 1, handler_bind at 1. unfold try_handler at 1.
  unfold mbind at 1, handler_bind at 1. rewrite call_access, node_at_snoc.
  destruct (srv_fs s !! (CACHE_DIR ++ [book])) as [xb|] eqn:Eb.
  - unfold mret at 1, handler_ret at 1. cbn [negb].
    assert (Hvoice : truthy (Some voice) = true)
      by (destruct voice; [destruct Hv as (H & _); contradiction | reflexivity]).
    rewrite Hvoice. unfold try_handler at 1.
    unfold mbind at 1, handler_bind at 1. rewrite call_access, node_at_snoc.
    rewrite node_at_snoc in Hempty.
    destruct (srv_fs s !! ((CACHE_DIR ++ [book]) ++ [voice])) as [[data|]|] eqn:Ev.
    + unfold mbind at 1, handler_bind at 1. rewrite call_readdir, node_at_snoc, Ev.
      eexists. split; [reflexivity |]. apply Hempty. discriminate.
    + unfold mbind at 1, handler_bind at 1. rewrite call_readdir, node_at_snoc, Ev.
      destruct (add_files_ok ((CACHE_DIR ++ [book]) ++ [voice]) s _
                  (listed_files_ok _ s Hwf) (0%float, 0%float)) as ([ts lu] & Hloop).
      unfold mbind at 1, handler_bind at 1.
      change (fun f => endsWith f (js ".mp3")) with is_mp3. rewrite Hloop.
      eexists. split; reflexivity.
    + eexists. split; [reflexivity |]. apply Hempty. discriminate.
  - unfold mret at 1, handler_ret at 1. cbn [negb].
    eexists. split; [reflexivity |]. apply Hempty.
    rewrite node_at_snoc. intros Hdir.
    destruct (Hwf (CACHE_DIR ++ [book]) voice) as [_ Habs]; [rewrite Hdir; eauto |].
    rewrite node_at_snoc, Eb in Habs. discriminate.
Qed.

End BookStatusCount.

Lemma NoDup_List_filter {A} (f : A -> bool) (l : list A) :
  NoDup l -> NoDup (List.filter f l).
Proof.
  induction 1 as [|x l Hx Hl IH]; simpl; [constructor |].
  destruct (f x); [| exact IH]. constructor; [| exact IH].
  intros Hin. apply list_elem_of_In, List.filter_In in Hin as [Hin _].
  apply list_elem_of_In in Hin. contradiction.
Qed.

Lemma count_new_file (t t' : Fs.tree) dir new (f : jsstring -> bool) :
  f new = true -> t !! (dir ++ [new]) = None ->
  (forall n, f n = true ->
             (is_Some (t' !! (dir ++ [n])) <-> n = new \/ is_Some (t !! (dir ++ [n])))) ->
  length (List.filter f (Fs.children t' dir))
  = S (length (List.filter f (Fs.children t dir))).
Proof.
  intros Hf Hnew Hnames.
  change (S (length (List.filter f (Fs.children t dir))))
    with (length (new :: List.filter f (Fs.children t dir))).
  apply Permutation_length, NoDup_Permutation.
  - apply NoDup_List_filter, NoDup_children.
  - constructor; [| apply NoDup_List_filter, NoDup_children].
    intros Hin. apply list_elem_of_In, List.filter_In in Hin as [Hin _].
    apply list_elem_of_In, elem_of_children in Hin. rewrite Hnew in Hin.
    destruct Hin; discriminate.
  - intros n. rewrite elem_of_cons, !list_elem_of_In, !List.filter_In, <- !list_elem_of_In.
    rewrite !elem_of_children. split.
    + intros [Hin Hn]. apply (Hnames n Hn) in Hin as [-> | Hin]; auto.
    + intros [-> | [Hin Hn]].
      * split; [| exact Hf]. apply (Hnames new Hf). left. reflexivity.
      * split; [| exact Hn]. apply (Hnames n Hn). right. exact Hin.
Qed.

Section BookStatusAfterStore.
Context {cache_dir : CacheDir} {runtime : JsRuntime} {fs_stats : FsStats}.
Variable message_of : exn -> jsstring.

(** X21: once [cacheAudio] has returned for an entry that was not in the
    cache, the status of the book for that voice counts one file more
    than before, whatever session suffix the book key of the request
    carries. *)
Theorem book_status_counts_a_new_entry created lastUsed book voice cacheKey audioBuffer
    metadata bookKey (w w' : world) log log' :
  Forall plain CACHE_DIR -> well_formed (fs w) ->
  plain book -> plain voice -> slash_free cacheKey ->
  BookStatusRoute.extractBookHash bookKey = book ->
  fs w !! Route.getCacheFilePath book voice cacheKey = None ->
  Route.cacheAudio created lastUsed book voice cacheKey audioBuffer metadata w
  = (Return (), w') ->
  exists before after,
    fst (BookStatusRoute.GET message_of (Some bookKey) (Some voice) (Server (fs w) log))
    = BookStatusRoute.Json200 before
    /\ fst (BookStatusRoute.GET message_of (Some bookKey) (Some voice) (Server (fs w') log'))
       = BookStatusRoute.Json200 after
    /\ BookStatusRoute.cachedCount after = S (BookStatusRoute.cachedCount before).
Proof.
  intros Hdir Hwf Hb Hv Hk Hhash Hnew Hrun.
  pose proof (cacheAudio_well_formed created lastUsed book voice cacheKey audioBuffer
                metadata w Hdir Hb Hv Hk Hwf) as Hwf'.
  rewrite Hrun in Hwf'. cbn [snd] in Hwf'. rewrite <- Hhash in Hb.
  destruct (GET_voice_spec message_of bookKey voice (Server (fs w) log) Hwf Hb Hv)
    as (before & Hbefore & Hcount).
  destruct (GET_voice_spec message_of bookKey voice (Server (fs w') log') Hwf' Hb Hv)
    as (after & Hafter & Hcount').
  exists before, after. rewrite Hbefore, Hafter. split; [reflexivity |].
  split; [reflexivity |]. rewrite Hcount, Hcount', Hhash. cbn [srv_fs].
  rewrite Hhash in Hb. clear Hbefore Hafter Hcount Hcount' Hwf'.
  pose proof (getCacheFilePath_nested book voice cacheKey Hb Hv Hk) as Hna.
  pose proof (getMetadataFilePath_nested book voice cacheKey Hb Hv Hk) as Hnm.
  rewrite Hna in Hnew.
  apply (count_new_file _ _ _ (cacheKey ++ js ".mp3"));
    [apply is_mp3_audio_name | exact Hnew |].
  intros n Hn. revert Hrun. unfold Route.cacheAudio, mbind, io_bind.
  destruct (ensureCacheDir_spec (Some book) (Some voice) w) as (t0 & log0 & Hens & _).
  assert (Hsame : t0 !! ((CACHE_DIR ++ [book; voice]) ++ [n])
                  = fs w !! ((CACHE_DIR ++ [book; voice]) ++ [n])).
  { apply (ensureCacheDir_longer book voice w t0 _ _ (proj1 Hb) (proj1 Hv) Hens).
    rewrite (path_join_plain2 CACHE_DIR book voice Hb Hv), !length_app. simpl. lia. }
  rewrite Hens, Hna, Hnm.
  destruct (writeFile _ audioBuffer _) as [r1 w1] eqn:E1.
  apply writeFile_inv in E1 as [(-> & -> & _) | (e & -> & ->)]; [| discriminate].
  destruct (writeFile _ _ _) as [r2 w2] eqn:E2.
  apply writeFile_inv in E2 as [(-> & -> & _) | (e & -> & ->)]; [| discriminate].
  intros [= <-]. cbn [fs].
  assert (Hmeta : n ≠ cacheKey ++ js ".meta.json").
  { intros ->. rewrite is_mp3_meta_name in Hn. discriminate. }
  rewrite lookup_insert_ne by (intros Heq; apply app_inj_tail in Heq as [_ Heq]; congruence).
  destruct (decide (n = cacheKey ++ js ".mp3")) as [-> | Hne].
  - rewrite lookup_insert_eq. split; eauto.
  - rewrite lookup_insert_ne by (intros Heq; apply app_inj_tail in Heq as [_ Heq]; congruence).
    rewrite Hsame. split; [auto | intros [? | ?]; [contradiction | assumption]].
Qed.

End BookStatusAfterStore.

Lemma plain_demo_dir : Forall (A := jsstring) plain demo_dir.
Proof.
  apply Forall_cons. split.
  { split; [discriminate |]. split; [repeat constructor; discriminate |]. split; discriminate. }
  apply Forall_cons. split; [| constructor].
  split; [discriminate |]. split; [repeat constructor; discriminate |]. split; discriminate.
Qed.

Lemma book_status_counts_a_new_entry_witness :
  exists before after,
    fst (BookStatusRoute.GET (cache_dir := demo_dir) (fs_stats := demo_stats) demo_message
           (Some (js "_default-42")) (Some (js "V")) (Server (fs empty_world) []))
    = BookStatusRoute.Json200 before
    /\ fst (BookStatusRoute.GET (cache_dir := demo_dir) (fs_stats := demo_stats) demo_message
              (Some (js "_default-42")) (Some (js "V"))
              (Server (fs world_after_default_hello) []))
       = BookStatusRoute.Json200 after
    /\ BookStatusRoute.cachedCount after = S (BookStatusRoute.cachedCount before).
Proof.
  apply (book_status_counts_a_new_entry (cache_dir := demo_dir) (runtime := demo_runtime)
           (fs_stats := demo_stats) demo_message
           (js "2024-01-01T00:00:00.000Z") (js "2024-01-01T00:00:00.000Z")
           (js "_default") (js "V") (Route.generateCacheKey (js "Hello") (js "V")) [73; 68; 51]
           {| Route.meta_text := Some (js "Hello"); Route.meta_voice := Some (js "V");
              Route.meta_bookKey := Some (js "_default") |}
           (js "_default-42") empty_world world_after_default_hello [] []).
  - exact plain_demo_dir.
  - exact well_formed_empty.
  - exact plain_default.
  - exact plain_V.
  - apply hex_digit_not_slash, md5_hex_shape.
  - vm_compute. reflexivity.
  - apply lookup_empty.
  - apply run_eq. vm_compute. reflexivity.
Defined.

(** * The status of a book over all its voices *)

Lemma sum_list_filter_positive (f : jsstring -> nat) (l : list jsstring) :
  sum_list (f <$> List.filter (fun v => (0 <? f v)%nat) l) = sum_list (f <$> l).
Proof.
  induction l as [|v l IH]; [reflexivity |].
  cbn [List.filter fmap list_fmap]. destruct (0 <? f v)%nat eqn:E.
  - cbn [fmap list_fmap] in *. simpl. rewrite IH. reflexivity.
  - cbn [fmap list_fmap] in *. simpl. rewrite IH. apply Nat.ltb_ge in E. lia.
Qed.

Section BookStatusAll.
Context {cache_dir : CacheDir} {fs_stats : FsStats}.
Variable message_of : exn -> jsstring.

Lemma GET_all_spec bookKey voice s :
  well_formed (srv_fs s) ->
  plain (BookStatusRoute.extractBookHash bookKey) -> truthy voice = false ->
  let bookDir := CACHE_DIR ++ [BookStatusRoute.extractBookHash bookKey] in
  let count v := length (List.filter is_mp3 (Fs.children (srv_fs s) (bookDir ++ [v]))) in
  (exists data, srv_fs s !! bookDir = Some (Fs.File data)
                /\ let e := message_of (FsError ENOTDIR) in
                   BookStatusRoute.GET message_of (Some bookKey) voice s
                   = (BookStatusRoute.Json500 e,
                      Server (srv_fs s) (srv_log s ++ [ErrBookStatus e])))
  \/ (exists r,
        BookStatusRoute.GET message_of (Some bookKey) voice s = (BookStatusRoute.Json200 r, s)
        /\ BookStatusRoute.voices r
           = Some (List.filter (fun v => (0 <? count v)%nat) (Fs.children (srv_fs s) bookDir))
        /\ BookStatusRoute.cachedCount r
           = sum_list (count <$> Fs.children (srv_fs s) bookDir)).
Proof.
  intros Hwf Hb Hvoice bookDir count. unfold BookStatusRoute.GET, catch_all.
  rewrite (extractBookHash_truthy bookKey Hb), Hvoice. cbn [negb]. cbv zeta.
  unfold default at 1. cbn [from_option id].
  set (book := BookStatusRoute.extractBookHash bookKey) in *.
  rewrite (path_join_plain1 CACHE_DIR book Hb). fold bookDir.
  erewrite handler_bind_inl.
  2:{ unfold try_handler. unfold mbind at 1, handler_bind at 1.
      rewrite (call_access message_of bookDir s). unfold bookDir. rewrite node_at_snoc.
      fold bookDir.
      instantiate (1 := s). instantiate (1 := bool_decide (is_Some (srv_fs s !! bookDir))).
      destruct (srv_fs s !! bookDir) as [x|] eqn:E.
      - rewrite bool_decide_eq_true_2 by eauto. reflexivity.
      - rewrite bool_decide_eq_false_2 by (intros [? ?]; discriminate). reflexivity. }
  destruct (srv_fs s !! bookDir) as [[data|]|] eqn:Eb.
  - left. rewrite bool_decide_eq_true_2 by eauto. cbn [negb].
    erewrite handler_bind_inr.
    2:{ rewrite (call_readdir message_of bookDir s). unfold bookDir at 1.
        rewrite node_at_snoc. fold bookDir. rewrite Eb. reflexivity. }
    eauto.
  - right. rewrite bool_decide_eq_true_2 by eauto. cbn [negb].
    erewrite handler_bind_inl.
    2:{ rewrite (call_readdir message_of bookDir s). unfold bookDir at 1.
        rewrite node_at_snoc. fold bookDir. rewrite Eb. reflexivity. }
    match goal with |- context [for_each _ ?b _] => set (body := b) end.
    assert (Hloop : forall l totals,
      (forall v, v ∈ l -> is_Some (srv_fs s !! (bookDir ++ [v]))) ->
      exists sizes updated,
        for_each l body totals s
        = (inl {| BookStatusRoute.acc_voices :=
                    BookStatusRoute.acc_voices totals
                    ++ List.filter (fun v => (0 <? count v)%nat) l;
                  BookStatusRoute.totalCachedCount :=
                    BookStatusRoute.totalCachedCount totals + sum_list (count <$> l);
                  BookStatusRoute.acc_totalSize := sizes;
                  BookStatusRoute.acc_lastUpdated := updated |}, s)).
    { induction l as [|v l IH]; intros totals Hl.
      - exists (BookStatusRoute.acc_totalSize totals),
               (BookStatusRoute.acc_lastUpdated totals).
        simpl. rewrite app_nil_r, Nat.add_0_r. destruct totals; reflexivity.
      - assert (Hrest : forall v', v' ∈ l -> is_Some (srv_fs s !! (bookDir ++ [v'])))
          by (intros v' Hv'; apply Hl; right; exact Hv').
        destruct (Hl v) as [x Hx]; [left |].
        destruct (Hwf bookDir v) as [Hplain _]; [eauto |].
        destruct (call_stat_entry message_of bookDir v x s Hx) as (stats & Hstat & HisDir).
        assert (Hstep : exists totals1,
                  body v totals s = (inl totals1, s)
                  /\ BookStatusRoute.acc_voices totals1
                     = BookStatusRoute.acc_voices totals
                       ++ (if (0 <? count v)%nat then [v] else [])
                  /\ BookStatusRoute.totalCachedCount totals1
                     = (BookStatusRoute.totalCachedCount totals + count v)%nat).
        { unfold body. rewrite (path_join_plain1 bookDir v Hplain).
          rewrite (handler_bind_inl _ _ _ _ _ Hstat), HisDir.
          destruct x as [data|]; cbn [negb].
          - exists totals. split; [reflexivity |].
            assert (Hc : count v = 0%nat).
            { unfold count. rewrite (children_empty_dir _ _ Hwf); [reflexivity |].
              rewrite node_at_snoc, Hx. discriminate. }
            rewrite Hc. cbn. rewrite app_nil_r. split; [reflexivity | lia].
          - erewrite handler_bind_inl.
            2:{ unfold try_handler. erewrite handler_bind_inl.
                2:{ rewrite (call_readdir message_of (bookDir ++ [v]) s).
                    rewrite node_at_snoc, Hx. reflexivity. }
                reflexivity. }
            cbv beta iota. change (fun f => endsWith f (js ".mp3")) with is_mp3.
            fold (count v). destruct (0 <? count v)%nat eqn:Epos.
            + destruct (add_files_until_error_ok message_of (bookDir ++ [v]) s _
                          (listed_files_ok _ s Hwf)
                          (BookStatusRoute.acc_totalSize totals,
                           BookStatusRoute.acc_lastUpdated totals)) as (sizes & Hadd).
              rewrite (handler_bind_inl _ _ _ _ _ Hadd). cbv beta iota.
              eexists. split; [reflexivity |]. split; reflexivity.
            + exists totals. split; [reflexivity |].
              apply Nat.ltb_ge in Epos. rewrite app_nil_r. split; [reflexivity | lia]. }
        destruct Hstep as (totals1 & Hstep & Hvoices1 & Hcount1).
        destruct (IH totals1 Hrest) as (sizes & updated & Hfor).
        exists sizes, updated. cbn [for_each]. rewrite (handler_bind_inl _ _ _ _ _ Hstep).
        rewrite Hfor, Hvoices1, Hcount1. cbn [List.filter fmap list_fmap sum_list].
        f_equal. f_equal. f_equal.
        + rewrite <- app_assoc. destruct (0 <? count v)%nat; reflexivity.
        + unfold id. lia. }
    destruct (Hloop (Fs.children (srv_fs s) bookDir)
                {| BookStatusRoute.acc_voices := []; BookStatusRoute.totalCachedCount := 0;
                   BookStatusRoute.acc_totalSize := 0; BookStatusRoute.acc_lastUpdated := 0 |})
      as (sizes & updated & Hfor).
    { intros v Hv. apply elem_of_children, Hv. }
    rewrite (handler_bind_inl _ _ _ _ _ Hfor).
    eexists. split; [reflexivity |]. split; reflexivity.
  - right. rewrite bool_decide_eq_false_2 by (intros [? ?]; discriminate). cbn [negb].
    eexists. split; [reflexivity |]. cbn [BookStatusRoute.voices BookStatusRoute.cachedCount].
    assert (Hnone : Fs.children (srv_fs s) bookDir = []).
    { apply children_empty_dir; [exact Hwf |]. unfold bookDir.
      rewrite node_at_snoc. fold bookDir. rewrite Eb. discriminate. }
    rewrite Hnone. split; reflexivity.
Qed.

(** X22: in a well-formed tree, when the status of a book over all its
    voices is answered, nothing is logged, and the count is the sum of the
    counts that the same book gets for each of the voices listed; a voice
    is listed exactly when its own count is not zero. *)
Theorem book_status_total_is_the_sum_over_voices bookKey voice r (s s' : server) :
  well_formed (srv_fs s) ->
  plain (BookStatusRoute.extractBookHash bookKey) -> truthy voice = false ->
  BookStatusRoute.GET message_of (Some bookKey) voice s = (BookStatusRoute.Json200 r, s') ->
  let count v :=
    reported_count (fst (BookStatusRoute.GET message_of (Some bookKey) (Some v) s)) in
  s' = s
  /\ exists vs,
       BookStatusRoute.voices r = Some vs /\ NoDup vs
       /\ BookStatusRoute.cachedCount r = sum_list (count <$> vs)
       /\ forall v, plain v -> (v ∈ vs <-> (0 < count v)%nat).
Proof.
  intros Hwf Hb Hvoice Hrun count.
  set (bookDir := CACHE_DIR ++ [BookStatusRoute.extractBookHash bookKey]).
  set (files v := length (List.filter is_mp3 (Fs.children (srv_fs s) (bookDir ++ [v])))).
  assert (Hcount : forall v, plain v -> count v = files v).
  { intros v Hv. unfold count.
    destruct (GET_voice_spec message_of bookKey v s Hwf Hb Hv) as (rv & -> & Hrv).
    cbn [fst reported_count]. rewrite Hrv.
    unfold files, bookDir. rewrite <- app_assoc. reflexivity. }
  destruct (GET_all_spec bookKey voice s Hwf Hb Hvoice)
    as [(data & _ & Hfails) | (r0 & Hr0 & Hvoices & Htotal)];
    [rewrite Hfails in Hrun; discriminate |].
  rewrite Hr0 in Hrun. injection Hrun as <- <-. split; [reflexivity |].
  fold bookDir in Hvoices, Htotal. fold files in Hvoices, Htotal.
  eexists. split; [exact Hvoices |]. split; [| split].
  - apply NoDup_List_filter, NoDup_children.
  - rewrite Htotal, <- sum_list_filter_positive. f_equal.
    apply list_fmap_ext. intros i v Hv. symmetry. apply Hcount.
    apply list_elem_of_lookup_2, list_elem_of_In, List.filter_In in Hv as [Hv _].
    apply list_elem_of_In, elem_of_children in Hv. apply (Hwf bookDir v Hv).
  - intros v Hv. rewrite (Hcount v Hv), list_elem_of_In, List.filter_In, <- list_elem_of_In.
    rewrite Nat.ltb_lt, elem_of_children. split; [tauto |]. intros Hpos. split; [| exact Hpos].
    destruct (srv_fs s !! (bookDir ++ [v])) as [x|] eqn:E; [eauto |].
    unfold files in Hpos. rewrite (children_empty_dir _ _ Hwf) in Hpos; [simpl in Hpos; lia |].
    rewrite node_at_snoc, E. discriminate.
Qed.

(** X23: when a regular file has the name of the directory of a book, the
    request for all voices fails with status 500, the message of
    [readdir] in its details and in the log, while the request for one
    voice is answered with a count of zero, and nothing is logged. *)
Theorem book_status_when_the_book_directory_is_a_file bookKey voice data (s : server) :
  well_formed (srv_fs s) ->
  plain (BookStatusRoute.extractBookHash bookKey) -> plain voice ->
  srv_fs s !! (CACHE_DIR ++ [BookStatusRoute.extractBookHash bookKey]) = Some (Fs.File data) ->
  let e := message_of (FsError ENOTDIR) in
  BookStatusRoute.GET message_of (Some bookKey) None s
  = (BookStatusRoute.Json500 e, Server (srv_fs s) (srv_log s ++ [ErrBookStatus e]))
  /\ exists r,
       BookStatusRoute.GET message_of (Some bookKey) (Some voice) s
       = (BookStatusRoute.Json200 r, s)
       /\ BookStatusRoute.cachedCount r = 0%nat.
Proof.
  intros Hwf Hb Hv Hfile e. split.
  - destruct (GET_all_spec bookKey None s Hwf Hb eq_refl)
      as [(data' & _ & Hfails) | (r0 & Hr0 & Hvoices & Htotal)]; [exact Hfails |].
    exfalso. revert Hr0. unfold BookStatusRoute.GET, catch_all.
    rewrite (extractBookHash_truthy bookKey Hb). cbn [negb truthy]. cbv zeta.
    unfold default at 1. cbn [from_option id].
    rewrite (path_join_plain1 CACHE_DIR _ Hb).
    erewrite handler_bind_inl.
    2:{ unfold try_handler. unfold mbind at 1, handler_bind at 1.
        rewrite call_access, node_at_snoc, Hfile. reflexivity. }
    cbn [negb]. erewrite handler_bind_inr.
    2:{ rewrite call_readdir, node_at_snoc, Hfile. reflexivity. }
    discriminate.
  - destruct (GET_voice_spec message_of bookKey voice s Hwf Hb Hv) as (r & Hr & Hcount).
    exists r. split; [exact Hr |]. rewrite Hcount.
    rewrite (children_empty_dir _ _ Hwf); [reflexivity |].
    change [BookStatusRoute.extractBookHash bookKey; voice]
      with ([BookStatusRoute.extractBookHash bookKey] ++ [voice]).
    rewrite app_assoc, node_at_snoc. intros Hdir.
    destruct (Hwf _ voice (mk_is_Some _ _ Hdir)) as [_ Habs].
    rewrite node_at_snoc, Hfile in Habs. discriminate.
Qed.

End BookStatusAll.

Lemma well_formed_after_default_hello : well_formed (fs world_after_default_hello).
Proof.
  apply (cacheAudio_well_formed (cache_dir := demo_dir) (runtime := demo_runtime));
    [exact plain_demo_dir | exact plain_default | exact plain_V | | exact well_formed_empty].
  apply hex_digit_not_slash, md5_hex_shape.
Qed.

Lemma book_status_total_is_the_sum_over_voices_witness :
  let s := Server (fs world_after_default_hello) [] in
  let GET := BookStatusRoute.GET (cache_dir := demo_dir) (fs_stats := demo_stats)
               demo_message (Some (js "_default-42")) in
  let count v := reported_count (fst (GET (Some v) s)) in
  snd (GET None s) = s
  /\ exists vs,
       Some [js "V"] = Some vs /\ NoDup vs
       /\ 1%nat = sum_list (count <$> vs)
       /\ forall v, plain v -> (v ∈ vs <-> (0 < count v)%nat).
Proof.
  intros s GET count.
  apply (book_status_total_is_the_sum_over_voices (cache_dir := demo_dir)
           (fs_stats := demo_stats) demo_message (js "_default-42") None
           {| BookStatusRoute.bookKey := js "_default-42"; BookStatusRoute.voice := None;
              BookStatusRoute.cachedCount := 1; BookStatusRoute.totalSize := 3;
              BookStatusRoute.lastUpdated := 1704067200000;
              BookStatusRoute.voices := Some [js "V"] |}
           s (snd (GET None s))).
  - exact well_formed_after_default_hello.
  - exact plain_default.
  - reflexivity.
  - apply run_eq. vm_compute. reflexivity.
Defined.

Lemma plain_B : plain (js "B").
Proof.
  split; [discriminate |]. split; [repeat constructor; discriminate |].
  split; discriminate.
Qed.

Lemma well_formed_book_is_a_file : well_formed (srv_fs book_is_a_file).
Proof.
  pose proof plain_demo_dir as Hdir.
  apply Forall_cons in Hdir as [Hsrv Hdir]. apply Forall_cons in Hdir as [Hcache _].
  apply (well_formed_insert _ [js "srv"; js "tts-cache"] (js "B")).
  - apply (well_formed_insert _ [js "srv"] (js "tts-cache")).
    + apply (well_formed_insert _ [] (js "srv"));
        [exact well_formed_empty | exact Hsrv | reflexivity |].
      rewrite lookup_empty. discriminate.
    + exact Hcache.
    + vm_compute. reflexivity.
    + vm_compute. discriminate.
  - exact plain_B.
  - vm_compute. reflexivity.
  - vm_compute. discriminate.
Qed.

Lemma book_status_when_the_book_directory_is_a_file_witness :
  let e := js "ENOTDIR: not a directory" in
  BookStatusRoute.GET (cache_dir := demo_dir) (fs_stats := demo_stats) demo_message
    (Some (js "B-42")) None book_is_a_file
  = (BookStatusRoute.Json500 e,
     Server (srv_fs book_is_a_file) (srv_log book_is_a_file ++ [ErrBookStatus e]))
  /\ exists r,
       BookStatusRoute.GET (cache_dir := demo_dir) (fs_stats := demo_stats) demo_message
         (Some (js "B-42")) (Some (js "V")) book_is_a_file
       = (BookStatusRoute.Json200 r, book_is_a_file)
       /\ BookStatusRoute.cachedCount r = 0%nat.
Proof.
  apply (book_status_when_the_book_directory_is_a_file (cache_dir := demo_dir)
           (fs_stats := demo_stats) demo_message (js "B-42") (js "V") [] book_is_a_file).
  - exact well_formed_book_is_a_file.
  - exact plain_B.
  - exact plain_V.
  - vm_compute. reflexivity.
Defined.

(** * Clearing the flat layout *)

Lemma node_at_nonempty (t : Fs.tree) (p : path) : p ≠ [] -> Fs.node_at t p = t !! p.
Proof. destruct p; [congruence | reflexivity]. Qed.

(** In a well-formed tree everything above an entry is a directory. *)
Lemma well_formed_above t (q : path) : forall p,
  well_formed t -> q ≠ [] -> is_Some (t !! (p ++ q)) -> Fs.node_at t p = Some Fs.Dir.
Proof.
  induction q as [|x q IH] using rev_ind; intros p Hwf Hq Hsome; [congruence |].
  rewrite app_assoc in Hsome. destruct (Hwf _ _ Hsome) as [_ Hdir].
  destruct q as [|y q]; [rewrite app_nil_r in Hdir; exact Hdir |].
  apply (IH p Hwf); [discriminate |].
  rewrite node_at_nonempty in Hdir by (destruct p; discriminate).
  rewrite Hdir. eauto.
Qed.

Lemma mkdir_from_existing t rest : forall done,
  well_formed t -> Fs.node_at t (done ++ rest) = Some Fs.Dir ->
  Fs.mkdir_from done rest t = (Return (), t).
Proof.
  induction rest as [|seg rest IH]; intros done Hwf Hdir; simpl; [reflexivity |].
  change (seg :: rest) with ([seg] ++ rest) in Hdir. rewrite app_assoc in Hdir.
  assert (Hseg : t !! (done ++ [seg]) = Some Fs.Dir).
  { destruct rest as [|y rest].
    - rewrite app_nil_r, node_at_snoc in Hdir. exact Hdir.
    - rewrite <- node_at_snoc.
      apply (well_formed_above t (y :: rest)); [exact Hwf | discriminate |].
      rewrite node_at_nonempty in Hdir by (destruct done; discriminate).
      rewrite Hdir. eauto. }
  rewrite Hseg. apply IH; assumption.
Qed.

Lemma slash_free_remove_first pat s : slash_free s -> slash_free (remove_first pat s).
Proof.
  unfold slash_free. induction s as [|c s IH]; intros Hs; simpl; [constructor |].
  case_bool_decide.
  - apply Forall_drop, Hs.
  - apply Forall_cons in Hs as [Hc Hs]. constructor; auto.
Qed.

Lemma is_meta_json_name (k : jsstring) : is_meta_json (k ++ js ".meta.json") = true.
Proof.
  unfold is_meta_json, endsWith. apply bool_decide_eq_true_2.
  rewrite length_app. change (length (js ".meta.json")) with 10%nat.
  replace (length k + 10 - 10)%nat with (length k) by lia.
  apply drop_app_length.
Qed.

Lemma is_regular_file_deleted (t t' : Fs.tree) p :
  (forall q x, t' !! q = Some x -> t !! q = Some x) ->
  is_regular_file t p = false -> is_regular_file t' p = false.
Proof.
  unfold is_regular_file. intros Hsub. destruct (t' !! p) as [[data|]|] eqn:E; try reflexivity.
  rewrite (Hsub _ _ E). discriminate.
Qed.

Section ClearLoop.
Context {cache_dir : CacheDir}.

(** The audio file and the metadata file that go with a name of the
    listing. *)
Local Abbreviation audio_of f := (CACHE_DIR ++ [f]) (only parsing).
Local Abbreviation meta_of f :=
  (CACHE_DIR ++ [remove_first (js ".mp3") f ++ js ".meta.json"]) (only parsing).

Variable body : jsstring -> nat -> io nat.

Hypothesis body_spec : forall f n w,
  plain f -> is_mp3 f = true -> is_Some (fs w !! audio_of f) ->
  exists w1,
    body f n w = (Return (n + (if is_regular_file (fs w) (audio_of f) then 1 else 0))%nat, w1)
    /\ (forall p x, fs w1 !! p = Some x -> fs w !! p = Some x)
    /\ is_regular_file (fs w1) (audio_of f) = false
    /\ (is_regular_file (fs w) (audio_of f) = true -> is_regular_file (fs w1) (meta_of f) = false)
    /\ (forall p, p ≠ audio_of f -> p ≠ meta_of f -> fs w1 !! p = fs w !! p).

Lemma audio_neq_meta f f' : is_mp3 f = true -> audio_of f ≠ meta_of f'.
Proof.
  intros Hf Heq. apply app_inj_tail in Heq as [_ Heq]. subst f.
  rewrite is_mp3_meta_name in Hf. discriminate.
Qed.

Lemma clear_loop_spec (l : list jsstring) : forall n w,
  NoDup l ->
  (forall f, f ∈ l -> plain f /\ is_mp3 f = true /\ is_Some (fs w !! audio_of f)) ->
  exists w',
    for_of l body n w
    = (Return (n + length (List.filter (fun f => is_regular_file (fs w) (audio_of f)) l))%nat, w')
    /\ (forall p x, fs w' !! p = Some x -> fs w !! p = Some x)
    /\ (forall f, f ∈ l -> is_regular_file (fs w') (audio_of f) = false)
    /\ (forall f, f ∈ l -> is_regular_file (fs w) (audio_of f) = true ->
                  is_regular_file (fs w') (meta_of f) = false)
    /\ (forall p, (forall f, f ∈ l -> p ≠ audio_of f /\ p ≠ meta_of f) -> fs w' !! p = fs w !! p).
Proof.
  induction l as [|f l IH]; intros n w Hnodup Hl.
  - exists w. simpl. rewrite Nat.add_0_r. split; [reflexivity |].
    split; [auto |]. split; [intros f Hf; inversion Hf |].
    split; [intros f Hf; inversion Hf | reflexivity].
  - apply NoDup_cons in Hnodup as [Hf Hnodup].
    destruct (Hl f) as (Hplain & Hmp3 & Hsome); [left |].
    destruct (body_spec f n w Hplain Hmp3 Hsome) as (w1 & Hrun & Hsub1 & Hgone & Hmeta & Hframe1).
    assert (Hkeep : forall f', f' ∈ l -> fs w1 !! audio_of f' = fs w !! audio_of f').
    { intros f' Hf'. destruct (Hl f') as (_ & Hmp3' & _); [right; exact Hf' |].
      apply Hframe1; [| apply audio_neq_meta, Hmp3'].
      intros Heq. apply app_inj_tail in Heq as [_ ->]. contradiction. }
    destruct (IH (n + (if is_regular_file (fs w) (audio_of f) then 1 else 0))%nat w1 Hnodup)
      as (w' & Hfor & Hsub & Hgone' & Hmeta' & Hframe).
    { intros f' Hf'. destruct (Hl f') as (Hp' & Hm' & Hs'); [right; exact Hf' |].
      rewrite (Hkeep f' Hf'). auto. }
    exists w'. split; [| split; [| split; [| split]]].
    + cbn [for_of]. unfold mbind at 1, io_bind at 1. rewrite Hrun, Hfor. f_equal. f_equal.
      cbn [List.filter].
      rewrite (List.filter_ext_in (fun f0 => is_regular_file (fs w1) (audio_of f0))
                 (fun f0 => is_regular_file (fs w) (audio_of f0))).
      * destruct (is_regular_file (fs w) (audio_of f)); simpl; lia.
      * intros f' Hf'. apply list_elem_of_In in Hf'. unfold is_regular_file.
        rewrite (Hkeep f' Hf'). reflexivity.
    + intros p x Hp. apply Hsub1, Hsub, Hp.
    + intros f' Hf'. apply elem_of_cons in Hf' as [-> | Hf'].
      * apply (is_regular_file_deleted (fs w1)); assumption.
      * apply Hgone', Hf'.
    + intros f' Hf' Hfile. apply elem_of_cons in Hf' as [-> | Hf'].
      * apply (is_regular_file_deleted (fs w1)); auto.
      * apply Hmeta'; [exact Hf' |]. unfold is_regular_file in *.
        rewrite (Hkeep f' Hf'). exact Hfile.
    + intros p Hp. rewrite Hframe.
      * destruct (Hp f) as [H1 H2]; [left |]. apply Hframe1; assumption.
      * intros f' Hf'. apply Hp. right. exact Hf'.
Qed.

End ClearLoop.

Section ClearAll.
Context {cache_dir : CacheDir} {runtime : JsRuntime}.

Lemma stats_getMetadataFilePath_plain cacheKey :
  slash_free cacheKey ->
  StatsRoute.getMetadataFilePath cacheKey = CACHE_DIR ++ [cacheKey ++ js ".meta.json"].
Proof.
  intros Hk. apply path_join_plain1, plain_file_name;
    [exact Hk | exact slash_free_meta_json | simpl; lia].
Qed.

Lemma stats_ensureCacheDir_existing w :
  well_formed (fs w) -> Fs.node_at (fs w) CACHE_DIR = Some Fs.Dir ->
  StatsRoute.ensureCacheDir w = (Return (), w).
Proof.
  intros Hwf Hdir. unfold StatsRoute.ensureCacheDir, try_catch, mkdir_recursive.
  rewrite (mkdir_from_existing (fs w) CACHE_DIR [] Hwf Hdir). destruct w; reflexivity.
Qed.

(** X24: in a well-formed tree whose cache directory exists, clearing the
    cache without filter removes every regular file directly in the cache
    directory whose name ends in [.mp3], together with its metadata file,
    and reports their number.  Nothing is created, and nothing changes
    but entries directly in the cache directory with a name ending in
    [.mp3] or [.meta.json]: what lies in the directories of the books
    stays. *)
Theorem clear_all_removes_the_flat_entries (w : world) :
  well_formed (fs w) -> Fs.node_at (fs w) CACHE_DIR = Some Fs.Dir ->
  exists w',
    StatsRoute.POST {| StatsRoute.bookKey := None; StatsRoute.voice := None |} w
    = (Return (StatsRoute.Json200
                 {| StatsRoute.success := true;
                    StatsRoute.deletedCount :=
                      length (List.filter
                                (fun f => is_mp3 f && is_regular_file (fs w) (CACHE_DIR ++ [f]))
                                (Fs.children (fs w) CACHE_DIR));
                    StatsRoute.filter_bookKey := js "all";
                    StatsRoute.filter_voice := js "all" |}), w')
    /\ (forall f, is_mp3 f = true -> is_regular_file (fs w') (CACHE_DIR ++ [f]) = false)
    /\ (forall f, is_mp3 f = true -> is_regular_file (fs w) (CACHE_DIR ++ [f]) = true ->
                  is_regular_file (fs w')
                    (CACHE_DIR ++ [remove_first (js ".mp3") f ++ js ".meta.json"]) = false)
    /\ (forall p x, fs w' !! p = Some x -> fs w !! p = Some x)
    /\ (forall d name,
          d ≠ CACHE_DIR \/ (is_mp3 name = false /\ is_meta_json name = false) ->
          fs w' !! (d ++ [name]) = fs w !! (d ++ [name])).
Proof.
  intros Hwf Hdir. unfold StatsRoute.POST, try_catch.
  unfold mbind at 1, io_bind at 1. rewrite (stats_ensureCacheDir_existing w Hwf Hdir).
  cbn [StatsRoute.bookKey StatsRoute.voice truthy negb andb]. cbv zeta.
  unfold mbind at 1, io_bind at 1. unfold readdir at 1. rewrite Hdir.
  change (fun f => endsWith f (js ".mp3")) with is_mp3.
  match goal with |- context [for_of _ ?b _] => set (body := b) end.
  assert (Hbody : forall f n w0,
    plain f -> is_mp3 f = true -> is_Some (fs w0 !! (CACHE_DIR ++ [f])) ->
    exists w1,
      body f n w0
      = (Return (n + (if is_regular_file (fs w0) (CACHE_DIR ++ [f]) then 1 else 0))%nat, w1)
      /\ (forall p x, fs w1 !! p = Some x -> fs w0 !! p = Some x)
      /\ is_regular_file (fs w1) (CACHE_DIR ++ [f]) = false
      /\ (is_regular_file (fs w0) (CACHE_DIR ++ [f]) = true ->
          is_regular_file (fs w1)
            (CACHE_DIR ++ [remove_first (js ".mp3") f ++ js ".meta.json"]) = false)
      /\ (forall p, p ≠ CACHE_DIR ++ [f] ->
                    p ≠ CACHE_DIR ++ [remove_first (js ".mp3") f ++ js ".meta.json"] ->
                    fs w1 !! p = fs w0 !! p)).
  { intros f n w0 Hplain Hmp3 [x Hx]. unfold body.
    rewrite (path_join_plain1 CACHE_DIR f Hplain).
    rewrite (stats_getMetadataFilePath_plain (remove_first (js ".mp3") f))
      by (apply slash_free_remove_first, Hplain).
    unfold mbind, io_bind, mret, io_ret, stat, unlink, write_console. cbv beta.
    rewrite node_at_snoc, Hx. unfold is_regular_file at 1 3. rewrite Hx.
    destruct x as [data|]; cbv beta iota.
    - rewrite node_at_snoc, Hx. cbv beta iota. cbn [fs console]. rewrite node_at_snoc.
      set (t1 := delete (CACHE_DIR ++ [f]) (fs w0)).
      set (meta := CACHE_DIR ++ [remove_first (js ".mp3") f ++ js ".meta.json"]).
      assert (Hsub1 : forall p y, t1 !! p = Some y -> fs w0 !! p = Some y).
      { intros p y. unfold t1. rewrite lookup_delete_Some. tauto. }
      assert (Hgone1 : is_regular_file t1 (CACHE_DIR ++ [f]) = false).
      { unfold is_regular_file, t1. rewrite lookup_delete_eq. reflexivity. }
      assert (Hframe1 : forall p, p ≠ CACHE_DIR ++ [f] -> t1 !! p = fs w0 !! p).
      { intros p Hp. unfold t1. apply lookup_delete_ne. congruence. }
      rewrite Nat.add_1_r.
      destruct (t1 !! meta) as [[mdata|]|] eqn:Em.
      + eexists. split; [reflexivity |]. cbn [fs]. split; [| split; [| split]].
        * intros p y. rewrite lookup_delete_Some. intros [_ Hp]. eauto.
        * apply (is_regular_file_deleted t1); [| exact Hgone1].
          intros p y. rewrite lookup_delete_Some. tauto.
        * intros _. unfold is_regular_file. rewrite lookup_delete_eq. reflexivity.
        * intros p Hp1 Hp2. rewrite lookup_delete_ne by congruence. apply Hframe1, Hp1.
      + eexists. split; [reflexivity |]. cbn [fs].
        split; [exact Hsub1 |]. split; [exact Hgone1 |]. split.
        * intros _. unfold is_regular_file. rewrite Em. reflexivity.
        * intros p Hp1 Hp2. apply Hframe1, Hp1.
      + eexists. split; [reflexivity |]. cbn [fs].
        split; [exact Hsub1 |]. split; [exact Hgone1 |]. split.
        * intros _. unfold is_regular_file. rewrite Em. reflexivity.
        * intros p Hp1 Hp2. apply Hframe1, Hp1.
    - rewrite node_at_snoc, Hx. cbv beta iota. rewrite Nat.add_0_r.
      eexists. split; [reflexivity |]. cbn [fs].
      split; [auto |]. split; [unfold is_regular_file; rewrite Hx; reflexivity |].
      split; [discriminate | reflexivity]. }
  destruct (clear_loop_spec body Hbody (List.filter is_mp3 (Fs.children (fs w) CACHE_DIR)) 0%nat w)
    as (w' & Hfor & Hsub & Hgone & Hmeta & Hframe).
  { apply NoDup_List_filter, NoDup_children. }
  { intros f Hf. apply list_elem_of_In, List.filter_In in Hf as [Hf Hmp3].
    apply list_elem_of_In, elem_of_children in Hf.
    split; [apply (Hwf CACHE_DIR f Hf) | auto]. }
  unfold mbind at 1, io_bind at 1. rewrite Hfor. unfold mret at 1, io_ret at 1. exists w'. split; [| split; [| split; [| split]]].
  - repeat f_equal. cbn [Nat.add]. clear.
    induction (Fs.children (fs w) CACHE_DIR) as [|f l IH]; [reflexivity |].
    cbn [List.filter]. destruct (is_mp3 f); cbn [andb List.filter];
      [destruct (is_regular_file _ _); cbn [length]; rewrite IH; reflexivity | exact IH].
  - intros f Hmp3. destruct (fs w !! (CACHE_DIR ++ [f])) as [x|] eqn:E.
    + apply Hgone. apply list_elem_of_In, List.filter_In. split; [| exact Hmp3].
      apply list_elem_of_In, elem_of_children. rewrite E. eauto.
    + apply (is_regular_file_deleted (fs w)); [exact Hsub |].
      unfold is_regular_file. rewrite E. reflexivity.
  - intros f Hmp3 Hfile. apply Hmeta; [| exact Hfile].
    apply list_elem_of_In, List.filter_In. split; [| exact Hmp3].
    apply list_elem_of_In, elem_of_children. unfold is_regular_file in Hfile.
    destruct (fs w !! (CACHE_DIR ++ [f])); [eauto | discriminate].
  - exact Hsub.
  - intros d name Hother. apply Hframe. intros f Hf.
    apply list_elem_of_In, List.filter_In in Hf as [_ Hmp3].
    destruct Hother as [Hd | [Hn1 Hn2]].
    + split; intros Heq; apply app_inj_tail in Heq as [Heq _]; contradiction.
    + split; intros Heq; apply app_inj_tail in Heq as [_ Heq]; subst name.
      * congruence.
      * rewrite is_meta_json_name in Hn2. discriminate.
Qed.

End ClearAll.

Lemma well_formed_legacy_world : well_formed (fs legacy_world).
Proof.
  pose proof plain_demo_dir as Hdir.
  apply Forall_cons in Hdir as [Hsrv Hdir]. apply Forall_cons in Hdir as [Hcache _].
  assert (Hk : slash_free (js "k")) by (repeat constructor; discriminate).
  apply (well_formed_insert _ [js "srv"; js "tts-cache"] (js "k.meta.json")).
  - apply (well_formed_insert _ [js "srv"; js "tts-cache"] (js "k.mp3")).
    + apply (well_formed_insert _ [js "srv"] (js "tts-cache")).
      * apply (well_formed_insert _ [] (js "srv"));
          [exact well_formed_empty | exact Hsrv | reflexivity |].
        rewrite lookup_empty. discriminate.
      * exact Hcache.
      * vm_compute. reflexivity.
      * vm_compute. discriminate.
    + apply (plain_file_name (js "k") (js ".mp3") Hk slash_free_mp3). simpl. lia.
    + vm_compute. reflexivity.
    + vm_compute. discriminate.
  - apply (plain_file_name (js "k") (js ".meta.json") Hk slash_free_meta_json). simpl. lia.
  - vm_compute. reflexivity.
  - vm_compute. discriminate.
Qed.

Lemma clear_all_removes_the_flat_entries_witness :
  exists w',
    StatsRoute.POST (cache_dir := demo_dir) (runtime := demo_runtime)
      {| StatsRoute.bookKey := None; StatsRoute.voice := None |} legacy_world
    = (Return (StatsRoute.Json200
                 {| StatsRoute.success := true; StatsRoute.deletedCount := 1;
                    StatsRoute.filter_bookKey := js "all";
                    StatsRoute.filter_voice := js "all" |}), w')
    /\ (forall f, is_mp3 f = true -> is_regular_file (fs w') (demo_dir ++ [f]) = false)
    /\ (forall f, is_mp3 f = true -> is_regular_file (fs legacy_world) (demo_dir ++ [f]) = true ->
                  is_regular_file (fs w')
                    (demo_dir ++ [remove_first (js ".mp3") f ++ js ".meta.json"]) = false)
    /\ (forall p x, fs w' !! p = Some x -> fs legacy_world !! p = Some x)
    /\ (forall d name,
          d ≠ demo_dir \/ (is_mp3 name = false /\ is_meta_json name = false) ->
          fs w' !! (d ++ [name]) = fs legacy_world !! (d ++ [name])).
Proof.
  apply (clear_all_removes_the_flat_entries (cache_dir := demo_dir) (runtime := demo_runtime)
           legacy_world well_formed_legacy_world).
  vm_compute. reflexivity.
Defined.

(** * The texts of a book *)

Lemma pages_loop_ends_at view k : forall fuel pageCount allTexts,
  (exists e, Extract.next view k = Extract.NextThrows e
             \/ Extract.next view k = Extract.NextPage (Extract.StartThrows e)) ->
  snd (Extract.pages_loop (ends_at k view) fuel pageCount allTexts)
  = snd (Extract.pages_loop view fuel pageCount allTexts).
Proof.
  intros fuel pageCount allTexts (e & Hk). revert pageCount allTexts.
  induction fuel as [|fuel IH]; intros pageCount allTexts; [reflexivity |].
  cbn [Extract.pages_loop]. cbn [ends_at with_next Extract.next].
  destruct (S pageCount =? k)%nat eqn:E.
  - apply Nat.eqb_eq in E. rewrite E. destruct Hk as [-> | ->]; reflexivity.
  - destruct (Extract.next view (S pageCount)) as [err| |[err| |marks]]; try reflexivity.
    + specialize (IH (S pageCount) allTexts).
      destruct (Extract.pages_loop (ends_at k view) _ _ _),
               (Extract.pages_loop view _ _ _). exact IH.
    + specialize (IH (S pageCount) (addMarks allTexts marks)).
      destruct (Extract.pages_loop (ends_at k view) _ _ _),
               (Extract.pages_loop view _ _ _). exact IH.
Qed.

(** X25: a page on which [view.next()] or [view.tts.start()] throws ends
    the extraction like the end of the book: [extractBookText] gives the
    same texts, or the same error, as for the book that ends there, and
    the pages behind are not read. *)
Theorem extraction_takes_a_failing_page_for_the_end view k e :
  Extract.next view k = Extract.NextThrows e
  \/ Extract.next view k = Extract.NextPage (Extract.StartThrows e) ->
  snd (Extract.extractBookText view) = snd (Extract.extractBookText (ends_at k view)).
Proof.
  intros Hk. unfold Extract.extractBookText.
  cbn [ends_at with_next Extract.has_tts Extract.initTTS Extract.getCFI Extract.sections
       Extract.goToStart Extract.first_page].
  destruct (negb (Extract.has_tts view) && bool_decide (is_Some (Extract.initTTS view)));
    [reflexivity |].
  destruct (Extract.sections view =? 0)%nat; [reflexivity |].
  destruct (Extract.goToStart view); [reflexivity |].
  match goal with
  | |- context [Extract.pages_loop view ?f ?p ?a] =>
      pose proof (pages_loop_ends_at view k f p a (ex_intro _ e Hk)) as Hloop
  end.
  fold (ends_at k view).
  destruct (Extract.pages_loop (ends_at k view) _ _ _), (Extract.pages_loop view _ _ _).
  simpl in *. congruence.
Qed.

Lemma extraction_takes_a_failing_page_for_the_end_witness :
  snd (Extract.extractBookText torn_book) = inl [js "One."; js "Two."]
  /\ snd (Extract.extractBookText torn_book)
     = snd (Extract.extractBookText (ends_at 1 torn_book)).
Proof.
  split; [vm_compute; reflexivity |].
  apply (extraction_takes_a_failing_page_for_the_end torn_book 1 (js "no document")).
  right. reflexivity.
Defined.

Lemma pages_loop_with_next view next' : forall fuel pageCount allTexts,
  (forall n, (n <= pageCount + fuel)%nat -> next' n = Extract.next view n) ->
  Extract.pages_loop (with_next view next') fuel pageCount allTexts
  = Extract.pages_loop view fuel pageCount allTexts.
Proof.
  induction fuel as [|fuel IH]; intros pageCount allTexts Hsame; [reflexivity |].
  cbn [Extract.pages_loop]. cbn [with_next Extract.next].
  rewrite (Hsame (S pageCount)) by lia.
  destruct (Extract.next view (S pageCount)) as [err| |[err| |marks]]; try reflexivity;
    rewrite IH by (intros n Hn; apply Hsame; lia); reflexivity.
Qed.

(** X26: [extractBookText] calls [view.next()] a thousand times at most:
    what the view would answer to later calls makes no difference, neither
    to the calls made on the view nor to the texts returned, so that the
    texts behind page 1001 are not extracted. *)
Theorem extraction_stops_after_MAX_PAGES view next' :
  (forall n, (n <= Extract.MAX_PAGES)%nat -> next' n = Extract.next view n) ->
  Extract.extractBookText (with_next view next') = Extract.extractBookText view.
Proof.
  intros Hsame. unfold Extract.extractBookText.
  cbn [with_next Extract.has_tts Extract.initTTS Extract.getCFI Extract.sections
       Extract.goToStart Extract.first_page].
  fold (with_next view next'). rewrite pages_loop_with_next by exact Hsame. reflexivity.
Qed.

Lemma extraction_stops_after_MAX_PAGES_witness :
  let endless n :=
    if (n <=? 1000)%nat then Extract.NextPage Extract.NoSsml
    else Extract.NextPage (Extract.Marks [Some (js "Never read.")]) in
  Extract.extractBookText (with_next (with_next torn_book (fun _ => Extract.NextPage Extract.NoSsml))
                             endless)
  = Extract.extractBookText (with_next torn_book (fun _ => Extract.NextPage Extract.NoSsml)).
Proof.
  intros endless.
  apply (extraction_stops_after_MAX_PAGES
           (with_next torn_book (fun _ => Extract.NextPage Extract.NoSsml)) endless).
  intros n Hn. unfold endless. unfold Extract.MAX_PAGES in Hn.
  destruct (Nat.leb_spec n 1000); [reflexivity | lia].
Defined.

(** X27: when [view.getCFI()] gave a location, [extractBookText] does not
    return without going back to it: the last call on the view is
    [view.goTo] of that location.  When it throws instead, no page has
    been read or turned. *)
Theorem extraction_goes_back_to_the_location view location :
  Extract.getCFI view = inl (Some location) -> location ≠ [] ->
  match snd (Extract.extractBookText view) with
  | inl _ => last (fst (Extract.extractBookText view)) = Some (Extract.GoTo location)
  | inr _ => (Extract.Next ∉ fst (Extract.extractBookText view))
             /\ (Extract.TtsStart ∉ fst (Extract.extractBookText view))
  end.
Proof.
  intros Hcfi Hloc. unfold Extract.extractBookText. rewrite Hcfi.
  assert (Hinit : forall c, c ∈ (if Extract.has_tts view then [] else [Extract.InitTTS]) ->
                            c = Extract.InitTTS).
  { intros c. destruct (Extract.has_tts view); [inversion 1 |].
    intros ->%list_elem_of_singleton. reflexivity. }
  destruct (negb (Extract.has_tts view) && bool_decide (is_Some (Extract.initTTS view))).
  { cbn [fst snd]. split; intros Hin; apply Hinit in Hin; discriminate. }
  destruct (Extract.sections view =? 0)%nat.
  { cbn [fst snd]. split; intros Hin; apply elem_of_app in Hin as [Hin | Hin];
      try (apply Hinit in Hin; discriminate);
      apply list_elem_of_singleton in Hin; discriminate. }
  destruct (Extract.goToStart view) as [err|].
  { cbn [fst snd]. split; intros Hin; apply elem_of_app in Hin as [Hin | Hin];
      try (apply Hinit in Hin; discriminate);
      repeat (apply elem_of_cons in Hin as [Hin | Hin]; [discriminate |]); inversion Hin. }
  destruct (Extract.pages_loop view _ _ _) as [calls texts]. cbn [fst snd].
  destruct location as [|c location]; [congruence |]. cbn [truthy default from_option id].
  rewrite !app_assoc. apply last_snoc.
Qed.

Lemma extraction_goes_back_to_the_location_witness :
  last (fst (Extract.extractBookText torn_book)) = Some (Extract.GoTo (js "epubcfi(/6/4)")).
Proof.
  apply (extraction_goes_back_to_the_location torn_book (js "epubcfi(/6/4)"));
    [reflexivity | discriminate].
Defined.
